(** * Destructible terrain of vibe-heligame: a shallow embedding of
      [TerrainMap] and [TerrainGenerator] (src/main.py), of the code
      around them ([Terrain], the explosion of a [Projectile], the turn
      logic, the particle systems and [GameSettings]), and the properties
      of the specification and of the code itself.

    Conventions of the embedding.
    - Python [int]s are [Z]; pixel coordinates, radii and heights are
      Python ints, on which [int(...)] is the identity.
    - A Python list is a Rocq list; indexing follows Python: a negative
      index counts from the end, an index out of range raises
      [IndexError].  A raised exception is the result [None].
    - [for v in range(a, b)] is a fold over [range a b] in the option
      monad; [break] and [return] inside a loop are the early exits of
      the recursive scans.
    - The float expressions on integers are read over the reals: for
      integers [d2] and [r], [math.sqrt(d2) <= r] is
      [0 <= r /\ d2 <= r * r], and [math.sqrt(d2) < (r1 + r2) * 0.8] is
      [0 < r1 + r2 /\ 25 * d2 < 16 * (r1 + r2)^2]; section [RealReading]
      proves both against [sqrt] of the reals.  The weighted centre of a
      merged crater is truncated from its exact value.  Module [Binary64]
      has the same arithmetic on doubles, and the inputs evaluated in this
      file are replayed on it.
    - Other floats (the generator, the coordinates of projectiles and
      particles, the numeric settings) are the rationals they denote,
      with exact arithmetic.
    - [time.time()] is an input of [create_crater].
    - In the terrain generator [math.sin], [random] and the float power
      are parameters; so is [random.randint] in the particle
      constructor.
    - A dict used as a record is a record; the dicts of [GameSettings]
      are objects on a heap, because [dict.copy()] copies the outer dict
      only. *)

From Stdlib Require Import ZArith Lia Bool Reals QArith Psatz.
From Stdlib Require PrimFloat FloatOps Uint63.
From stdpp Require Import base option list numbers sets strings gmap.

Local Open Scope Z_scope.

(** * Part I. The embedding of the source *)

(** ** Python lists and loops *)

Module Py.

(** [l[i]] resolves a negative index from the end. *)
Definition norm_index {A} (l : list A) (i : Z) : option nat :=
  let n := Z.of_nat (length l) in
  if (0 <=? i) && (i <? n) then Some (Z.to_nat i)
  else if (- n <=? i) && (i <? 0) then Some (Z.to_nat (n + i))
  else None.

Definition getitem {A} (l : list A) (i : Z) : option A :=
  k ← norm_index l i; l !! k.

Definition setitem {A} (l : list A) (i : Z) (v : A) : option (list A) :=
  k ← norm_index l i; Some (<[k := v]> l).

(** [range(a, b)] and [range(a, b, 2)]. *)
Definition range (a b : Z) : list Z := seqZ a (b - a).

Definition range2 (a b : Z) : list Z :=
  (λ k, a + 2 * k) <$> seqZ 0 ((b - a + 1) `div` 2).

(** A [for] loop whose body may raise. *)
Fixpoint for_in {S A} (l : list A) (s : S) (body : S → A → option S)
  : option S :=
  match l with
  | [] => Some s
  | a :: l' => s' ← body s a; for_in l' s' body
  end.

End Py.

Import Py.

(** ** The terrain map *)

(** A crater record: the dict with keys 'x', 'y', 'radius',
    'creation_time'. *)
Record Crater := mkCrater {
  crater_x : Z;
  crater_y : Z;
  crater_radius : Z;
  creation_time : Z
}.

(** [terrain_pixels[x][y]]: a list of columns. *)
Abbreviation Grid := (list (list bool)).

Record TerrainMap := mkTerrainMap {
  width : Z;
  height : Z;
  ground_level : Z;
  height_map : list Z;
  terrain_pixels : Grid;
  craters : list Crater
}.

(** [terrain_pixels[x][y]] as an expression. *)
Definition pixel_at (g : Grid) (x y : Z) : option bool :=
  col ← getitem g x; getitem col y.

(** [terrain_pixels[x][y] = v]. *)
Definition set_pixel (g : Grid) (x y : Z) (v : bool) : option Grid :=
  col ← getitem g x; col' ← setitem col y v; setitem g x col'.

(** *** Construction *)

(** The third argument of [TerrainMap.__init__]: a single ground level or
    a list; [new_TerrainMap] is the constructor. *)
Inductive HeightArg :=
  | Level (g : Z)
  | Profile (l : list Z).

Definition sumZ (l : list Z) : Z := foldr Z.add 0 l.

Definition new_TerrainMap (w h : Z) (arg : HeightArg) : option TerrainMap :=
  '(hm, gl) ← match arg with
              | Profile l =>
                  if decide (l = []) then None
                  else Some (l, sumZ l `div` Z.of_nat (length l))
              | Level g => Some (replicate (Z.to_nat w) g, g)
              end;
  let blank : Grid := replicate (Z.to_nat w) (replicate (Z.to_nat h) false) in
  g ← for_in (range 0 w) blank (λ g x,
         gh ← (if x <? Z.of_nat (length hm) then getitem hm x else Some gl);
         for_in (range gh h) g (λ g y, set_pixel g x y true));
  Some {| width := w; height := h; ground_level := gl; height_map := hm;
          terrain_pixels := g; craters := [] |}.

(** *** Queries *)

Definition is_solid_at (tm : TerrainMap) (x y : Z) : option bool :=
  if (x <? 0) || (x >=? width tm) || (y <? 0) || (y >=? height tm)
  then Some false
  else pixel_at (terrain_pixels tm) x y.

(** The loop [for y in ys: if terrain_pixels[x][y]: ...; break]: the first
    [y] of [ys] whose pixel is solid, if any. *)
Fixpoint scan_solid (g : Grid) (x : Z) (ys : list Z) : option (option Z) :=
  match ys with
  | [] => Some None
  | y :: ys' =>
      b ← pixel_at g x y;
      if b : bool then Some (Some y) else scan_solid g x ys'
  end.

(** [x_int = max(0, min(self.width - 1, int(x)))]. *)
Definition clamp_column (tm : TerrainMap) (x : Z) : Z :=
  Z.max 0 (Z.min (width tm - 1) x).

Definition search_radius : Z := 3.

Definition get_ground_height (tm : TerrainMap) (x : Z) : option Z :=
  let x_int := clamp_column tm x in
  min_height ← getitem (height_map tm) x_int;
  for_in (range (- search_radius) (search_radius + 1)) min_height
    (λ min_height dx,
       let check_x := x_int + dx in
       if (0 <=? check_x) && (check_x <? width tm) then
         top ← scan_solid (terrain_pixels tm) check_x (range 0 (height tm));
         Some (match top with
               | Some y => Z.min min_height y
               | None => min_height
               end)
       else Some min_height).

(** [y_start] is [None] when the caller leaves it out. *)
Definition get_accurate_ground_height (tm : TerrainMap) (x : Z)
    (y_start : option Z) : option Z :=
  let x_int := clamp_column tm x in
  let y_start := default 0 y_start in
  top ← scan_solid (terrain_pixels tm) x_int (range y_start (height tm));
  Some (default (height tm) top).

Inductive Side := left_side | right_side.

(** [check_wall_collision]: the rows are sampled with step 2; the result
    [None] of Python is the inner [None]. *)
Fixpoint wall_scan (tm : TerrainMap) (x w : Z) (rows : list Z)
  : option (option Side) :=
  match rows with
  | [] => Some None
  | check_y :: rows' =>
      l ← is_solid_at tm (x - 1) check_y;
      if l : bool then Some (Some left_side)
      else
        r ← is_solid_at tm (x + w) check_y;
        if r : bool then Some (Some right_side)
        else wall_scan tm x w rows'
  end.

Definition check_wall_collision (tm : TerrainMap) (x y w h : Z)
  : option (option Side) :=
  wall_scan tm x w (range2 y (y + h)).

(** *** Mutation *)

(** [math.sqrt(dx**2 + dy**2) <= radius]. *)
Definition distance_le (dx dy radius : Z) : bool :=
  (0 <=? radius) && (dx * dx + dy * dy <=? radius * radius).

Definition carve_column (cx cy radius h : Z) (g : Grid) (x : Z)
  : option Grid :=
  for_in (range (Z.max 0 (cy - radius)) (Z.min h (cy + radius + 1))) g
    (λ g y, if distance_le (x - cx) (y - cy) radius
            then set_pixel g x y false else Some g).

Definition carve (cx cy radius w h : Z) (g : Grid) : option Grid :=
  for_in (range (Z.max 0 (cx - radius)) (Z.min w (cx + radius + 1))) g
    (carve_column cx cy radius h).

Definition _update_height_map (w h : Z) (g : Grid) (hm : list Z)
  : option (list Z) :=
  for_in (range 0 w) hm (λ hm x,
    top ← scan_solid g x (range 0 h);
    setitem hm x (default h top)).

(** [now] is the value of [time.time()] at the call. *)
Definition create_crater (tm : TerrainMap) (center_x center_y radius : Z)
    (now : Z) : option TerrainMap :=
  let crater_info := mkCrater center_x center_y radius now in
  let cs := craters tm ++ [crater_info] in
  g ← carve center_x center_y radius (width tm) (height tm)
        (terrain_pixels tm);
  hm ← _update_height_map (width tm) (height tm) g (height_map tm);
  Some {| width := width tm; height := height tm;
          ground_level := ground_level tm; height_map := hm;
          terrain_pixels := g; craters := cs |}.

(** [merge_overlapping_craters]: the float expressions on integer fields,
    read over the reals. *)

Definition dist2 (a b : Crater) : Z :=
  (crater_x a - crater_x b) * (crater_x a - crater_x b)
  + (crater_y a - crater_y b) * (crater_y a - crater_y b).

(** [distance < (current['radius'] + merged['radius']) * overlap_factor]
    with [overlap_factor = 0.8]. *)
Definition overlaps (current merged : Crater) : bool :=
  let s := crater_radius current + crater_radius merged in
  (0 <? s) && (25 * dist2 current merged <? 16 * (s * s)).

(** [int(distance + r)] for an integer [r]: truncation toward zero. *)
Definition int_distance_plus (d2 r : Z) : Z :=
  if 0 <=? Z.sqrt d2 + r then Z.sqrt d2 + r else Z.sqrt_up d2 + r.

(** The record stored at [merged[j]].  [int] of the weighted centre is
    the truncated quotient; [int] of a maximum is the maximum of the
    truncations. *)
Definition merge_records (current merged : Crater) : Crater :=
  let r1 := crater_radius current in
  let r2 := crater_radius merged in
  let d2 := dist2 current merged in
  let total_area := r1 * r1 + r2 * r2 in
  let new_x :=
    (crater_x current * (r1 * r1) + crater_x merged * (r2 * r2))
      `quot` total_area in
  let new_y :=
    (crater_y current * (r1 * r1) + crater_y merged * (r2 * r2))
      `quot` total_area in
  let int_max_extent :=
    Z.max (Z.max (int_distance_plus d2 r1) (int_distance_plus d2 r2))
          ((2 * r1 + r2) `quot` 2) in
  let new_radius := Z.min int_max_extent (Z.max r1 r2 + 20) in
  {| crater_x := new_x; crater_y := new_y; crater_radius := new_radius;
     creation_time := Z.max (creation_time current) (creation_time merged) |}.

(** [self.craters.sort(key=creation_time)]: a stable ascending sort. *)
Fixpoint insert_by_time (c : Crater) (l : list Crater) : list Crater :=
  match l with
  | [] => [c]
  | d :: l' =>
      if creation_time c <=? creation_time d then c :: l
      else d :: insert_by_time c l'
  end.

Definition sort_by_time (l : list Crater) : list Crater :=
  foldr insert_by_time [] l.

(** The inner loop over [enumerate(merged)]: the first entry that overlaps
    [current] is replaced and the loop breaks; [None] stands for
    [merged_with_any == False]. *)
Fixpoint merge_with_first (current : Crater) (merged : list Crater)
  : option (list Crater) :=
  match merged with
  | [] => None
  | m :: rest =>
      if overlaps current m then Some (merge_records current m :: rest)
      else cons m <$> merge_with_first current rest
  end.

Definition merge_step (merged : list Crater) (current : Crater)
  : list Crater :=
  match merge_with_first current merged with
  | Some merged' => merged'
  | None => merged ++ [current]
  end.

Definition max_craters : nat := 50.

(** The method on the crater list. *)
Definition merge_crater_list (cs : list Crater) : list Crater :=
  if (length cs <? 2)%nat then cs
  else
    let merged := foldl merge_step [] (sort_by_time cs) in
    if (max_craters <? length merged)%nat
    then drop (length merged - max_craters) merged
    else merged.

Definition merge_overlapping_craters (tm : TerrainMap) : TerrainMap :=
  {| width := width tm; height := height tm;
     ground_level := ground_level tm; height_map := height_map tm;
     terrain_pixels := terrain_pixels tm;
     craters := merge_crater_list (craters tm) |}.

(** *** Sequences of calls *)

(** The calls that change a terrain map, as the explosion handler makes
    them. *)

Inductive Op :=
  | CreateCrater (center_x center_y radius now : Z)
  | MergeCraters.

Definition step (tm : TerrainMap) (op : Op) : option TerrainMap :=
  match op with
  | CreateCrater cx cy r now => create_crater tm cx cy r now
  | MergeCraters => Some (merge_overlapping_craters tm)
  end.

Definition run (tm : TerrainMap) (ops : list Op) : option TerrainMap :=
  for_in ops tm step.

(** ** The terrain generator *)

(** Floats are read as the rationals they denote and float arithmetic as
    exact; [math.sin], [random] and the float power [**] are parameters
    about which nothing is assumed unless a statement says so. *)

Module TerrainGenerator.

Definition SCREEN_WIDTH : Z := 1280.
Definition SCREEN_HEIGHT : Z := 720.
Definition base_ground_level : Z := SCREEN_HEIGHT - 100.
Definition min_height : Z := SCREEN_HEIGHT - 220.
Definition max_height : Z := SCREEN_HEIGHT - 40.

(** [int(q)]: truncation toward zero. *)
Definition py_int (q : Q) : Z := Qnum q `quot` Zpos (Qden q).

(** [max(a, b)] and [min(a, b)] of Python: the first argument unless the
    second is strictly beyond it. *)
Definition py_max (a b : Q) : Q := if Qlt_le_dec a b then b else a.
Definition py_min (a b : Q) : Q := if Qlt_le_dec b a then b else a.

(** What one iteration of [add_sand_dunes] draws: [dune_center],
    [dune_width], the integer factor of [dune_height] and [steep_side]. *)
Record DuneDraw := mkDuneDraw {
  dune_center : Z;
  dune_width : Z;
  dune_factor : Z;
  steep_side : Z
}.

Section Oracles.
(** [math.sin]. *)
Variable sin : Q → Q.
(** The value [random.random()] returns in the iteration of column [x]. *)
Variable random : Z → Q.
(** [a ** b] on floats. *)
Variable pow : Q → Q → Q.
(** The draws of the [i]-th iteration of [add_sand_dunes]. *)
Variable draw : Z → DuneDraw.

(** The body of the loop of [generate_height_map].  The block that runs
    every 200 columns draws random numbers and stores nothing. *)
Definition column_height (complexity : Q) (x : Z) : Z :=
  let primary_frequency := (0.002 * complexity)%Q in
  let primary_amplitude := (80 * complexity)%Q in
  let secondary_frequency := (0.006 * complexity)%Q in
  let secondary_amplitude := (35 * complexity)%Q in
  let tertiary_frequency := (0.015 * complexity)%Q in
  let tertiary_amplitude := (15 * complexity)%Q in
  let ripple_frequency := (0.05 * complexity)%Q in
  let ripple_amplitude := (5 * complexity)%Q in
  let asymmetry_frequency := (0.004 * complexity)%Q in
  let xq := inject_Z x in
  let primary_height := (sin (xq * primary_frequency) * primary_amplitude)%Q in
  let secondary_height :=
    (sin (xq * secondary_frequency) * secondary_amplitude)%Q in
  let tertiary_height :=
    (sin (xq * tertiary_frequency) * tertiary_amplitude)%Q in
  let ripple_height := (sin (xq * ripple_frequency) * ripple_amplitude)%Q in
  let asymmetry_factor := sin (xq * asymmetry_frequency)%Q in
  let slope_modifier := (asymmetry_factor * 20 * complexity)%Q in
  let primary_height :=
    if Qlt_le_dec 0 asymmetry_factor
    then (primary_height + slope_modifier)%Q else primary_height in
  let secondary_height :=
    if Qlt_le_dec 0 asymmetry_factor
    then (secondary_height + slope_modifier * 0.5)%Q else secondary_height in
  let random_variation := ((random x - 0.5) * 12 * complexity)%Q in
  let total_height :=
    (inject_Z base_ground_level + primary_height + secondary_height
     + tertiary_height + ripple_height + random_variation)%Q in
  let total_height :=
    py_max (inject_Z min_height) (py_min (inject_Z max_height) total_height) in
  py_int total_height.

Definition generate_height_map (width : Z) (complexity : Q) : list Z :=
  column_height complexity <$> range 0 width.

(** The body of the loop over [x] in [add_sand_dunes]. *)
Definition dune_column (complexity : Q) (d : DuneDraw)
    (enhanced_map : list Z) (x : Z) : option (list Z) :=
  let dune_height := (inject_Z (dune_factor d) * complexity)%Q in
  let distance_from_center := Z.abs (x - dune_center d) in
  if distance_from_center <? dune_width d then
    let ratio :=
      (inject_Z distance_from_center / inject_Z (dune_width d))%Q in
    let influence :=
      if 0 <? (x - dune_center d) * steep_side d
      then (1 - pow ratio 1.5)%Q else (1 - pow ratio 0.7)%Q in
    if Qlt_le_dec 0 influence then
      let dune_addition := (influence * dune_height)%Q in
      old ← getitem enhanced_map x;
      setitem enhanced_map x (py_int (inject_Z old - dune_addition))
    else Some enhanced_map
  else Some enhanced_map.

(** [random.randint(100, width - 100)] raises [ValueError] on an empty
    range. *)
Definition add_sand_dunes (height_map : list Z) (complexity : Q)
  : option (list Z) :=
  let width := Z.of_nat (length height_map) in
  let num_dunes := py_int (3 + complexity * 2) in
  for_in (range 0 num_dunes) height_map (λ enhanced_map i,
    if width - 100 <? 100 then None
    else
      let d := draw i in
      for_in (range (Z.max 0 (dune_center d - dune_width d))
                    (Z.min width (dune_center d + dune_width d)))
        enhanced_map (dune_column complexity d)).

(** One iteration of [smooth_terrain]: reads [smoothed], writes the
    copy. *)
Definition smooth_pass (smoothed : list Z) : option (list Z) :=
  for_in (range 1 (Z.of_nat (length smoothed) - 1)) smoothed
    (λ new_smoothed i,
       a ← getitem smoothed (i - 1);
       b ← getitem smoothed i;
       c ← getitem smoothed (i + 1);
       setitem new_smoothed i
         (py_int (inject_Z a * 0.25 + inject_Z b * 0.5 + inject_Z c * 0.25))).

Definition smooth_terrain (height_map : list Z) (iterations : Z)
  : option (list Z) :=
  for_in (range 0 iterations) height_map (λ smoothed _, smooth_pass smoothed).

Definition generate_varied_terrain (width : Z) (complexity : Q)
  : option (list Z) :=
  let height_map := generate_height_map width complexity in
  dune_enhanced_map ← add_sand_dunes height_map complexity;
  smooth_terrain dune_enhanced_map 1.

End Oracles.

End TerrainGenerator.

Import TerrainGenerator.

(** ** The merge arithmetic in binary64 *)

(** The same expressions of [merge_overlapping_craters] on the doubles of
    the machine, to replay the evaluated inputs: [of_int] is the
    conversion of a Python int below 2^63, [to_int] is [int(...)], which
    raises on an infinity or a NaN. *)
Module Binary64.

Import PrimFloat.

Definition of_int (z : Z) : float :=
  match z with
  | Z0 => zero
  | Zpos _ => of_uint63 (Uint63.of_Z z)
  | Zneg p => opp (of_uint63 (Uint63.of_Z (Zpos p)))
  end.

Definition to_int (f : float) : option Z :=
  match FloatOps.Prim2SF f with
  | SpecFloat.S754_zero _ => Some 0
  | SpecFloat.S754_finite s m e =>
      let v := match e with
               | Z0 => Zpos m
               | Zpos _ => Zpos m * 2 ^ e
               | Zneg p => Zpos m `div` 2 ^ Zpos p
               end in
      Some (if s then - v else v)
  | _ => None
  end.

(** The double nearest to 0.8, Python's [overlap_factor]. *)
Definition overlap_factor : float := 0x1.999999999999ap-1%float.

Definition distance (current merged : Crater) : float :=
  sqrt (of_int (dist2 current merged)).

Definition overlaps (current merged : Crater) : bool :=
  ltb (distance current merged)
      (mul (of_int (crater_radius current + crater_radius merged))
           overlap_factor).

(** [max] keeps its first argument unless the next one is greater. *)
Definition fmax (a b : float) : float := if ltb a b then b else a.

Definition merge_records (current merged : Crater) : option Crater :=
  let r1 := crater_radius current in
  let r2 := crater_radius merged in
  let distance := distance current merged in
  let total_area := r1 * r1 + r2 * r2 in
  let weight1 := div (of_int (r1 * r1)) (of_int total_area) in
  let weight2 := div (of_int (r2 * r2)) (of_int total_area) in
  new_x ← to_int (add (mul (of_int (crater_x current)) weight1)
                      (mul (of_int (crater_x merged)) weight2));
  new_y ← to_int (add (mul (of_int (crater_y current)) weight1)
                      (mul (of_int (crater_y merged)) weight2));
  let max_extent :=
    fmax (fmax (add distance (of_int r1)) (add distance (of_int r2)))
         (add (of_int r1) (mul (of_int r2) 0.5%float)) in
  extent ← to_int max_extent;
  Some {| crater_x := new_x; crater_y := new_y;
          crater_radius := Z.min extent (Z.max r1 r2 + 20);
          creation_time :=
            Z.max (creation_time current) (creation_time merged) |}.

End Binary64.

(** ** Palm trees and [TerrainGenerator.place_features] *)

(** A tree dict: keys 'x', 'height', 'destroyed', and 'ground_y' once the
    tree is placed. *)
Record Tree := mkTree {
  tree_x : Z;
  tree_height : Z;
  tree_destroyed : bool;
  tree_ground_y : option Z
}.

(** The body of the loop of [place_features]: [None] inside is a tree
    whose [x] is outside the height map and that is left out. *)
Definition place_tree (height_map : list Z) (tree : Tree)
  : option (option Tree) :=
  let tree_x := tree_x tree in
  if (0 <=? tree_x) && (tree_x <? Z.of_nat (length height_map)) then
    ground_height ← getitem height_map tree_x;
    slope ←
      (if (0 <? tree_x) && (tree_x <? Z.of_nat (length height_map) - 1)
       then
         right ← getitem height_map (tree_x + 1);
         left ← getitem height_map (tree_x - 1);
         Some (Z.abs (right - left))
       else Some 0);
    let height_modifier := py_max 0.8 (1.0 - inject_Z slope * 0.002)%Q in
    let adjusted_height :=
      py_int (inject_Z (tree_height tree) * height_modifier) in
    Some (Some {| tree_x := tree_x;
                  tree_height := adjusted_height;
                  tree_destroyed := tree_destroyed tree;
                  tree_ground_y := Some ground_height |})
  else Some None.

Definition place_features (height_map : list Z) (palm_trees : list Tree)
  : option (list Tree) :=
  for_in palm_trees [] (λ updated_trees tree,
    placed ← place_tree height_map tree;
    Some (match placed with
          | Some updated_tree => updated_trees ++ [updated_tree]
          | None => updated_trees
          end)).

(** ** The terrain of a game *)

(** The class [Terrain]: the generated profile, its average, the palm
    trees and the terrain map built from the profile. *)
Module Terrain.

Record Terrain := mkTerrain {
  base_ground_level : Z;
  terrain_complexity : Q;
  height_map : list Z;
  ground_level : Z;
  palm_trees : list Tree;
  terrain_map : TerrainMap
}.

Definition initial_trees : list Tree :=
  [ mkTree 200 80 false None; mkTree 500 90 false None;
    mkTree 800 75 false None; mkTree 1000 85 false None ].

Section Oracles.
Variable sin : Q → Q.
Variable random : Z → Q.
Variable pow : Q → Q → Q.
Variable draw : Z → DuneDraw.

(** [Terrain.__init__]; the average of an empty profile raises
    [ZeroDivisionError]. *)
Definition new_Terrain (use_varied_terrain : bool) (complexity : Q)
  : option Terrain :=
  '(hm, gl) ←
    (if use_varied_terrain then
       hm ← generate_varied_terrain sin random pow draw SCREEN_WIDTH complexity;
       if decide (hm = []) then None
       else Some (hm, sumZ hm `div` Z.of_nat (length hm))
     else
       let gl := SCREEN_HEIGHT - 100 in
       Some (replicate (Z.to_nat SCREEN_WIDTH) gl, gl));
  trees ← place_features hm initial_trees;
  tm ← new_TerrainMap SCREEN_WIDTH SCREEN_HEIGHT (Profile hm);
  Some {| base_ground_level := SCREEN_HEIGHT - 100;
          terrain_complexity := complexity;
          height_map := hm; ground_level := gl;
          palm_trees := trees; terrain_map := tm |}.

End Oracles.

Definition get_ground_height (self : Terrain) (x : Z) : option Z :=
  get_ground_height (terrain_map self) x.

(** [distance <= radius] in [destroy_tree_at], for the distance between
    the explosion at ([x], [y]) and the middle of the trunk; the square
    root is read over the reals. *)
Definition tree_in_reach (ground_level : Z) (tree : Tree) (x y : Q)
    (radius : Z) : bool :=
  let dx := (inject_Z (tree_x tree) - x)%Q in
  let dy :=
    ((inject_Z ground_level - inject_Z (tree_height tree) / 2) - y)%Q in
  (0 <=? radius)
  && Qle_bool (dx * dx + dy * dy) (inject_Z radius * inject_Z radius).

(** The loop of [destroy_tree_at] over [palm_trees]: the list after the
    call and the value returned. *)
Fixpoint destroy_first (ground_level : Z) (trees : list Tree) (x y : Q)
    (radius : Z) : list Tree * bool :=
  match trees with
  | [] => ([], false)
  | tree :: rest =>
      if tree_destroyed tree then
        let '(rest', found) := destroy_first ground_level rest x y radius in
        (tree :: rest', found)
      else if tree_in_reach ground_level tree x y radius then
        ({| tree_x := tree_x tree; tree_height := tree_height tree;
            tree_destroyed := true; tree_ground_y := tree_ground_y tree |}
           :: rest, true)
      else
        let '(rest', found) := destroy_first ground_level rest x y radius in
        (tree :: rest', found)
  end.

Definition destroy_tree_at (self : Terrain) (x y : Q) (radius : Z)
  : Terrain * bool :=
  let '(trees, found) :=
    destroy_first (ground_level self) (palm_trees self) x y radius in
  ({| base_ground_level := base_ground_level self;
      terrain_complexity := terrain_complexity self;
      height_map := height_map self; ground_level := ground_level self;
      palm_trees := trees; terrain_map := terrain_map self |}, found).

End Terrain.

(** ** Explosions *)

Module Projectile.

(** The fields of a projectile that its explosion reads or writes. *)
Record Projectile := mkProjectile {
  x : Q;
  y : Q;
  explosion_radius : Z;
  active : bool
}.

(** [Projectile.explode(terrain, [], None, None)]: with no player in the
    list and no effects or audio manager, the statements that remain are
    the crater, the merge, the tree and the deactivation.  [now] is the
    clock read by [create_crater]. *)
Definition explode (self : Projectile) (terrain : Terrain.Terrain) (now : Z)
  : option (Projectile * Terrain.Terrain) :=
  tm ← create_crater (Terrain.terrain_map terrain)
         (py_int (x self)) (py_int (y self)) (explosion_radius self) now;
  let tm := merge_overlapping_craters tm in
  let terrain :=
    {| Terrain.base_ground_level := Terrain.base_ground_level terrain;
       Terrain.terrain_complexity := Terrain.terrain_complexity terrain;
       Terrain.height_map := Terrain.height_map terrain;
       Terrain.ground_level := Terrain.ground_level terrain;
       Terrain.palm_trees := Terrain.palm_trees terrain;
       Terrain.terrain_map := tm |} in
  let '(terrain, tree_destroyed) :=
    Terrain.destroy_tree_at terrain (x self) (y self) (explosion_radius self) in
  Some ({| x := x self; y := y self;
           explosion_radius := explosion_radius self; active := false |},
        terrain).

(** A volley: each projectile explodes on the terrain the previous ones
    left, at the given clock reading. *)
Definition volley (terrain : Terrain.Terrain) (shots : list (Projectile * Z))
  : option Terrain.Terrain :=
  for_in shots terrain (λ terrain shot,
    '(_, terrain) ← explode shot.1 terrain shot.2; Some terrain).

End Projectile.

(** ** Colours *)


(** ** Turns *)

Module GameManager.

Inductive GameState := PLAYING | PROJECTILE_FLYING | GAME_OVER.

(** The fields of a player that the turn logic reads. *)
Record Player := mkPlayer {
  player_id : Z;
  health : Z
}.

(** The fields of the game manager that [next_turn] reads or writes. *)
Record GameManager := mkGameManager {
  state : GameState;
  current_player : Z;
  players : list Player;
  turn_timer : Z
}.

(** The [while] loop of [next_turn]; [attempts_left] is
    [len(self.players) - attempts]. *)
Fixpoint skip_dead (players : list Player) (attempts_left : nat)
    (current_player : Z) : option Z :=
  player ← getitem players current_player;
  if health player <=? 0 then
    match attempts_left with
    | O => Some current_player
    | S attempts_left =>
        skip_dead players attempts_left
          ((current_player + 1) `mod` Z.of_nat (length players))
    end
  else Some current_player.

(** [%] by zero raises [ZeroDivisionError]. *)
Definition next_turn (self : GameManager) : option GameManager :=
  let n := Z.of_nat (length (players self)) in
  if n =? 0 then None
  else
    current ← skip_dead (players self) (length (players self))
                ((current_player self + 1) `mod` n);
    Some {| state := PLAYING; current_player := current;
            players := players self; turn_timer := 0 |}.

End GameManager.

(** ** Particles *)

Module Particle.

(** [particle_type]: the four kinds the code tells apart, and any other
    string. *)
Inductive ParticleType := fire | smoke | debris | trail | other.

Record Particle := mkParticle {
  x : Q;
  y : Q;
  velocity_x : Q;
  velocity_y : Q;
  particle_type : ParticleType;
  size : Z;
  lifetime : Z;
  max_lifetime : Z;
  active : bool;
  color : Z * Z * Z
}.

(** [COLORS['sand']]. *)
Definition sand : Z * Z * Z := (194, 154, 108).

Section Random.
(** [random.randint]. *)
Variable randint : Z → Z → Z.

Definition new_Particle (x y velocity_x velocity_y : Q)
    (particle_type : ParticleType) (color : option (Z * Z * Z))
    (size lifetime : Z) : Particle :=
  {| x := x; y := y; velocity_x := velocity_x; velocity_y := velocity_y;
     particle_type := particle_type; size := size; lifetime := lifetime;
     max_lifetime := lifetime; active := true;
     color :=
       match color with
       | None =>
           match particle_type with
           | fire => (255, randint 100 255, randint 0 50)
           | smoke => let gray := randint 80 150 in (gray, gray, gray)
           | debris => sand
           | trail => (255, 165, 0)
           | other => (255, 255, 255)
           end
       | Some color => color
       end |}.

End Random.

(** [Particle.update]: the particle after the call and the value
    returned. *)
Definition update (self : Particle) : Particle * bool :=
  if negb (active self) then (self, false)
  else
    let x := (x self + velocity_x self)%Q in
    let y := (y self + velocity_y self)%Q in
    let '(velocity_x, velocity_y) :=
      match particle_type self with
      | fire => ((velocity_x self * 0.98)%Q, (velocity_y self - 0.1)%Q)
      | smoke => ((velocity_x self * 0.95)%Q, (velocity_y self - 0.05)%Q)
      | debris => ((velocity_x self * 0.99)%Q, (velocity_y self + 0.3)%Q)
      | trail => ((velocity_x self * 0.9)%Q, (velocity_y self * 0.9)%Q)
      | other => (velocity_x self, velocity_y self)
      end in
    let lifetime := lifetime self - 1 in
    let moved (active : bool) :=
      {| x := x; y := y; velocity_x := velocity_x; velocity_y := velocity_y;
         particle_type := particle_type self; size := size self;
         lifetime := lifetime; max_lifetime := max_lifetime self;
         active := active; color := color self |} in
    if lifetime <=? 0 then (moved false, false) else (moved true, true).

End Particle.

Module ParticleSystem.

Record ParticleSystem := mkParticleSystem {
  particles : list Particle.Particle;
  max_particles : Z
}.

Definition new_ParticleSystem (max_particles : Z) : ParticleSystem :=
  {| particles := []; max_particles := max_particles |}.

Section Random.
Variable randint : Z → Z → Z.

Definition add_particle (self : ParticleSystem) (x y velocity_x velocity_y : Q)
    (particle_type : Particle.ParticleType) (color : option (Z * Z * Z))
    (size lifetime : Z) : ParticleSystem :=
  if Z.of_nat (length (particles self)) <? max_particles self then
    let particle :=
      Particle.new_Particle randint x y velocity_x velocity_y particle_type
        color size lifetime in
    {| particles := particles self ++ [particle];
       max_particles := max_particles self |}
  else self.

End Random.

(** [self.particles = [p for p in self.particles if p.update()]]. *)
Definition update (self : ParticleSystem) : ParticleSystem :=
  {| particles :=
       omap (λ p, let '(p, alive) := Particle.update p in
                  if alive then Some p else None) (particles self);
     max_particles := max_particles self |}.

Definition clear (self : ParticleSystem) : ParticleSystem :=
  {| particles := []; max_particles := max_particles self |}.

(** The calls that change a particle system. *)
Inductive Call :=
  | AddParticle (x y velocity_x velocity_y : Q)
      (particle_type : Particle.ParticleType) (color : option (Z * Z * Z))
      (size lifetime : Z)
  | Update
  | Clear.

Definition call (randint : Z → Z → Z) (self : ParticleSystem) (c : Call)
  : ParticleSystem :=
  match c with
  | AddParticle x y vx vy ty col size lifetime =>
      add_particle randint self x y vx vy ty col size lifetime
  | Update => update self
  | Clear => clear self
  end.

End ParticleSystem.

(** ** Game settings *)

(** [GameSettings] keeps two dicts of dicts.  [self.settings] is made by
    [self.default_settings.copy()], a copy of the outer dict only: the
    model has a heap of dict objects, and the outer dicts hold references
    to them. *)
Module GameSettings.

(** A value of a settings file after [json.load], or a value stored by a
    setter. *)
#[local] Unset Elimination Schemes.
Inductive Json :=
  | JNull
  | JBool (b : bool)
  | JNum (q : Q)
  | JStr (s : string)
  | JList (l : list Json)
  | JDict (items : list (string * Json)).
#[local] Set Elimination Schemes.

(** [target[key]] on the items of a dict object that no other name
    refers to. *)
Fixpoint assoc_get (key : string) (items : list (string * Json))
  : option Json :=
  match items with
  | [] => None
  | (k, v) :: items => if decide (k = key) then Some v else assoc_get key items
  end.

(** [if key in target: target[key] = f(target[key])]. *)
Fixpoint assoc_alter (key : string) (f : Json → Json)
    (items : list (string * Json)) : list (string * Json) :=
  match items with
  | [] => []
  | (k, v) :: items =>
      if decide (k = key) then (k, f v) :: items
      else (k, v) :: assoc_alter key f items
  end.

(** [target[key] = value]: a new key goes to the end. *)
Fixpoint assoc_set (key : string) (value : Json)
    (items : list (string * Json)) : list (string * Json) :=
  match items with
  | [] => [(key, value)]
  | (k, v) :: items =>
      if decide (k = key) then (k, value) :: items
      else (k, v) :: assoc_set key value items
  end.

(** What [_merge_settings] leaves in [target[key]] when [key] is in
    [target]: the merged dict when both values are dicts, the new value
    otherwise. *)
Fixpoint merge_value (old new : Json) {struct new} : Json :=
  match new, old with
  | JDict source, JDict target =>
      JDict (foldl (λ target '(key, value),
                      assoc_alter key (λ old, merge_value old value) target)
                   target source)
  | _, _ => new
  end.

(** A dict object on the heap, and what an outer dict holds under a key:
    a reference to a dict object, or a value of its own. *)
Abbreviation Dict := (gmap string Json).

Inductive Entry :=
  | Ref (l : nat)
  | Val (v : Json).

Record GameSettings := mkGameSettings {
  heap : gmap nat Dict;
  default_settings : gmap string Entry;
  settings : gmap string Entry
}.

(** [_merge_settings(target, source)] for a dict object of the heap. *)
Definition merge_dict (target : Dict) (source : list (string * Json)) : Dict :=
  foldl (λ (target : Dict) '(key, value),
           match target !! key with
           | Some old => <[key := merge_value old value]> target
           | None => target
           end)
        target source.

(** [_merge_settings(self.settings, source)]. *)
Definition _merge_settings (self : GameSettings)
    (source : list (string * Json)) : GameSettings :=
  foldl (λ self '(key, value),
           match settings self !! key with
           | None => self
           | Some (Ref l) =>
               match value with
               | JDict source =>
                   {| heap := alter (λ target, merge_dict target source) l
                                (heap self);
                      default_settings := default_settings self;
                      settings := settings self |}
               | _ =>
                   {| heap := heap self;
                      default_settings := default_settings self;
                      settings := <[key := Val value]> (settings self) |}
               end
           | Some (Val old) =>
               {| heap := heap self;
                  default_settings := default_settings self;
                  settings := <[key := Val (merge_value old value)]>
                                (settings self) |}
           end)
        self source.

(** The settings file as [load_settings] finds it: absent, not readable
    as JSON, or loaded. *)
Inductive File :=
  | NoFile
  | Unreadable
  | Loaded (loaded_settings : Json).

Definition audio : Dict :=
  {[ "master_volume" := JNum 0.7; "sfx_volume" := JNum 0.8;
     "audio_enabled" := JBool true ]}.

Definition visual_effects : Dict :=
  {[ "particle_intensity" := JNum 1.0; "explosion_intensity" := JNum 1.0;
     "trail_intensity" := JNum 1.0; "screen_shake" := JBool true ]}.

Definition terrain : Dict :=
  {[ "complexity" := JNum 1.0; "destructible_terrain" := JBool true;
     "varied_terrain" := JBool true ]}.

Definition gameplay : Dict :=
  {[ "turn_timer" := JNum 30; "wind_effects" := JBool false;
     "gravity_strength" := JNum 1.0 ]}.

(** [load_settings]: every exception, [source.items()] on a value that is
    not a dict included, is caught and makes [settings] a fresh copy of
    the defaults. *)
Definition load_settings (self : GameSettings) (file : File) : GameSettings :=
  match file with
  | NoFile => self
  | Loaded (JDict source) => _merge_settings self source
  | Loaded _ | Unreadable =>
      {| heap := heap self; default_settings := default_settings self;
         settings := default_settings self |}
  end.

Definition new_GameSettings (file : File) : GameSettings :=
  let heap : gmap nat Dict :=
    {[ 0%nat := audio; 1%nat := visual_effects; 2%nat := terrain;
       3%nat := gameplay ]} in
  let default_settings : gmap string Entry :=
    {[ "audio" := Ref 0; "visual_effects" := Ref 1; "terrain" := Ref 2;
       "gameplay" := Ref 3 ]} in
  load_settings
    {| heap := heap; default_settings := default_settings;
       settings := default_settings |}
    file.

(** [self.settings[section][key]]: subscripting a value that is not a
    dict raises [TypeError], a missing key [KeyError]. *)
Definition get (self : GameSettings) (section key : string) : option Json :=
  entry ← settings self !! section;
  match entry with
  | Ref l => target ← heap self !! l; target !! key
  | Val (JDict items) => assoc_get key items
  | Val _ => None
  end.

(** [self.settings[section][key] = value]. *)
Definition set (self : GameSettings) (section key : string) (value : Json)
  : option GameSettings :=
  entry ← settings self !! section;
  match entry with
  | Ref l =>
      target ← heap self !! l;
      Some {| heap := <[l := <[key := value]> target]> (heap self);
              default_settings := default_settings self;
              settings := settings self |}
  | Val (JDict items) =>
      Some {| heap := heap self;
              default_settings := default_settings self;
              settings := <[section := Val (JDict (assoc_set key value items))]>
                            (settings self) |}
  | Val _ => None
  end.

Definition get_audio_volume self := get self "audio" "master_volume".
Definition set_audio_volume self (volume : Q) :=
  set self "audio" "master_volume" (JNum (py_max 0.0 (py_min 1.0 volume))).
Definition get_sfx_volume self := get self "audio" "sfx_volume".
Definition set_sfx_volume self (volume : Q) :=
  set self "audio" "sfx_volume" (JNum (py_max 0.0 (py_min 1.0 volume))).
Definition is_audio_enabled self := get self "audio" "audio_enabled".
Definition set_audio_enabled self (enabled : bool) :=
  set self "audio" "audio_enabled" (JBool enabled).
Definition get_particle_intensity self :=
  get self "visual_effects" "particle_intensity".
Definition set_particle_intensity self (intensity : Q) :=
  set self "visual_effects" "particle_intensity"
    (JNum (py_max 0.5 (py_min 2.0 intensity))).
Definition get_explosion_intensity self :=
  get self "visual_effects" "explosion_intensity".
Definition set_explosion_intensity self (intensity : Q) :=
  set self "visual_effects" "explosion_intensity"
    (JNum (py_max 0.5 (py_min 2.0 intensity))).
Definition get_trail_intensity self :=
  get self "visual_effects" "trail_intensity".
Definition set_trail_intensity self (intensity : Q) :=
  set self "visual_effects" "trail_intensity"
    (JNum (py_max 0.5 (py_min 2.0 intensity))).
Definition is_screen_shake_enabled self :=
  get self "visual_effects" "screen_shake".
Definition set_screen_shake_enabled self (enabled : bool) :=
  set self "visual_effects" "screen_shake" (JBool enabled).
Definition get_terrain_complexity self := get self "terrain" "complexity".
Definition set_terrain_complexity self (complexity : Q) :=
  set self "terrain" "complexity" (JNum (py_max 0.5 (py_min 2.0 complexity))).
Definition is_destructible_terrain_enabled self :=
  get self "terrain" "destructible_terrain".
Definition set_destructible_terrain_enabled self (enabled : bool) :=
  set self "terrain" "destructible_terrain" (JBool enabled).
Definition is_varied_terrain_enabled self :=
  get self "terrain" "varied_terrain".
Definition set_varied_terrain_enabled self (enabled : bool) :=
  set self "terrain" "varied_terrain" (JBool enabled).
Definition get_turn_timer self := get self "gameplay" "turn_timer".
Definition set_turn_timer self (seconds : Q) :=
  set self "gameplay" "turn_timer" (JNum (py_max 0 seconds)).

Definition reset_to_defaults (self : GameSettings) : GameSettings :=
  {| heap := heap self; default_settings := default_settings self;
     settings := default_settings self |}.

(** The calls that change the settings. *)
Inductive Call :=
  | SetAudioVolume (volume : Q)
  | SetSfxVolume (volume : Q)
  | SetAudioEnabled (enabled : bool)
  | SetParticleIntensity (intensity : Q)
  | SetExplosionIntensity (intensity : Q)
  | SetTrailIntensity (intensity : Q)
  | SetScreenShakeEnabled (enabled : bool)
  | SetTerrainComplexity (complexity : Q)
  | SetDestructibleTerrainEnabled (enabled : bool)
  | SetVariedTerrainEnabled (enabled : bool)
  | SetTurnTimer (seconds : Q)
  | ResetToDefaults.

Definition call (self : GameSettings) (c : Call) : option GameSettings :=
  match c with
  | SetAudioVolume v => set_audio_volume self v
  | SetSfxVolume v => set_sfx_volume self v
  | SetAudioEnabled b => set_audio_enabled self b
  | SetParticleIntensity v => set_particle_intensity self v
  | SetExplosionIntensity v => set_explosion_intensity self v
  | SetTrailIntensity v => set_trail_intensity self v
  | SetScreenShakeEnabled b => set_screen_shake_enabled self b
  | SetTerrainComplexity v => set_terrain_complexity self v
  | SetDestructibleTerrainEnabled b => set_destructible_terrain_enabled self b
  | SetVariedTerrainEnabled b => set_varied_terrain_enabled self b
  | SetTurnTimer v => set_turn_timer self v
  | ResetToDefaults => Some (reset_to_defaults self)
  end.

End GameSettings.

(** * Part II. The vocabulary of the statements *)

(** ** Well-formed states and the pure view of the grid *)

(** The shape the constructor builds: [width] columns of [height] cells
    and one height per column. *)
Definition grid_dims (g : Grid) (w h : Z) : bool :=
  (Z.of_nat (length g) =? w)
  && forallb (λ col : list bool, Z.of_nat (length col) =? h) g.

Definition wf (tm : TerrainMap) : bool :=
  grid_dims (terrain_pixels tm) (width tm) (height tm)
  && (Z.of_nat (length (height_map tm)) =? width tm).

(** The cell at non-negative coordinates, [false] outside the lists. *)
Definition px (g : Grid) (x y : Z) : bool :=
  match g !! Z.to_nat x with
  | Some col => default false (col !! Z.to_nat y)
  | None => false
  end.

Fixpoint first_solid (g : Grid) (x : Z) (ys : list Z) : option Z :=
  match ys with
  | [] => None
  | y :: ys' => if px g x y then Some y else first_solid g x ys'
  end.

(** The topmost solid row of column [x], or [h]. *)
Definition top_row (g : Grid) (x h : Z) : Z :=
  default h (first_solid g x (range 0 h)).

(** The height profile agrees with the grid, column by column. *)
Definition consistent (tm : TerrainMap) : bool :=
  forallb
    (λ x, bool_decide (height_map tm !! Z.to_nat x
                       = Some (top_row (terrain_pixels tm) x (height tm))))
    (range 0 (width tm)).

(** The cells [create_crater] clears. *)
Definition in_range (lo hi v : Z) : bool := (lo <=? v) && (v <? hi).

Definition cleared (cx cy radius w h x y : Z) : bool :=
  in_range (Z.max 0 (cx - radius)) (Z.min w (cx + radius + 1)) x
  && in_range (Z.max 0 (cy - radius)) (Z.min h (cy + radius + 1)) y
  && distance_le (x - cx) (y - cy) radius.

(** The bounds test of [is_solid_at], then the cell. *)
Definition solid (tm : TerrainMap) (x y : Z) : bool :=
  in_range 0 (width tm) x && in_range 0 (height tm) y
  && px (terrain_pixels tm) x y.

(** The profile the constructor stores. *)
Definition profile_of (w : Z) (arg : HeightArg) : list Z :=
  match arg with
  | Level g => replicate (Z.to_nat w) g
  | Profile l => l
  end.

(** One iteration of the loop over [dx] in [get_ground_height]. *)
Definition window_step (tm : TerrainMap) (x_int min_height dx : Z) : Z :=
  let check_x := x_int + dx in
  if (0 <=? check_x) && (check_x <? width tm) then
    match first_solid (terrain_pixels tm) check_x (range 0 (height tm)) with
    | Some y => Z.min min_height y
    | None => min_height
    end
  else min_height.

Fixpoint wall_scan_pure (tm : TerrainMap) (x w : Z) (rows : list Z)
  : option Side :=
  match rows with
  | [] => None
  | r :: rows' =>
      if solid tm (x - 1) r then Some left_side
      else if solid tm (x + w) r then Some right_side
      else wall_scan_pure tm x w rows'
  end.

(** Both edges of the rectangle are clear in row [r]. *)
Definition row_clear (tm : TerrainMap) (x w r : Z) : Prop :=
  solid tm (x - 1) r = false ∧ solid tm (x + w) r = false.

(** Neither edge of the rectangle is solid in row [row]. *)
Definition edges_clear (tm : TerrainMap) (x w row : Z) : Prop :=
  is_solid_at tm (x - 1) row = Some false
  ∧ is_solid_at tm (x + w) row = Some false.

(** [v] is the smallest solid row of column [x], or the grid height when
    the column has no solid cell. *)
Definition topmost_solid (tm : TerrainMap) (x v : Z) : Prop :=
  (v = height tm ∧ ∀ y, 0 ≤ y < height tm → is_solid_at tm x y = Some false)
  ∨ (0 ≤ v < height tm ∧ is_solid_at tm x v = Some true
     ∧ ∀ y, 0 ≤ y < v → is_solid_at tm x y = Some false).

(** The number of [create_crater] calls since the last merge, on top of
    [n] pending ones. *)
Definition pending (n : nat) (ops : list Op) : nat :=
  foldl (λ n op, match op with
                 | CreateCrater _ _ _ _ => S n
                 | MergeCraters => 0%nat
                 end) n ops.

(** The weighted average of one smoothing step. *)
Definition smoothed_value (a b c : Z) : Z :=
  py_int (inject_Z a * 0.25 + inject_Z b * 0.5 + inject_Z c * 0.25).

(** ** Distances over the reals *)

(** The Euclidean distance between two pixels, and between the centres of
    two crater records. *)
Definition euclid (x y cx cy : Z) : R :=
  sqrt (IZR ((x - cx) * (x - cx) + (y - cy) * (y - cy))).

Definition center_distance (a b : Crater) : R := sqrt (IZR (dist2 a b)).

(** ** Example states *)

Definition empty_map : TerrainMap := mkTerrainMap 0 0 0 [] [] [].

(** [TerrainMap(12, 12, 6)]: a flat ground at row 6. *)
Definition flat12 : TerrainMap :=
  Eval vm_compute in default empty_map (new_TerrainMap 12 12 (Level 6)).

(** [TerrainMap(10, 10, [8, 8, 3, 8, ...])]: a spike in column 2. *)
Definition spike10 : TerrainMap :=
  Eval vm_compute in
    default empty_map
      (new_TerrainMap 10 10 (Profile [8; 8; 3; 8; 8; 8; 8; 8; 8; 8])).

(** The scenario of the specification: craters [(400, 510, 50)] and
    [(430, 515, 40)]. *)
Definition two_craters : TerrainMap :=
  {| width := 1280; height := 720; ground_level := 500; height_map := [];
     terrain_pixels := [];
     craters := [mkCrater 400 510 50 1; mkCrater 430 515 40 2] |}.

(** Two craters far from each other, from the repository's tests. *)
Definition far_craters : TerrainMap :=
  {| width := 1280; height := 720; ground_level := 500; height_map := [];
     terrain_pixels := [];
     craters := [mkCrater 200 520 30 1; mkCrater 400 530 35 2] |}.

(** [TerrainMap(64, 48, 20)] and three impacts of radius 10 at [(10, 20)],
    [(40, 23)] and [(24, 21)], each followed by the merge as the explosion
    handler does. *)
Definition field64 : TerrainMap :=
  Eval vm_compute in default empty_map (new_TerrainMap 64 48 (Level 20)).

Definition chain_calls : list Op :=
  [CreateCrater 10 20 10 1; MergeCraters;
   CreateCrater 40 23 10 2; MergeCraters;
   CreateCrater 24 21 10 3; MergeCraters].

(** [TerrainMap(6, 6, [3, 3, 3])]: the constructor takes a profile of
    fewer entries than columns and fills the other columns from the
    average. *)
Definition short_profile6 : TerrainMap :=
  Eval vm_compute in
    default empty_map (new_TerrainMap 6 6 (Profile [3; 3; 3])).

(** Oracles for the examples: a flat sine, the mid value of [random], a
    linear power, and the same dune at every draw: centre 640, width 80,
    height factor 60, steep to the right. *)
Definition flat_sin : Q → Q := λ _, 0%Q.
Definition mid_random : Z → Q := λ _, 0.5%Q.
Definition linear_pow : Q → Q → Q := λ q _, q.
Definition same_dune : Z → DuneDraw := λ _, mkDuneDraw 640 80 60 1.

(** ** Crater lists without overlap, and lists in time order *)

(** No two records of the list satisfy the overlap test. *)
Fixpoint pairwise_apart (cs : list Crater) : bool :=
  match cs with
  | [] => true
  | c :: rest =>
      forallb (λ d, negb (overlaps c d)) rest && pairwise_apart rest
  end.

(** The creation times do not decrease along the list. *)
Fixpoint time_sorted (cs : list Crater) : bool :=
  match cs with
  | c :: (d :: _) as rest =>
      (creation_time c <=? creation_time d) && time_sorted rest
  | _ => true
  end.

(** The truncation [self.craters[-50:]] of an over-long list. *)
Definition last_craters (cs : list Crater) : list Crater :=
  if (max_craters <? length cs)%nat
  then drop (length cs - max_craters) cs else cs.

(** ** Vocabulary for the generator *)

(** Every three consecutive entries are in arithmetic progression: a
    profile of constant slope. *)
Fixpoint is_ramp (l : list Z) : bool :=
  match l with
  | [] => true
  | a :: l1 =>
      match l1 with
      | b :: c :: _ => (a + c =? 2 * b) && is_ramp l1
      | _ => true
      end
  end.

(** Column [k] lies outside the span of the dune [d]. *)
Definition outside_dune (d : DuneDraw) (k : Z) : Prop :=
  k < dune_center d - dune_width d ∨ dune_center d + dune_width d ≤ k.

(** ** Palm trees and explosions *)

(** The number of palm trees destroyed. *)
Definition destroyed_trees (trees : list Tree) : nat :=
  length (filter (λ tree, tree_destroyed tree = true) trees).

(** Two tree lists that differ in the [destroyed] flags at most, where no
    flag was reset. *)
Definition same_trees (before after : list Tree) : Prop :=
  Forall2 (λ t t', tree_x t' = tree_x t ∧ tree_height t' = tree_height t
                   ∧ tree_ground_y t' = tree_ground_y t
                   ∧ (tree_destroyed t = true → tree_destroyed t' = true))
          before after.

(** A tree [place_features] keeps: its column lies on the profile. *)
Definition on_profile (height_map : list Z) (tree : Tree) : bool :=
  (0 <=? tree_x tree) && (tree_x tree <? Z.of_nat (length height_map)).

(** The profile around column [x] is level: [x] is at an edge, or its two
    neighbours are equally high. *)
Definition level_at (height_map : list Z) (x : Z) : Prop :=
  x ≤ 0 ∨ Z.of_nat (length height_map) - 1 ≤ x
  ∨ height_map !! Z.to_nat (x + 1) = height_map !! Z.to_nat (x - 1).

(** What [place_features] makes of a tree it keeps. *)
Definition placed (height_map : list Z) (tree tree' : Tree) : Prop :=
  tree_x tree' = tree_x tree
  ∧ tree_destroyed tree' = tree_destroyed tree
  ∧ tree_ground_y tree' = height_map !! Z.to_nat (tree_x tree)
  ∧ (0 ≤ tree_height tree →
     tree_height tree' ≤ tree_height tree
     ∧ 4 * tree_height tree - 4 ≤ 5 * tree_height tree')
  ∧ (level_at height_map (tree_x tree) → tree_height tree' = tree_height tree).

(** A small terrain for the examples: the field of 64 by 48 cells with its
    ground at row 20 and two palm trees of height 8, and two shots that
    land near the first tree. *)
Definition grove64 : Terrain.Terrain :=
  Terrain.mkTerrain 20 1 (replicate 64 20) 20
    [mkTree 10 8 false (Some 20); mkTree 40 8 false (Some 20)] field64.

Definition two_shots : list (Projectile.Projectile * Z) :=
  [(Projectile.mkProjectile 10.5 18.25 5 true, 1);
   (Projectile.mkProjectile 12 17.5 5 true, 2)].

(** ** Particles and turns *)

(** The lifetimes of the particles of a list, in its order. *)
Definition lifetimes (ps : list Particle.Particle) : list Z :=
  Particle.lifetime <$> ps.

(** The particles that are live: active, with some lifetime left. *)
Definition live (p : Particle.Particle) : bool :=
  Particle.active p && (0 <? Particle.lifetime p).

(** Three players, the second one dead, during the first one's shot. *)
Definition three_players : GameManager.GameManager :=
  GameManager.mkGameManager GameManager.PROJECTILE_FLYING 0
    [GameManager.mkPlayer 0 80; GameManager.mkPlayer 1 0;
     GameManager.mkPlayer 2 35] 7.

(** A system of three fire particles with lifetimes 5, 1 and 3. *)
Definition sparks : ParticleSystem.ParticleSystem :=
  {| ParticleSystem.particles :=
       [ Particle.mkParticle 10 20 1 (-2) Particle.fire 2 5 5 true (255, 120, 0);
         Particle.mkParticle 11 20 0 (-1) Particle.smoke 2 1 4 true (90, 90, 90);
         Particle.mkParticle 12 21 (-1) 0 Particle.debris 1 3 3 true Particle.sand ];
     ParticleSystem.max_particles := 100 |}.

(** ** Game settings: shared sections and ranges *)

(** The four sections of the settings. *)
Definition section_names : list string :=
  ["audio"; "visual_effects"; "terrain"; "gameplay"].

(** The dict object a section of [settings] refers to. *)
Definition section_ref (gs : GameSettings.GameSettings) (section : string)
  : option nat :=
  match GameSettings.settings gs !! section with
  | Some (GameSettings.Ref l) => Some l
  | _ => None
  end.

(** The state of the settings while every section of [settings] is the
    dict object of the same section of [default_settings], the four
    objects being distinct and on the heap. *)
Definition ready (gs : GameSettings.GameSettings) : bool :=
  forallb
    (λ section,
       match section_ref gs section,
             GameSettings.default_settings gs !! section with
       | Some l, Some (GameSettings.Ref l') =>
           (l =? l')%nat
           && match GameSettings.heap gs !! l with
              | Some _ => true
              | None => false
              end
       | _, _ => false
       end)
    section_names
  && bool_decide (NoDup (omap (section_ref gs) section_names)).

(** The numeric settings and the ranges their setters clamp to; the turn
    timer has a lower bound only. *)
Definition bounds : list (string * string * Q * option Q) :=
  [ ("audio", "master_volume", 0.0, Some 1.0);
    ("audio", "sfx_volume", 0.0, Some 1.0);
    ("visual_effects", "particle_intensity", 0.5, Some 2.0);
    ("visual_effects", "explosion_intensity", 0.5, Some 2.0);
    ("visual_effects", "trail_intensity", 0.5, Some 2.0);
    ("terrain", "complexity", 0.5, Some 2.0);
    ("gameplay", "turn_timer", 0, None) ]%Q.

Definition within (lo : Q) (hi : option Q) (value : GameSettings.Json) : bool :=
  match value with
  | GameSettings.JNum q =>
      Qle_bool lo q
      && match hi with Some hi => Qle_bool q hi | None => true end
  | _ => false
  end.

(** Every numeric setting is a number in its range. *)
Definition in_bounds (gs : GameSettings.GameSettings) : bool :=
  forallb (λ '(section, key, lo, hi),
             match GameSettings.get gs section key with
             | Some value => within lo hi value
             | None => false
             end)
          bounds.

(** A session: a few setters, a reset, another setter. *)
Definition session : list GameSettings.Call :=
  [ GameSettings.SetAudioVolume 1.5; GameSettings.SetTurnTimer (-5);
    GameSettings.SetScreenShakeEnabled false; GameSettings.ResetToDefaults;
    GameSettings.SetTerrainComplexity 0.2 ].

(** Two dicts with the same keys. *)
Definition same_keys {A B} (m : gmap string A) (m' : gmap string B) : Prop :=
  ∀ key, is_Some (m !! key) ↔ is_Some (m' !! key).

(** A loaded file in which every section that the settings know is an
    object. *)
Definition object_sections (source : list (string * GameSettings.Json))
  : Prop :=
  Forall (λ '(key, value),
            key ∈ section_names → ∃ items, value = GameSettings.JDict items)
         source.

(** * Part III. Lemmas and theorems *)

(** ** Lemmas on lists and loops *)

Section ListLemmas.
Context {A : Type}.
Implicit Types (l : list A) (i : Z).

Lemma norm_index_in l i :
  0 ≤ i < Z.of_nat (length l) → norm_index l i = Some (Z.to_nat i).
Proof.
  intros Hi. unfold norm_index.
  destruct (Z.leb_spec 0 i), (Z.ltb_spec i (Z.of_nat (length l)));
    simpl; try lia; reflexivity.
Qed.

Lemma getitem_in l i :
  0 ≤ i < Z.of_nat (length l) → getitem l i = l !! Z.to_nat i.
Proof. intros Hi. unfold getitem. by rewrite norm_index_in. Qed.

Lemma getitem_in_Some l i :
  0 ≤ i < Z.of_nat (length l) → ∃ v, getitem l i = Some v ∧ l !! Z.to_nat i = Some v.
Proof.
  intros Hi. rewrite getitem_in by done.
  destruct (lookup_lt_is_Some_2 l (Z.to_nat i)) as [v Hv]; [lia | eauto].
Qed.

Lemma setitem_in l i v :
  0 ≤ i < Z.of_nat (length l) →
  setitem l i v = Some (<[Z.to_nat i := v]> l).
Proof. intros Hi. unfold setitem. by rewrite norm_index_in. Qed.

Lemma norm_index_below l i :
  i < - Z.of_nat (length l) → norm_index l i = None.
Proof.
  intros Hi. unfold norm_index.
  destruct (Z.leb_spec 0 i), (Z.ltb_spec i (Z.of_nat (length l))),
    (Z.leb_spec (- Z.of_nat (length l)) i), (Z.ltb_spec i 0);
    simpl; try lia; reflexivity.
Qed.

Lemma norm_index_wrap l i :
  - Z.of_nat (length l) ≤ i < Z.of_nat (length l) →
  ∃ k, norm_index l i = Some k ∧ (k < length l)%nat.
Proof.
  intros Hi. unfold norm_index.
  destruct (Z.leb_spec 0 i), (Z.ltb_spec i (Z.of_nat (length l))),
    (Z.leb_spec (- Z.of_nat (length l)) i), (Z.ltb_spec i 0);
    simpl; try lia; eexists; (split; [reflexivity | lia]).
Qed.
End ListLemmas.

Lemma elem_of_range a b v : v ∈ range a b ↔ a ≤ v < b.
Proof. unfold range. rewrite elem_of_seqZ. lia. Qed.

Lemma in_range_spec lo hi v : in_range lo hi v = true ↔ lo ≤ v < hi.
Proof. unfold in_range. rewrite andb_true_iff, Z.leb_le, Z.ltb_lt. done. Qed.

Lemma in_range_decide lo hi v :
  bool_decide (v ∈ range lo hi) = in_range lo hi v.
Proof.
  apply eq_true_iff_eq. rewrite bool_decide_eq_true, elem_of_range.
  symmetry. apply in_range_spec.
Qed.

(** Loop invariants: [I pre s] holds of the state [s] reached after the
    iterations over the prefix [pre]. *)
Lemma for_in_invariant_gen {S A} (I : list A → S → Prop)
    (body : S → A → option S) (l0 l : list A) :
  (∀ pre a s, a ∈ l0 → I pre s → ∃ s', body s a = Some s' ∧ I (pre ++ [a]) s') →
  l ⊆ l0 →
  ∀ pre s, I pre s → ∃ s', for_in l s body = Some s' ∧ I (pre ++ l) s'.
Proof.
  intros Hstep. induction l as [|a l IH]; intros Hsub pre s HI.
  - exists s. rewrite app_nil_r. auto.
  - destruct (Hstep pre a s) as (s1 & Hb & HI1); [set_solver | done |].
    destruct (IH ltac:(set_solver) (pre ++ [a]) s1 HI1) as (s' & Hf & HI').
    exists s'. simpl. rewrite Hb. simpl. rewrite <- app_assoc in HI'. auto.
Qed.

Lemma for_in_invariant {S A} (I : list A → S → Prop)
    (body : S → A → option S) (l : list A) (s : S) :
  I [] s →
  (∀ pre a s, a ∈ l → I pre s → ∃ s', body s a = Some s' ∧ I (pre ++ [a]) s') →
  ∃ s', for_in l s body = Some s' ∧ I l s'.
Proof.
  intros H0 Hstep.
  apply (for_in_invariant_gen I body l l Hstep (reflexivity l) [] s H0).
Qed.

(** ** Lemmas on the grid *)

Lemma grid_dims_spec g w h :
  grid_dims g w h = true ↔
  Z.of_nat (length g) = w ∧
  ∀ k col, g !! k = Some col → Z.of_nat (length col) = h.
Proof.
  unfold grid_dims. rewrite andb_true_iff, Z.eqb_eq, forallb_forall.
  split; intros [Hw Hc]; split; try done.
  - intros k col Hk. apply Z.eqb_eq, Hc.
    apply list_elem_of_In, list_elem_of_lookup. eauto.
  - intros col [k Hk]%list_elem_of_In%list_elem_of_lookup.
    apply Z.eqb_eq. eauto.
Qed.

Lemma grid_column g w h x :
  grid_dims g w h = true → 0 ≤ x < w →
  ∃ col, g !! Z.to_nat x = Some col ∧ Z.of_nat (length col) = h.
Proof.
  intros [Hw Hc]%grid_dims_spec Hx.
  destruct (lookup_lt_is_Some_2 g (Z.to_nat x)) as [col Hcol]; [lia |].
  eauto.
Qed.

Lemma pixel_at_in g w h x y :
  grid_dims g w h = true → 0 ≤ x < w → 0 ≤ y < h →
  pixel_at g x y = Some (px g x y).
Proof.
  intros Hd Hx Hy. pose proof Hd as [Hw _]%grid_dims_spec.
  destruct (grid_column g w h x Hd Hx) as (col & Hcol & Hlen).
  unfold pixel_at, px. rewrite getitem_in by lia. rewrite Hcol. simpl.
  rewrite getitem_in by lia.
  destruct (lookup_lt_is_Some_2 col (Z.to_nat y)) as [b Hb]; [lia |].
  by rewrite Hb.
Qed.

Lemma set_pixel_in g w h x y v :
  grid_dims g w h = true → 0 ≤ x < w → 0 ≤ y < h →
  ∃ g', set_pixel g x y v = Some g' ∧ grid_dims g' w h = true ∧
        ∀ x' y', 0 ≤ x' → 0 ≤ y' →
          px g' x' y' = if (x' =? x) && (y' =? y) then v else px g x' y'.
Proof.
  intros Hd Hx Hy. pose proof Hd as [Hw Hc]%grid_dims_spec.
  destruct (grid_column g w h x Hd Hx) as (col & Hcol & Hlen).
  exists (<[Z.to_nat x := <[Z.to_nat y := v]> col]> g). split; [|split].
  - unfold set_pixel. rewrite getitem_in by lia. rewrite Hcol. simpl.
    rewrite setitem_in by lia. simpl. by rewrite setitem_in by lia.
  - apply grid_dims_spec. rewrite length_insert. split; [done |].
    intros k c Hk.
    destruct (decide (k = Z.to_nat x)) as [->|Hne].
    + rewrite list_lookup_insert_eq in Hk by lia.
      injection Hk as <-. by rewrite length_insert.
    + rewrite list_lookup_insert_ne in Hk by done. eauto.
  - intros x' y' Hx' Hy'. unfold px.
    destruct (Z.eqb_spec x' x) as [->|Hne]; simpl.
    + rewrite list_lookup_insert_eq by lia. rewrite Hcol.
      destruct (Z.eqb_spec y' y) as [->|Hney].
      * by rewrite list_lookup_insert_eq by lia.
      * by rewrite list_lookup_insert_ne by lia.
    + by rewrite list_lookup_insert_ne by lia.
Qed.

Lemma scan_solid_in g w h x ys :
  grid_dims g w h = true → 0 ≤ x < w → (∀ y, y ∈ ys → 0 ≤ y < h) →
  scan_solid g x ys = Some (first_solid g x ys).
Proof.
  intros Hd Hx. induction ys as [|y ys IH]; intros Hys; [done |].
  simpl. rewrite (pixel_at_in g w h) by (try done; apply Hys; left).
  simpl. destruct (px g x y); [done |].
  apply IH. intros y' Hy'. apply Hys. by right.
Qed.

(** [first_solid] finds the least solid element of an ascending range. *)
Lemma first_solid_None g x ys :
  first_solid g x ys = None ↔ ∀ y, y ∈ ys → px g x y = false.
Proof.
  induction ys as [|y ys IH]; simpl.
  - split; [intros _ y Hy; inversion Hy | done].
  - destruct (px g x y) eqn:E.
    + split; [done |]. intros H. rewrite H in E; [done | left].
    + rewrite IH. split.
      * intros H y' [->|Hy']%elem_of_cons; auto.
      * intros H y' Hy'. apply H. by right.
Qed.

Lemma first_solid_range_Some g x a b v :
  first_solid g x (range a b) = Some v ↔
  a ≤ v < b ∧ px g x v = true ∧ ∀ y, a ≤ y < v → px g x y = false.
Proof.
  unfold range.
  remember (Z.to_nat (b - a)) as n eqn:Hn.
  revert a b Hn. induction n as [|n IH]; intros a b Hn.
  - replace (seqZ a (b - a)) with (@nil Z)
      by (unfold seqZ; rewrite <- Hn; done).
    simpl. split; [done | lia].
  - replace (seqZ a (b - a)) with (a :: seqZ (a + 1) (b - (a + 1))).
    2:{ rewrite (seqZ_cons a (b - a)) by lia. f_equal. f_equal; lia. }
    simpl. destruct (px g x a) eqn:E.
    + split.
      * intros [= <-]. split; [lia |]. split; [done | lia].
      * intros (Hv & Hp & Hlt). f_equal.
        destruct (decide (a = v)) as [|Hne]; [done |].
        rewrite Hlt in E by lia. done.
    + rewrite (IH (a + 1) b) by lia. split.
      * intros (Hv & Hp & Hlt). split; [lia |]. split; [done |].
        intros y Hy. destruct (decide (y = a)) as [->|]; [done |].
        apply Hlt. lia.
      * intros (Hv & Hp & Hlt). split.
        { destruct (decide (v = a)) as [->|]; [congruence | lia]. }
        split; [done |]. intros y Hy. apply Hlt. lia.
Qed.

Lemma first_solid_range_None g x a b :
  first_solid g x (range a b) = None ↔ ∀ y, a ≤ y < b → px g x y = false.
Proof.
  rewrite first_solid_None. split; intros H y Hy; apply H;
    by apply elem_of_range.
Qed.

(** [top_row] is the smallest solid row of the column, or [h]. *)
Lemma top_row_spec g x h :
  let v := top_row g x h in
  (v = h ∧ ∀ y, 0 ≤ y < h → px g x y = false)
  ∨ (0 ≤ v < h ∧ px g x v = true ∧ ∀ y, 0 ≤ y < v → px g x y = false).
Proof.
  unfold top_row. destruct (first_solid g x (range 0 h)) as [v|] eqn:E; simpl.
  - right. by apply first_solid_range_Some.
  - left. split; [done |]. by apply first_solid_range_None.
Qed.

(** ** What the crater loops compute *)

Lemma carve_column_spec cx cy r w h g x :
  grid_dims g w h = true → 0 ≤ x < w →
  ∃ g', carve_column cx cy r h g x = Some g' ∧ grid_dims g' w h = true ∧
    ∀ x' y', 0 ≤ x' → 0 ≤ y' →
      px g' x' y' =
      px g x' y'
      && negb ((x' =? x)
               && in_range (Z.max 0 (cy - r)) (Z.min h (cy + r + 1)) y'
               && distance_le (x' - cx) (y' - cy) r).
Proof.
  intros Hd Hx. unfold carve_column.
  set (ys := range _ _).
  destruct (for_in_invariant
    (λ pre g', grid_dims g' w h = true ∧
       ∀ x' y', 0 ≤ x' → 0 ≤ y' →
         px g' x' y' =
         px g x' y'
         && negb ((x' =? x) && bool_decide (y' ∈ pre)
                  && distance_le (x' - cx) (y' - cy) r))
    (λ g y, if distance_le (x - cx) (y - cy) r
            then set_pixel g x y false else Some g) ys g)
    as (g' & Hg' & Hd' & Hpx).
  - split; [done |]. intros x' y' _ _.
    rewrite bool_decide_eq_false_2 by (intros H; inversion H).
    by rewrite andb_false_r, andb_true_r.
  - intros pre y g1 Hy [Hd1 Hpx1].
    apply elem_of_range in Hy.
    assert (Hmem : ∀ y', bool_decide (y' ∈ pre ++ [y])
                         = bool_decide (y' ∈ pre) || (y' =? y)).
    { intros y'. apply eq_true_iff_eq.
      rewrite orb_true_iff, !bool_decide_eq_true, Z.eqb_eq.
      rewrite elem_of_app, list_elem_of_singleton. done. }
    destruct (distance_le (x - cx) (y - cy) r) eqn:E.
    + destruct (set_pixel_in g1 w h x y false Hd1 Hx) as (g2 & Hs & Hd2 & Hpx2);
        [lia |].
      exists g2. split; [done |]. split; [done |].
      intros x' y' Hx' Hy'. rewrite Hpx2, Hmem, Hpx1 by done.
      destruct (Z.eqb_spec x' x) as [->|], (Z.eqb_spec y' y) as [->|]; simpl;
        rewrite ?E, ?andb_false_r, ?andb_true_r, ?orb_false_r, ?orb_true_r;
        simpl; rewrite ?andb_false_r, ?andb_true_r; done.
    + exists g1. split; [done |]. split; [done |].
      intros x' y' Hx' Hy'. rewrite Hmem, Hpx1 by done.
      destruct (Z.eqb_spec x' x) as [->|], (Z.eqb_spec y' y) as [->|]; simpl;
        rewrite ?E, ?andb_false_r, ?andb_true_r, ?orb_false_r, ?orb_true_r;
        simpl; rewrite ?andb_false_r, ?andb_true_r; done.
  - exists g'. split; [done |]. split; [done |].
    intros x' y' Hx' Hy'. rewrite Hpx by done.
    unfold ys. by rewrite in_range_decide.
Qed.

Lemma carve_spec cx cy r w h g :
  grid_dims g w h = true →
  ∃ g', carve cx cy r w h g = Some g' ∧ grid_dims g' w h = true ∧
    ∀ x y, 0 ≤ x → 0 ≤ y →
      px g' x y = px g x y && negb (cleared cx cy r w h x y).
Proof.
  intros Hd. unfold carve.
  set (xs := range _ _).
  destruct (for_in_invariant
    (λ pre g', grid_dims g' w h = true ∧
       ∀ x y, 0 ≤ x → 0 ≤ y →
         px g' x y =
         px g x y
         && negb (bool_decide (x ∈ pre)
                  && in_range (Z.max 0 (cy - r)) (Z.min h (cy + r + 1)) y
                  && distance_le (x - cx) (y - cy) r))
    (carve_column cx cy r h) xs g)
    as (g' & Hg' & Hd' & Hpx).
  - split; [done |]. intros x y _ _.
    rewrite bool_decide_eq_false_2 by (intros H; inversion H).
    by rewrite andb_true_r.
  - intros pre x0 g1 Hx0 [Hd1 Hpx1].
    apply elem_of_range in Hx0.
    destruct (carve_column_spec cx cy r w h g1 x0 Hd1) as (g2 & Hc & Hd2 & Hpx2);
      [lia |].
    exists g2. split; [done |]. split; [done |].
    intros x y Hx Hy. rewrite Hpx2, Hpx1 by done.
    assert (Hmem : bool_decide (x ∈ pre ++ [x0])
                   = bool_decide (x ∈ pre) || (x =? x0)).
    { apply eq_true_iff_eq.
      rewrite orb_true_iff, !bool_decide_eq_true, Z.eqb_eq.
      rewrite elem_of_app, list_elem_of_singleton. done. }
    rewrite Hmem.
    destruct (px g x y), (bool_decide (x ∈ pre)), (x =? x0),
      (in_range _ _ y), (distance_le _ _ r); done.
  - exists g'. split; [done |]. split; [done |].
    intros x y Hx Hy. rewrite Hpx by done.
    unfold xs, cleared. by rewrite in_range_decide.
Qed.

Lemma update_height_map_spec w h g hm :
  grid_dims g w h = true → Z.of_nat (length hm) = w →
  ∃ hm', _update_height_map w h g hm = Some hm' ∧
    Z.of_nat (length hm') = w ∧
    ∀ x, 0 ≤ x < w → hm' !! Z.to_nat x = Some (top_row g x h).
Proof.
  intros Hd Hlen. unfold _update_height_map.
  destruct (for_in_invariant
    (λ pre hm', Z.of_nat (length hm') = w ∧
       ∀ x, 0 ≤ x < w → x ∈ pre → hm' !! Z.to_nat x = Some (top_row g x h))
    (λ hm x, top ← scan_solid g x (range 0 h); setitem hm x (default h top))
    (range 0 w) hm)
    as (hm' & Hu & Hlen' & Hval).
  - split; [done |]. intros x _ H. inversion H.
  - intros pre x hm1 Hx [Hl1 Hv1]. apply elem_of_range in Hx.
    rewrite (scan_solid_in g w h) by (try done; intros y; apply elem_of_range).
    simpl. rewrite setitem_in by lia.
    eexists. split; [done |]. rewrite length_insert. split; [done |].
    intros x' Hx' Hin.
    destruct (decide (x' = x)) as [->|Hne].
    + by rewrite list_lookup_insert_eq by lia.
    + rewrite list_lookup_insert_ne by lia.
      apply elem_of_app in Hin as [Hin| ->%list_elem_of_singleton]; [auto | done].
  - exists hm'. split; [done |]. split; [done |].
    intros x Hx. apply Hval; [done |]. by apply elem_of_range.
Qed.

(** ** Queries on well-formed states *)

Lemma wf_spec tm :
  wf tm = true ↔
  grid_dims (terrain_pixels tm) (width tm) (height tm) = true
  ∧ Z.of_nat (length (height_map tm)) = width tm.
Proof. unfold wf. by rewrite andb_true_iff, Z.eqb_eq. Qed.

Lemma consistent_spec tm :
  consistent tm = true ↔
  ∀ x, 0 ≤ x < width tm →
    height_map tm !! Z.to_nat x
    = Some (top_row (terrain_pixels tm) x (height tm)).
Proof.
  unfold consistent. rewrite forallb_forall. split.
  - intros H x Hx. eapply bool_decide_eq_true, H.
    by apply list_elem_of_In, elem_of_range.
  - intros H x Hx%list_elem_of_In%elem_of_range.
    apply bool_decide_eq_true. auto.
Qed.

Lemma is_solid_at_wf tm x y :
  wf tm = true → is_solid_at tm x y = Some (solid tm x y).
Proof.
  intros [Hd _]%wf_spec. unfold is_solid_at, solid, in_range.
  destruct (Z.ltb_spec x 0), (Z.leb_spec 0 x); try lia; simpl; try done;
  destruct (Z.geb_spec x (width tm)), (Z.ltb_spec x (width tm));
    try lia; simpl; try done;
  destruct (Z.ltb_spec y 0), (Z.leb_spec 0 y); try lia; simpl; try done;
  destruct (Z.geb_spec y (height tm)), (Z.ltb_spec y (height tm));
    try lia; simpl; try done.
  by apply (pixel_at_in _ (width tm) (height tm)).
Qed.

(** ** [create_crater] on a well-formed state *)

Lemma create_crater_spec tm cx cy r now :
  wf tm = true →
  ∃ tm', create_crater tm cx cy r now = Some tm'
    ∧ wf tm' = true ∧ consistent tm' = true
    ∧ width tm' = width tm ∧ height tm' = height tm
    ∧ craters tm' = craters tm ++ [mkCrater cx cy r now]
    ∧ ∀ x y, 0 ≤ x → 0 ≤ y →
        px (terrain_pixels tm') x y
        = px (terrain_pixels tm) x y
          && negb (cleared cx cy r (width tm) (height tm) x y).
Proof.
  intros [Hd Hlen]%wf_spec. unfold create_crater.
  destruct (carve_spec cx cy r _ _ _ Hd) as (g' & Hc & Hd' & Hpx).
  destruct (update_height_map_spec _ _ g' _ Hd' Hlen) as (hm' & Hu & Hlen' & Hhm).
  rewrite Hc. simpl. rewrite Hu. simpl. eexists. split; [done |]. simpl.
  split; [by apply wf_spec |]. split; [by apply consistent_spec |]. done.
Qed.

Lemma solid_after_crater tm tm' cx cy r x y :
  width tm' = width tm → height tm' = height tm →
  (∀ x y, 0 ≤ x → 0 ≤ y →
     px (terrain_pixels tm') x y
     = px (terrain_pixels tm) x y
       && negb (cleared cx cy r (width tm) (height tm) x y)) →
  solid tm' x y = solid tm x y && negb (cleared cx cy r (width tm) (height tm) x y).
Proof.
  intros Hw Hh Hpx. unfold solid. rewrite Hw, Hh.
  destruct (in_range 0 (width tm) x) eqn:Ex; [|done].
  destruct (in_range 0 (height tm) y) eqn:Ey; [|done].
  apply in_range_spec in Ex, Ey. simpl. apply Hpx; lia.
Qed.

Lemma square_sum_bound a b r :
  0 ≤ r → a * a + b * b ≤ r * r → - r ≤ a ≤ r.
Proof.
  intros Hr H. pose proof (Z.square_nonneg b) as Hb.
  destruct (Z_lt_le_dec r a); [nia |].
  destruct (Z_lt_le_dec a (- r)); [nia | lia].
Qed.

Lemma cleared_in_disc cx cy r w h x y :
  0 ≤ x < w → 0 ≤ y < h →
  distance_le (x - cx) (y - cy) r = true → cleared cx cy r w h x y = true.
Proof.
  intros Hx Hy Hd. unfold cleared. rewrite Hd, andb_true_r.
  unfold distance_le in Hd.
  apply andb_true_iff in Hd as [Hr%Z.leb_le Hd%Z.leb_le].
  assert (- r ≤ x - cx ≤ r) by (eapply square_sum_bound; done).
  assert (- r ≤ y - cy ≤ r)
    by (eapply square_sum_bound; [done | rewrite Z.add_comm; done]).
  apply andb_true_iff. split; apply in_range_spec; lia.
Qed.

Lemma cleared_negative_radius cx cy r w h x y :
  r < 0 → cleared cx cy r w h x y = false.
Proof.
  intros Hr. unfold cleared, distance_le.
  destruct (Z.leb_spec 0 r); [lia |]. simpl. apply andb_false_r.
Qed.

Lemma cleared_zero_radius cx cy w h x y :
  cleared cx cy 0 w h x y = true ↔ x = cx ∧ y = cy ∧ 0 ≤ cx < w ∧ 0 ≤ cy < h.
Proof.
  unfold cleared, distance_le.
  rewrite !andb_true_iff, !in_range_spec, Z.leb_le. simpl. nia.
Qed.

(** ** The real-number reading of the distance tests *)

Section RealReading.
Local Open Scope R_scope.

Lemma sqrt_IZR_le (d2 r : Z) :
  (0 ≤ d2)%Z → sqrt (IZR d2) <= IZR r ↔ (0 ≤ r ∧ d2 ≤ r * r)%Z.
Proof.
  intros Hd. apply IZR_le in Hd. split.
  - intros H. pose proof (sqrt_pos (IZR d2)) as Hp.
    assert (0 <= IZR r) as Hr by lra.
    split; [by apply le_IZR |].
    apply le_IZR. rewrite mult_IZR.
    apply sqrt_le_0; [done | nra |]. by rewrite sqrt_square.
  - intros [Hr Hle]. apply IZR_le in Hr, Hle. rewrite mult_IZR in Hle.
    rewrite <- (sqrt_square (IZR r)) by done.
    apply sqrt_le_1; [done | nra | done].
Qed.

Lemma sqrt_IZR_lt_scaled (d2 s : Z) :
  (0 ≤ d2)%Z →
  sqrt (IZR d2) < IZR s * (8 / 10) ↔ (0 < s ∧ 25 * d2 < 16 * (s * s))%Z.
Proof.
  intros Hd. apply IZR_le in Hd. split.
  - intros H. pose proof (sqrt_pos (IZR d2)) as Hp.
    assert (0 < IZR s) as Hs by lra.
    split; [by apply lt_IZR |].
    apply lt_IZR. rewrite !mult_IZR.
    rewrite <- (sqrt_square (IZR s * (8 / 10))) in H by lra.
    apply sqrt_lt_0_alt in H. lra.
  - intros [Hs Hlt]. apply IZR_lt in Hs, Hlt. rewrite !mult_IZR in Hlt.
    rewrite <- (sqrt_square (IZR s * (8 / 10))) by lra.
    apply sqrt_lt_1_alt. lra.
Qed.
Lemma sqrt_IZR_gt_scaled (d2 s : Z) :
  (0 ≤ d2)%Z → (s < 0 ∨ 16 * (s * s) < 25 * d2)%Z →
  IZR s * (8 / 10) < sqrt (IZR d2).
Proof.
  intros Hd Hs. apply IZR_le in Hd.
  destruct (Z_lt_le_dec s 0) as [Hneg|Hpos].
  - apply IZR_lt in Hneg. pose proof (sqrt_pos (IZR d2)). lra.
  - destruct Hs as [Hs|Hs]; [lia |].
    apply IZR_le in Hpos. apply IZR_lt in Hs. rewrite !mult_IZR in Hs.
    rewrite <- (sqrt_square (IZR s * (8 / 10))) by lra.
    apply sqrt_lt_1_alt. nra.
Qed.

End RealReading.

Lemma sum_squares_nonneg a b : 0 ≤ a * a + b * b.
Proof. pose proof (Z.square_nonneg a). pose proof (Z.square_nonneg b). lia. Qed.

Lemma distance_le_euclid x y cx cy r :
  distance_le (x - cx) (y - cy) r = true ↔ (euclid x y cx cy <= IZR r)%R.
Proof.
  unfold distance_le, euclid. rewrite sqrt_IZR_le by apply sum_squares_nonneg.
  by rewrite andb_true_iff, !Z.leb_le.
Qed.

Lemma overlaps_center_distance a b :
  overlaps a b = true ↔
  (center_distance a b < IZR (crater_radius a + crater_radius b) * (8 / 10))%R.
Proof.
  unfold overlaps, center_distance.
  rewrite sqrt_IZR_lt_scaled by apply sum_squares_nonneg.
  by rewrite andb_true_iff, !Z.ltb_lt.
Qed.

Example flat12_constructed : new_TerrainMap 12 12 (Level 6) = Some flat12.
Proof. reflexivity. Qed.

(** ** Crater creation: the properties of the specification *)

Lemma consistent_topmost tm x :
  wf tm = true → consistent tm = true → 0 ≤ x < width tm →
  ∃ v, getitem (height_map tm) x = Some v ∧ topmost_solid tm x v.
Proof.
  intros Hwf Hc Hx. pose proof Hwf as [Hd Hlen]%wf_spec.
  exists (top_row (terrain_pixels tm) x (height tm)).
  rewrite getitem_in by lia.
  split; [by apply consistent_spec |].
  assert (Hs : ∀ y, 0 ≤ y < height tm →
            is_solid_at tm x y = Some (px (terrain_pixels tm) x y)).
  { intros y Hy. rewrite is_solid_at_wf by done. unfold solid.
    destruct (in_range_spec 0 (width tm) x) as [_ ->]; [|done].
    destruct (in_range_spec 0 (height tm) y) as [_ ->]; done. }
  destruct (top_row_spec (terrain_pixels tm) x (height tm))
    as [[Hv Hn] | (Hv & Hp & Hn)]; [left | right].
  - split; [done |]. intros y Hy. rewrite Hs by done. f_equal. auto.
  - split; [done |]. split.
    + rewrite Hs by done. by f_equal.
    + intros y Hy. rewrite Hs by lia. f_equal. auto.
Qed.

(** C1. After [create_crater(cx, cy, r)] with the centre inside the grid
    and [r > 0], [is_solid_at] is false at every in-bounds point whose
    Euclidean distance from the centre is at most [r], and every point
    farther than [r] plus a buffer (any buffer, none included) is as
    solid as before. *)
Theorem create_crater_clears_disc tm cx cy r now :
  wf tm = true → 0 ≤ cx < width tm → 0 ≤ cy < height tm → 0 < r →
  ∃ tm', create_crater tm cx cy r now = Some tm'
    ∧ (∀ x y, 0 ≤ x < width tm → 0 ≤ y < height tm →
         (euclid x y cx cy <= IZR r)%R → is_solid_at tm' x y = Some false)
    ∧ (∀ x y buffer, (0 <= buffer)%R →
         (IZR r + buffer < euclid x y cx cy)%R →
         is_solid_at tm' x y = is_solid_at tm x y).
Proof.
  intros Hwf _ _ _.
  destruct (create_crater_spec tm cx cy r now Hwf)
    as (tm' & Hc & Hwf' & _ & Hw & Hh & _ & Hpx).
  exists tm'. split; [done |].
  pose proof (solid_after_crater tm tm' cx cy r) as Hs.
  split.
  - intros x y Hx Hy Hd%distance_le_euclid.
    rewrite is_solid_at_wf, Hs by done.
    rewrite (cleared_in_disc cx cy r) by done. by rewrite andb_false_r.
  - intros x y buffer Hb Hfar.
    rewrite !is_solid_at_wf, Hs by done.
    replace (cleared cx cy r (width tm) (height tm) x y) with false;
      [by rewrite andb_true_r |].
    symmetry. unfold cleared.
    destruct (distance_le (x - cx) (y - cy) r) eqn:E;
      [| by rewrite andb_false_r].
    apply distance_le_euclid in E. lra.
Qed.

Lemma create_crater_clears_disc_witness :
  ∃ tm', create_crater flat12 5 7 2 100 = Some tm'
    ∧ (∀ x y, 0 ≤ x < width flat12 → 0 ≤ y < height flat12 →
         (euclid x y 5 7 <= IZR 2)%R → is_solid_at tm' x y = Some false)
    ∧ (∀ x y buffer, (0 <= buffer)%R →
         (IZR 2 + buffer < euclid x y 5 7)%R →
         is_solid_at tm' x y = is_solid_at flat12 x y).
Proof.
  apply (create_crater_clears_disc flat12 5 7 2 100);
    [reflexivity | simpl; lia | simpl; lia | lia].
Defined.

(** C4. When [create_crater] returns, the height profile agrees with the
    grid: [height_map[x]] is the smallest solid row of column [x], or the
    grid height when the column is empty. *)
Theorem create_crater_height_profile tm cx cy r now :
  wf tm = true →
  ∃ tm', create_crater tm cx cy r now = Some tm'
    ∧ ∀ x, 0 ≤ x < width tm' →
        ∃ v, getitem (height_map tm') x = Some v ∧ topmost_solid tm' x v.
Proof.
  intros Hwf.
  destruct (create_crater_spec tm cx cy r now Hwf)
    as (tm' & Hc & Hwf' & Hcons & _).
  exists tm'. split; [done |]. intros x Hx. by apply consistent_topmost.
Qed.

Lemma create_crater_height_profile_witness :
  ∃ tm', create_crater flat12 5 7 2 100 = Some tm'
    ∧ ∀ x, 0 ≤ x < width tm' →
        ∃ v, getitem (height_map tm') x = Some v ∧ topmost_solid tm' x v.
Proof. apply (create_crater_height_profile flat12 5 7 2 100). reflexivity. Defined.

Lemma range_empty a b : b ≤ a → range a b = [].
Proof.
  intros H. unfold range, seqZ.
  replace (Z.to_nat (b - a)) with 0%nat by lia. done.
Qed.

Lemma carve_negative_radius cx cy r w h g :
  r < 0 → carve cx cy r w h g = Some g.
Proof. intros Hr. unfold carve. rewrite range_empty by lia. done. Qed.

Lemma height_map_eq tm hm :
  wf tm = true → consistent tm = true →
  Z.of_nat (length hm) = width tm →
  (∀ x, 0 ≤ x < width tm →
     hm !! Z.to_nat x = Some (top_row (terrain_pixels tm) x (height tm))) →
  hm = height_map tm.
Proof.
  intros [_ Hlen]%wf_spec Hc Hl Hv. apply list_eq. intros i.
  destruct (decide (i < length hm)%nat) as [Hi|Hi].
  - specialize (Hv (Z.of_nat i) ltac:(lia)).
    rewrite consistent_spec in Hc. specialize (Hc (Z.of_nat i) ltac:(lia)).
    rewrite Nat2Z.id in Hv, Hc. congruence.
  - rewrite !lookup_ge_None_2 by lia. done.
Qed.

(** C5, as the code has it.  A call with a non-positive radius raises
    nothing and appends its crater record; a negative radius leaves the
    grid as it is, and the height profile too when it agreed with the
    grid; radius 0 clears the centre cell and no other. *)
Theorem create_crater_nonpositive_radius tm cx cy r now :
  wf tm = true → r ≤ 0 →
  ∃ tm', create_crater tm cx cy r now = Some tm'
    ∧ craters tm' = craters tm ++ [mkCrater cx cy r now]
    ∧ (r < 0 → terrain_pixels tm' = terrain_pixels tm
               ∧ (consistent tm = true → height_map tm' = height_map tm))
    ∧ (r = 0 → is_solid_at tm' cx cy = Some false
               ∧ ∀ x y, (x, y) ≠ (cx, cy) →
                   is_solid_at tm' x y = is_solid_at tm x y).
Proof.
  intros Hwf Hr.
  destruct (create_crater_spec tm cx cy r now Hwf)
    as (tm' & Hc & Hwf' & Hcons' & Hw & Hh & Hcr & Hpx).
  exists tm'. split; [done |]. split; [done |]. split.
  - intros Hneg. unfold create_crater in Hc.
    rewrite carve_negative_radius in Hc by done. simpl in Hc.
    destruct (_update_height_map _ _ _ _) as [hm|] eqn:Hu; [|done].
    simpl in Hc. injection Hc as <-. simpl. split; [done |].
    intros Hcons.
    pose proof Hwf as [Hd Hlen]%wf_spec.
    destruct (update_height_map_spec _ _ _ _ Hd Hlen) as (hm' & Hu' & Hl' & Hv').
    rewrite Hu in Hu'. injection Hu' as <-.
    by apply height_map_eq.
  - intros ->.
    pose proof (solid_after_crater tm tm' cx cy 0 cx cy Hw Hh Hpx) as Hs0.
    split.
    + rewrite is_solid_at_wf by done.
      destruct (cleared cx cy 0 (width tm) (height tm) cx cy) eqn:E.
      * rewrite Hs0. by rewrite andb_false_r.
      * f_equal. unfold solid. rewrite Hw, Hh.
        destruct (in_range 0 (width tm) cx) eqn:Ex; [|done].
        destruct (in_range 0 (height tm) cy) eqn:Ey; [|done].
        apply in_range_spec in Ex, Ey.
        assert (cleared cx cy 0 (width tm) (height tm) cx cy = true);
          [by apply cleared_zero_radius | congruence].
    + intros x y Hne. rewrite !is_solid_at_wf by done. f_equal.
      rewrite (solid_after_crater tm tm' cx cy 0 x y Hw Hh Hpx).
      destruct (cleared cx cy 0 (width tm) (height tm) x y) eqn:E;
        [| by rewrite andb_true_r].
      apply cleared_zero_radius in E as (-> & -> & _). done.
Qed.

Lemma create_crater_nonpositive_radius_witness :
  ∃ tm', create_crater flat12 5 7 (-3) 100 = Some tm'
    ∧ craters tm' = craters flat12 ++ [mkCrater 5 7 (-3) 100]
    ∧ (-3 < 0 → terrain_pixels tm' = terrain_pixels flat12
               ∧ (consistent flat12 = true →
                  height_map tm' = height_map flat12))
    ∧ (-3 = 0 → is_solid_at tm' 5 7 = Some false
               ∧ ∀ x y, (x, y) ≠ (5, 7) →
                   is_solid_at tm' x y = is_solid_at flat12 x y).
Proof.
  apply (create_crater_nonpositive_radius flat12 5 7 (-3) 100);
    [reflexivity | lia].
Defined.

(** C5 as stated fails: with radius 0 the call clears the centre cell,
    moves the height profile and grows the crater list. *)
Lemma create_crater_zero_radius_changes :
  ∃ tm', create_crater flat12 5 6 0 100 = Some tm'
    ∧ is_solid_at flat12 5 6 = Some true
    ∧ is_solid_at tm' 5 6 = Some false
    ∧ height_map tm' ≠ height_map flat12
    ∧ craters tm' ≠ craters flat12.
Proof.
  eexists. split; [vm_compute; reflexivity |].
  repeat split; try (vm_compute; reflexivity); vm_compute; discriminate.
Qed.

(** A negative radius changes the crater list as well. *)
Lemma create_crater_negative_radius_appends :
  ∃ tm', create_crater flat12 5 6 (-1) 100 = Some tm'
    ∧ craters flat12 = []
    ∧ craters tm' = [mkCrater 5 6 (-1) 100].
Proof. eexists. repeat split; vm_compute; reflexivity. Qed.

(** ** The windowed ground height *)

Lemma bind_Some {A B} (a : A) (f : A → option B) : Some a ≫= f = f a.
Proof. reflexivity. Qed.

Lemma for_in_total {S A} (f : S → A → S) (body : S → A → option S)
    (l : list A) (s : S) :
  (∀ s a, a ∈ l → body s a = Some (f s a)) →
  for_in l s body = Some (foldl f s l).
Proof.
  revert s. induction l as [|a l IH]; intros s Hb; [done |].
  simpl. rewrite Hb by left. simpl. apply IH. intros s' a' Ha'.
  apply Hb. by right.
Qed.

Lemma clamp_column_range tm x :
  0 < width tm → 0 ≤ clamp_column tm x < width tm.
Proof. unfold clamp_column. lia. Qed.

Lemma clamp_column_idem tm x :
  clamp_column tm (clamp_column tm x) = clamp_column tm x.
Proof. unfold clamp_column. lia. Qed.

Lemma get_ground_height_wf tm x :
  wf tm = true → 0 < width tm →
  ∃ m0, height_map tm !! Z.to_nat (clamp_column tm x) = Some m0
    ∧ get_ground_height tm x
      = Some (foldl (window_step tm (clamp_column tm x)) m0
                (range (- search_radius) (search_radius + 1))).
Proof.
  intros [Hd Hlen]%wf_spec Hw.
  pose proof (clamp_column_range tm x Hw) as Hc.
  destruct (getitem_in_Some (height_map tm) (clamp_column tm x))
    as (m0 & Hg & Hl); [lia |].
  exists m0. split; [done |]. unfold get_ground_height.
  rewrite Hg, bind_Some.
  apply (for_in_total (window_step tm (clamp_column tm x))).
  intros m dx _. unfold window_step.
  destruct ((0 <=? clamp_column tm x + dx)
            && (clamp_column tm x + dx <? width tm)) eqn:E; [|done].
  apply andb_true_iff in E as [E1%Z.leb_le E2%Z.ltb_lt].
  rewrite (scan_solid_in _ (width tm) (height tm))
    by (try done; intros y; apply elem_of_range).
  done.
Qed.

(** Clearing cells can only lower the terrain: the first solid row of a
    column moves down or disappears. *)
Lemma first_solid_shrink g g' c h :
  (∀ y, 0 ≤ y → px g' c y = true → px g c y = true) →
  match first_solid g' c (range 0 h) with
  | Some y' => ∃ y, first_solid g c (range 0 h) = Some y ∧ y ≤ y'
  | None => True
  end.
Proof.
  intros Hsub.
  destruct (first_solid g' c (range 0 h)) as [y'|] eqn:E'; [|done].
  apply first_solid_range_Some in E' as (Hy' & Hp' & _).
  specialize (Hsub y' ltac:(lia) Hp').
  destruct (first_solid g c (range 0 h)) as [y|] eqn:E.
  - exists y. split; [done |].
    apply first_solid_range_Some in E as (Hy & Hp & Hn).
    destruct (Z_le_gt_dec y y'); [done |].
    rewrite Hn in Hsub by lia. discriminate.
  - rewrite first_solid_range_None in E.
    rewrite E in Hsub by lia. discriminate.
Qed.

Lemma top_row_le_height g c h : 0 ≤ h → top_row g c h ≤ h.
Proof.
  intros Hh. destruct (top_row_spec g c h) as [[-> _] | [? _]]; lia.
Qed.

Lemma top_row_shrink g g' c h :
  0 ≤ h →
  (∀ y, 0 ≤ y → px g' c y = true → px g c y = true) →
  top_row g c h ≤ top_row g' c h.
Proof.
  intros Hh Hsub. pose proof (first_solid_shrink g g' c h Hsub) as H.
  pose proof (top_row_le_height g c h Hh) as Hle.
  unfold top_row in *.
  destruct (first_solid g' c (range 0 h)) as [y'|]; simpl; [|done].
  destruct H as (y & -> & Hy). done.
Qed.

Lemma window_fold_shrink tm tm' xi dxs m m' :
  width tm' = width tm → height tm' = height tm →
  (∀ x y, 0 ≤ x → 0 ≤ y →
     px (terrain_pixels tm') x y = true → px (terrain_pixels tm) x y = true) →
  m ≤ m' →
  foldl (window_step tm xi) m dxs ≤ foldl (window_step tm' xi) m' dxs.
Proof.
  intros Hw Hh Hsub. revert m m'.
  induction dxs as [|dx dxs IH]; intros m m' Hm; [done |].
  simpl. apply IH. unfold window_step. rewrite Hw, Hh.
  destruct ((0 <=? xi + dx) && (xi + dx <? width tm)) eqn:E; [|done].
  apply andb_true_iff in E as [E1%Z.leb_le _].
  pose proof (first_solid_shrink (terrain_pixels tm) (terrain_pixels tm')
                (xi + dx) (height tm)) as H.
  destruct (first_solid (terrain_pixels tm') _ _) as [y'|].
  - destruct H as (y & -> & Hy); [intros; apply Hsub; auto; lia | lia].
  - destruct (first_solid (terrain_pixels tm) _ _); lia.
Qed.

Lemma first_solid_ext g g' c ys :
  (∀ y, y ∈ ys → px g' c y = px g c y) →
  first_solid g' c ys = first_solid g c ys.
Proof.
  induction ys as [|y ys IH]; intros H; [done |].
  simpl. rewrite H by left. destruct (px g c y); [done |].
  apply IH. intros y' Hy'. apply H. by right.
Qed.

Lemma window_fold_ext tm tm' xi dxs m :
  width tm' = width tm → height tm' = height tm →
  (∀ dx y, dx ∈ dxs → 0 ≤ xi + dx → 0 ≤ y →
     px (terrain_pixels tm') (xi + dx) y = px (terrain_pixels tm) (xi + dx) y) →
  foldl (window_step tm' xi) m dxs = foldl (window_step tm xi) m dxs.
Proof.
  intros Hw Hh. revert m.
  induction dxs as [|dx dxs IH]; intros m Hext; [done |].
  simpl. rewrite IH by (intros; apply Hext; [by right | done..]).
  f_equal. unfold window_step. rewrite Hw, Hh.
  destruct ((0 <=? xi + dx) && (xi + dx <? width tm)) eqn:E; [|done].
  apply andb_true_iff in E as [E1%Z.leb_le _].
  rewrite (first_solid_ext (terrain_pixels tm) (terrain_pixels tm')); [done |].
  intros y Hy%elem_of_range. apply Hext; [left | done | lia].
Qed.

Lemma cleared_outside_box cx cy r w h x y :
  x < cx - r ∨ cx + r < x → cleared cx cy r w h x y = false.
Proof.
  intros Hx. unfold cleared.
  destruct (in_range _ _ x) eqn:E; [|done].
  apply in_range_spec in E. lia.
Qed.

Lemma wf_height_nonneg tm : wf tm = true → 0 < width tm → 0 ≤ height tm.
Proof.
  intros [Hd _]%wf_spec Hw.
  destruct (grid_column _ _ _ 0 Hd) as (col & _ & <-); lia.
Qed.

Example spike10_constructed :
  new_TerrainMap 10 10 (Profile [8; 8; 3; 8; 8; 8; 8; 8; 8; 8]) = Some spike10.
Proof. reflexivity. Qed.

(** C7 as stated fails at a column next to the bounding box: crater
    [(2, 3)] of radius 1 has bounding box columns 1..3, yet the ground
    height of column 4, whose window reaches the spike in column 2, moves
    from 3 to 5. *)
Lemma ground_height_changes_outside_box :
  ∃ tm', create_crater spike10 2 3 1 100 = Some tm'
    ∧ ¬ (2 - 1 ≤ 4 ≤ 2 + 1)
    ∧ get_ground_height spike10 4 = Some 3
    ∧ get_ground_height tm' 4 = Some 5.
Proof.
  eexists. split; [vm_compute; reflexivity |].
  split; [lia |]. split; vm_compute; reflexivity.
Qed.

(** C7, as the code has it.  On a state whose height profile agrees with
    the grid, [create_crater] never makes [get_ground_height] smaller, at
    any column (those whose topmost solid row was inside the crater
    included), and leaves it as it was at every column whose search window
    of 3 columns to each side stays outside the bounding box
    [cx - r .. cx + r]. *)
Theorem create_crater_ground_height tm cx cy r now :
  wf tm = true → consistent tm = true → 0 < width tm →
  ∃ tm', create_crater tm cx cy r now = Some tm'
    ∧ (∀ x, ∃ before after,
         get_ground_height tm x = Some before
         ∧ get_ground_height tm' x = Some after
         ∧ before ≤ after)
    ∧ (∀ x, clamp_column tm x + search_radius < cx - r
            ∨ cx + r < clamp_column tm x - search_radius →
         get_ground_height tm' x = get_ground_height tm x).
Proof.
  intros Hwf Hcons Hpos.
  destruct (create_crater_spec tm cx cy r now Hwf)
    as (tm' & Hc & Hwf' & Hcons' & Hw & Hh & _ & Hpx).
  exists tm'. split; [done |].
  assert (Hcl : ∀ x, clamp_column tm' x = clamp_column tm x)
    by (intros x; unfold clamp_column; by rewrite Hw).
  assert (Hsub : ∀ x y, 0 ≤ x → 0 ≤ y →
            px (terrain_pixels tm') x y = true →
            px (terrain_pixels tm) x y = true).
  { intros x y Hx Hy. rewrite Hpx by done.
    by intros [? _]%andb_true_iff. }
  pose proof (wf_height_nonneg tm Hwf Hpos) as Hnn.
  rewrite consistent_spec in Hcons, Hcons'.
  split.
  - intros x.
    destruct (get_ground_height_wf tm x Hwf Hpos) as (m0 & Hm0 & ->).
    destruct (get_ground_height_wf tm' x Hwf' ltac:(lia)) as (m0' & Hm0' & ->).
    rewrite Hcl in *. do 2 eexists. split; [done |]. split; [done |].
    apply window_fold_shrink; try done.
    pose proof (clamp_column_range tm x Hpos) as Hr.
    rewrite Hcons in Hm0 by done. rewrite Hcons' in Hm0' by lia.
    injection Hm0 as <-. injection Hm0' as <-. rewrite Hh.
    apply top_row_shrink; [done |]. intros y Hy. apply Hsub; lia.
  - intros x Hfar.
    destruct (get_ground_height_wf tm x Hwf Hpos) as (m0 & Hm0 & ->).
    destruct (get_ground_height_wf tm' x Hwf' ltac:(lia)) as (m0' & Hm0' & ->).
    rewrite Hcl in *. f_equal.
    pose proof (clamp_column_range tm x Hpos) as Hr.
    assert (Hsame : ∀ dx y, - search_radius ≤ dx ≤ search_radius →
              0 ≤ clamp_column tm x + dx → 0 ≤ y →
              px (terrain_pixels tm') (clamp_column tm x + dx) y
              = px (terrain_pixels tm) (clamp_column tm x + dx) y).
    { intros dx y Hdx Hx Hy. rewrite Hpx by done.
      rewrite cleared_outside_box by lia. apply andb_true_r. }
    assert (m0' = m0) as ->.
    { rewrite Hcons in Hm0 by done. rewrite Hcons' in Hm0' by lia.
      injection Hm0 as <-. injection Hm0' as <-. rewrite Hh.
      unfold top_row. f_equal. apply first_solid_ext.
      intros y Hy%elem_of_range.
      specialize (Hsame 0 y). rewrite Z.add_0_r in Hsame.
      apply Hsame; unfold search_radius; lia. }
    apply window_fold_ext; try done.
    intros dx y Hdx%elem_of_range Hx Hy. apply Hsame; [lia | done..].
Qed.

Lemma create_crater_ground_height_witness :
  ∃ tm', create_crater spike10 2 3 1 100 = Some tm'
    ∧ (∀ x, ∃ before after,
         get_ground_height spike10 x = Some before
         ∧ get_ground_height tm' x = Some after
         ∧ before ≤ after)
    ∧ (∀ x, clamp_column spike10 x + search_radius < 2 - 1
            ∨ 2 + 1 < clamp_column spike10 x - search_radius →
         get_ground_height tm' x = get_ground_height spike10 x).
Proof.
  apply (create_crater_ground_height spike10 2 3 1 100);
    [reflexivity | reflexivity | simpl; lia].
Defined.

(** ** Height queries at any column *)

Lemma pixel_at_wrap g w h x y :
  grid_dims g w h = true → 0 ≤ x < w → - h ≤ y < h →
  is_Some (pixel_at g x y).
Proof.
  intros Hd Hx Hy.
  destruct (grid_column g w h x Hd Hx) as (col & Hcol & Hlen).
  pose proof Hd as [Hw _]%grid_dims_spec.
  unfold pixel_at. rewrite getitem_in by lia. rewrite Hcol, bind_Some.
  unfold getitem.
  destruct (norm_index_wrap col y) as (k & -> & Hk); [lia |].
  rewrite bind_Some. by apply lookup_lt_is_Some_2.
Qed.

Lemma scan_solid_wrap g w h x ys :
  grid_dims g w h = true → 0 ≤ x < w → (∀ y, y ∈ ys → - h ≤ y < h) →
  is_Some (scan_solid g x ys).
Proof.
  intros Hd Hx. induction ys as [|y ys IH]; intros Hys; [by eexists |].
  simpl.
  destruct (pixel_at_wrap g w h x y Hd Hx) as [b ->]; [apply Hys; left |].
  rewrite bind_Some. destruct b; [by eexists |].
  apply IH. intros y' Hy'. apply Hys. by right.
Qed.

(** Both height queries read the clamped column only, and the column
    index never raises; the scan of [get_accurate_ground_height] stays
    inside the column as long as [y_start] is not below [-height]. *)
Lemma ground_height_clamps tm x y_start :
  wf tm = true → 0 < width tm →
  (x < 0 → clamp_column tm x = 0)
  ∧ (width tm ≤ x → clamp_column tm x = width tm - 1)
  ∧ (0 ≤ x < width tm → clamp_column tm x = x)
  ∧ get_ground_height tm x = get_ground_height tm (clamp_column tm x)
  ∧ is_Some (get_ground_height tm x)
  ∧ get_accurate_ground_height tm x y_start
    = get_accurate_ground_height tm (clamp_column tm x) y_start
  ∧ (- height tm ≤ default 0 y_start →
     is_Some (get_accurate_ground_height tm x y_start)).
Proof.
  intros Hwf Hpos.
  split; [unfold clamp_column; lia |].
  split; [unfold clamp_column; lia |].
  split; [unfold clamp_column; lia |].
  split; [unfold get_ground_height; by rewrite clamp_column_idem |].
  split.
  { destruct (get_ground_height_wf tm x Hwf Hpos) as (m0 & _ & ->).
    by eexists. }
  split; [unfold get_accurate_ground_height; by rewrite clamp_column_idem |].
  intros Hys. unfold get_accurate_ground_height.
  pose proof Hwf as [Hd _]%wf_spec.
  destruct (scan_solid_wrap (terrain_pixels tm) (width tm) (height tm)
              (clamp_column tm x) (range (default 0 y_start) (height tm)) Hd)
    as [top ->].
  - by apply clamp_column_range.
  - intros y Hy%elem_of_range. lia.
  - rewrite bind_Some. by eexists.
Qed.

(** Below [-height] the first index of the scan is out of range. *)
Lemma accurate_ground_height_raises tm x y_start :
  wf tm = true → 0 < width tm → y_start < - height tm →
  get_accurate_ground_height tm x (Some y_start) = None.
Proof.
  intros Hwf Hpos Hys. pose proof Hwf as [Hd _]%wf_spec.
  pose proof (wf_height_nonneg tm Hwf Hpos) as Hnn.
  pose proof (clamp_column_range tm x Hpos) as Hc.
  destruct (grid_column _ _ _ _ Hd Hc) as (col & Hcol & Hlen).
  pose proof Hd as [Hw _]%grid_dims_spec.
  unfold get_accurate_ground_height. simpl default. unfold range.
  rewrite (seqZ_cons y_start) by lia. simpl.
  unfold pixel_at. rewrite getitem_in by lia. rewrite Hcol, bind_Some.
  unfold getitem. rewrite norm_index_below by lia. done.
Qed.

(** C10 at a failing input: on the 12 x 12 map, a scan that starts at row
    [-13] raises [IndexError], and one that starts at row [-1] reads the
    bottom row through Python's negative index and answers [-1]. *)
Theorem accurate_ground_height_negative_start :
  get_accurate_ground_height flat12 5 (Some (-13)) = None
  ∧ get_accurate_ground_height flat12 5 (Some (-1)) = Some (-1)
  ∧ get_accurate_ground_height flat12 5 None = Some 6.
Proof. repeat split; vm_compute; reflexivity. Qed.

(** ** Wall collision *)

Lemma wall_scan_wf tm x w rows :
  wf tm = true → wall_scan tm x w rows = Some (wall_scan_pure tm x w rows).
Proof.
  intros Hwf. induction rows as [|r rows IH]; [done |].
  simpl. rewrite !is_solid_at_wf by done. rewrite bind_Some.
  destruct (solid tm (x - 1) r); [done |]. rewrite bind_Some.
  destruct (solid tm (x + w) r); done.
Qed.

Lemma range2_lookup a b (i : nat) r :
  range2 a b !! i = Some r ↔ r = a + 2 * Z.of_nat i ∧ a + 2 * Z.of_nat i < b.
Proof.
  unfold range2. rewrite list_lookup_fmap.
  pose proof (Z.mod_pos_bound (b - a + 1) 2 ltac:(lia)) as Hm.
  pose proof (Z.div_mod (b - a + 1) 2 ltac:(lia)) as Hdm.
  destruct (Z_le_gt_dec ((b - a + 1) `div` 2) (Z.of_nat i)).
  - rewrite lookup_seqZ_ge by lia. simpl. split; [done | lia].
  - rewrite lookup_seqZ_lt by lia. simpl. split.
    + intros [= <-]. lia.
    + intros [-> _]. f_equal; lia.
Qed.

Section WallScan.
Variables (tm : TerrainMap) (x w : Z).

Lemma wall_scan_pure_None rows :
  wall_scan_pure tm x w rows = None ↔
  ∀ i r, rows !! i = Some r → row_clear tm x w r.
Proof.
  unfold row_clear. induction rows as [|r0 rows IH]; simpl.
  - split; [intros _ i r H; by destruct i | done].
  - destruct (solid tm (x - 1) r0) eqn:El.
    { split; [done |]. intros H. destruct (H 0%nat r0 eq_refl). congruence. }
    destruct (solid tm (x + w) r0) eqn:Er.
    { split; [done |]. intros H. destruct (H 0%nat r0 eq_refl). congruence. }
    rewrite IH. split.
    + intros H [|i] r Hi; simpl in Hi; [by injection Hi as <- | eauto].
    + intros H i r Hi. apply (H (S i)). done.
Qed.

Lemma wall_scan_pure_left rows :
  wall_scan_pure tm x w rows = Some left_side ↔
  ∃ i r, rows !! i = Some r ∧ solid tm (x - 1) r = true
    ∧ ∀ j r', (j < i)%nat → rows !! j = Some r' → row_clear tm x w r'.
Proof.
  unfold row_clear. induction rows as [|r0 rows IH]; simpl.
  - split; [done | intros (i & r & H & _); by destruct i].
  - destruct (solid tm (x - 1) r0) eqn:El.
    { split; [|done]. intros _. exists 0%nat, r0.
      split; [done |]. split; [done |]. intros j r' Hj. lia. }
    destruct (solid tm (x + w) r0) eqn:Er.
    { split; [done |]. intros ([|i] & r & Hi & Hs & Hpre); simpl in Hi.
      - injection Hi as <-. congruence.
      - destruct (Hpre 0%nat r0 ltac:(lia) eq_refl). congruence. }
    rewrite IH. split.
    + intros (i & r & Hi & Hs & Hpre). exists (S i), r.
      split; [done |]. split; [done |].
      intros [|j] r' Hj Hr'; simpl in Hr'; [by injection Hr' as <- |].
      apply (Hpre j); [lia | done].
    + intros ([|i] & r & Hi & Hs & Hpre); simpl in Hi.
      * injection Hi as <-. congruence.
      * exists i, r. split; [done |]. split; [done |].
        intros j r' Hj Hr'. apply (Hpre (S j)); [lia | done].
Qed.

Lemma wall_scan_pure_right rows :
  wall_scan_pure tm x w rows = Some right_side ↔
  ∃ i r, rows !! i = Some r
    ∧ solid tm (x - 1) r = false ∧ solid tm (x + w) r = true
    ∧ ∀ j r', (j < i)%nat → rows !! j = Some r' → row_clear tm x w r'.
Proof.
  unfold row_clear. induction rows as [|r0 rows IH]; simpl.
  - split; [done | intros (i & r & H & _); by destruct i].
  - destruct (solid tm (x - 1) r0) eqn:El.
    { split; [done |]. intros ([|i] & r & Hi & Hl & Hs & Hpre); simpl in Hi.
      - injection Hi as <-. congruence.
      - destruct (Hpre 0%nat r0 ltac:(lia) eq_refl). congruence. }
    destruct (solid tm (x + w) r0) eqn:Er.
    { split; [|done]. intros _. exists 0%nat, r0.
      split; [done |]. split; [done |]. split; [done |].
      intros j r' Hj. lia. }
    rewrite IH. split.
    + intros (i & r & Hi & Hl & Hs & Hpre). exists (S i), r.
      split; [done |]. split; [done |]. split; [done |].
      intros [|j] r' Hj Hr'; simpl in Hr'; [by injection Hr' as <- |].
      apply (Hpre j); [lia | done].
    + intros ([|i] & r & Hi & Hl & Hs & Hpre); simpl in Hi.
      * injection Hi as <-. congruence.
      * exists i, r. split; [done |]. split; [done |]. split; [done |].
        intros j r' Hj Hr'. apply (Hpre (S j)); [lia | done].
Qed.

End WallScan.

Lemma edges_clear_wf tm x w row :
  wf tm = true → edges_clear tm x w row ↔ row_clear tm x w row.
Proof.
  intros Hwf. unfold edges_clear, row_clear.
  rewrite !is_solid_at_wf by done. split; intros [H1 H2]; split; congruence.
Qed.

(** C8, as the code has it.  [check_wall_collision] samples every second
    row [y, y + 2, ...] below [y + h].  It answers none exactly when both
    edges are clear in every sampled row; otherwise it answers for the
    first sampled row with a solid edge: left when the left edge (column
    [x - 1]) is solid there, right when only the right edge (column
    [x + w]) is. *)
Theorem check_wall_collision_sampled tm x y w h :
  wf tm = true →
  ∃ res, check_wall_collision tm x y w h = Some res
    ∧ (res = None ↔
       ∀ k, 0 ≤ k → 2 * k < h → edges_clear tm x w (y + 2 * k))
    ∧ (res = Some left_side ↔
       ∃ k, 0 ≤ k ∧ 2 * k < h
         ∧ is_solid_at tm (x - 1) (y + 2 * k) = Some true
         ∧ ∀ j, 0 ≤ j < k → edges_clear tm x w (y + 2 * j))
    ∧ (res = Some right_side ↔
       ∃ k, 0 ≤ k ∧ 2 * k < h
         ∧ is_solid_at tm (x - 1) (y + 2 * k) = Some false
         ∧ is_solid_at tm (x + w) (y + 2 * k) = Some true
         ∧ ∀ j, 0 ≤ j < k → edges_clear tm x w (y + 2 * j)).
Proof.
  intros Hwf. unfold check_wall_collision. rewrite wall_scan_wf by done.
  eexists. split; [done |].
  assert (Hrow : ∀ k, 0 ≤ k → 2 * k < h →
            range2 y (y + h) !! Z.to_nat k = Some (y + 2 * k)).
  { intros k Hk Hlt. apply range2_lookup. lia. }
  assert (Hsol : ∀ c r b, is_solid_at tm c r = Some b ↔ solid tm c r = b).
  { intros c r b. rewrite is_solid_at_wf by done. split; congruence. }
  split; [|split].
  - rewrite wall_scan_pure_None. split.
    + intros H k Hk Hlt. apply edges_clear_wf; [done |]. eapply H, Hrow; lia.
    + intros H i r [-> Hlt]%range2_lookup.
      apply edges_clear_wf; [done |]. apply H; lia.
  - rewrite wall_scan_pure_left. split.
    + intros (i & r & [-> Hlt]%range2_lookup & Hs & Hpre).
      exists (Z.of_nat i). split; [lia |]. split; [lia |].
      split; [by apply Hsol |].
      intros j Hj. apply edges_clear_wf; [done |].
      apply (Hpre (Z.to_nat j)); [lia |]. apply Hrow; lia.
    + intros (k & Hk & Hlt & Hs%Hsol & Hpre).
      exists (Z.to_nat k), (y + 2 * k). split; [by apply Hrow |].
      split; [done |].
      intros j r' Hj [-> _]%range2_lookup.
      apply edges_clear_wf; [done |]. apply Hpre. lia.
  - rewrite wall_scan_pure_right. split.
    + intros (i & r & [-> Hlt]%range2_lookup & Hl & Hs & Hpre).
      exists (Z.of_nat i). split; [lia |]. split; [lia |].
      split; [by apply Hsol |]. split; [by apply Hsol |].
      intros j Hj. apply edges_clear_wf; [done |].
      apply (Hpre (Z.to_nat j)); [lia |]. apply Hrow; lia.
    + intros (k & Hk & Hlt & Hl%Hsol & Hs%Hsol & Hpre).
      exists (Z.to_nat k), (y + 2 * k). split; [by apply Hrow |].
      split; [done |]. split; [done |].
      intros j r' Hj [-> _]%range2_lookup.
      apply edges_clear_wf; [done |]. apply Hpre. lia.
Qed.

Lemma check_wall_collision_sampled_witness :
  ∃ res, check_wall_collision flat12 3 3 2 4 = Some res
    ∧ (res = None ↔
       ∀ k, 0 ≤ k → 2 * k < 4 → edges_clear flat12 3 2 (3 + 2 * k))
    ∧ (res = Some left_side ↔
       ∃ k, 0 ≤ k ∧ 2 * k < 4
         ∧ is_solid_at flat12 (3 - 1) (3 + 2 * k) = Some true
         ∧ ∀ j, 0 ≤ j < k → edges_clear flat12 3 2 (3 + 2 * j))
    ∧ (res = Some right_side ↔
       ∃ k, 0 ≤ k ∧ 2 * k < 4
         ∧ is_solid_at flat12 (3 - 1) (3 + 2 * k) = Some false
         ∧ is_solid_at flat12 (3 + 2) (3 + 2 * k) = Some true
         ∧ ∀ j, 0 ≤ j < k → edges_clear flat12 3 2 (3 + 2 * j)).
Proof. apply (check_wall_collision_sampled flat12 3 3 2 4). reflexivity. Defined.

(** C8 as stated fails on the rows the step of 2 skips: the rectangle
    [(3, 3, 2, 4)] spans rows 3..6, both its edges are solid in row 6, and
    the answer is none. *)
Lemma check_wall_collision_skips_odd_rows :
  3 ≤ 6 < 3 + 4
  ∧ is_solid_at flat12 (3 - 1) 6 = Some true
  ∧ is_solid_at flat12 (3 + 2) 6 = Some true
  ∧ check_wall_collision flat12 3 3 2 4 = Some None.
Proof. split; [lia |]. repeat split; vm_compute; reflexivity. Qed.

(** The first sampled row decides the side: with the spike of [spike10]
    at the right edge the answer is right, although the left edge is solid
    lower in the span. *)
Lemma check_wall_collision_first_row_wins :
  3 ≤ 8 < 3 + 7
  ∧ is_solid_at spike10 (1 - 1) 8 = Some true
  ∧ check_wall_collision spike10 1 3 1 7 = Some (Some right_side).
Proof. split; [lia |]. repeat split; vm_compute; reflexivity. Qed.

(** ** Crater merging *)

Lemma dist2_sym a b : dist2 a b = dist2 b a.
Proof. unfold dist2. ring. Qed.

Lemma overlaps_sym a b : overlaps a b = overlaps b a.
Proof.
  unfold overlaps. by rewrite dist2_sym, (Z.add_comm (crater_radius a)).
Qed.


Lemma merge_with_first_length current merged merged' :
  merge_with_first current merged = Some merged' →
  length merged' = length merged.
Proof.
  revert merged'. induction merged as [|m rest IH]; intros merged'; [done |].
  simpl. destruct (overlaps current m).
  - by intros [= <-].
  - destruct (merge_with_first current rest) as [l|]; [|done].
    simpl. intros [= <-]. simpl. f_equal. by apply IH.
Qed.

Lemma merge_crater_list_length cs :
  (length (merge_crater_list cs) ≤ max_craters)%nat.
Proof.
  unfold merge_crater_list, max_craters.
  destruct (Nat.ltb_spec (length cs) 2); [lia |].
  set (merged := foldl merge_step [] (sort_by_time cs)).
  destruct (Nat.ltb_spec 50 (length merged)); [|lia].
  rewrite length_drop. lia.
Qed.

(** C6. With exactly two crater records, [merge_overlapping_craters]
    leaves one record when the distance between the centres is below
    0.8 x (r1 + r2), and the two records, each as it was, when the
    distance is above it. *)
Theorem merge_two_craters tm a b :
  craters tm = [a; b] →
  ((center_distance a b
    < IZR (crater_radius a + crater_radius b) * (8 / 10))%R →
   ∃ c, craters (merge_overlapping_craters tm) = [c])
  ∧ ((IZR (crater_radius a + crater_radius b) * (8 / 10)
      < center_distance a b)%R →
     craters (merge_overlapping_craters tm) = [a; b]
     ∨ craters (merge_overlapping_craters tm) = [b; a]).
Proof.
  intros Hcs. simpl. rewrite Hcs. unfold merge_crater_list. simpl.
  split.
  - intros Hov%overlaps_center_distance.
    destruct (creation_time a <=? creation_time b); simpl;
      unfold merge_step; simpl.
    + rewrite overlaps_sym, Hov. simpl. by eexists.
    + rewrite Hov. simpl. by eexists.
  - intros Hfar.
    assert (overlaps a b = false) as Hov.
    { destruct (overlaps a b) eqn:E; [|done].
      apply overlaps_center_distance in E. lra. }
    destruct (creation_time a <=? creation_time b); simpl;
      unfold merge_step; simpl.
    + rewrite overlaps_sym, Hov. simpl. by left.
    + rewrite Hov. simpl. by right.
Qed.

Lemma merge_two_craters_witness :
  (∃ c, craters (merge_overlapping_craters two_craters) = [c])
  ∧ (craters (merge_overlapping_craters far_craters)
     = [mkCrater 200 520 30 1; mkCrater 400 530 35 2]
     ∨ craters (merge_overlapping_craters far_craters)
       = [mkCrater 400 530 35 2; mkCrater 200 520 30 1]).
Proof.
  split.
  - apply (merge_two_craters two_craters (mkCrater 400 510 50 1)
             (mkCrater 430 515 40 2) eq_refl).
    apply overlaps_center_distance. reflexivity.
  - apply (merge_two_craters far_craters (mkCrater 200 520 30 1)
             (mkCrater 400 530 35 2) eq_refl).
    apply sqrt_IZR_gt_scaled; [apply sum_squares_nonneg |].
    right. vm_compute. reflexivity.
Defined.

Example merge_scenario :
  craters (merge_overlapping_craters two_craters) = [mkCrater 411 511 70 2].
Proof. reflexivity. Qed.

(** C2 at a failing input.  After the three impacts of [chain_calls] the
    third crater has merged into the first, and the merged record overlaps
    the second one; a second consecutive call of
    [merge_overlapping_craters] merges the two and changes the list. *)
Theorem merge_overlapping_craters_second_call :
  ∃ tm, run field64 chain_calls = Some tm
    ∧ craters tm = [mkCrater 17 20 24 3; mkCrater 40 23 10 2]
    ∧ overlaps (mkCrater 17 20 24 3) (mkCrater 40 23 10 2) = true
    ∧ craters (merge_overlapping_craters tm) = [mkCrater 20 20 44 3]
    ∧ craters (merge_overlapping_craters tm) ≠ craters tm.
Proof.
  eexists. split; [vm_compute; reflexivity |].
  repeat split; try (vm_compute; reflexivity). vm_compute. discriminate.
Qed.

(** Without any overlap a second pass still reorders the list: the merged
    record takes the newest time and keeps the oldest position. *)
Example merge_crater_list_reorders :
  let cs := [mkCrater 10 20 10 1; mkCrater 60 20 10 2;
             mkCrater 24 21 10 3] in
  merge_crater_list cs = [mkCrater 17 20 24 3; mkCrater 60 20 10 2]
  ∧ merge_crater_list (merge_crater_list cs)
    = [mkCrater 60 20 10 2; mkCrater 17 20 24 3].
Proof. split; vm_compute; reflexivity. Qed.

(** ** Sequences of calls and the cap on the crater list *)

Lemma run_crater_count ops : ∀ tm n,
  wf tm = true → (length (craters tm) ≤ max_craters + n)%nat →
  ∃ tm', run tm ops = Some tm' ∧ wf tm' = true
    ∧ (length (craters tm') ≤ max_craters + pending n ops)%nat.
Proof.
  unfold run. induction ops as [|op ops IH]; intros tm n Hwf Hlen.
  - exists tm. done.
  - destruct op as [cx cy r now|]; simpl.
    + destruct (create_crater_spec tm cx cy r now Hwf)
        as (tm1 & -> & Hwf1 & _ & _ & _ & Hcr & _).
      rewrite bind_Some. apply IH; [done |].
      rewrite Hcr, length_app. cbn [length]. lia.
    + apply IH; [done |]. cbn [merge_overlapping_craters craters].
      pose proof (merge_crater_list_length (craters tm)). lia.
Qed.

(** C3, as the code has it.  From a state with at most 50 crater records,
    every sequence of [create_crater] and [merge_overlapping_craters]
    calls runs through, and leaves at most 50 records plus one for each
    [create_crater] since the last merge: the cap is enforced by the
    merge alone. *)
Theorem crater_list_bound tm ops :
  wf tm = true → (length (craters tm) ≤ max_craters)%nat →
  ∃ tm', run tm ops = Some tm'
    ∧ (length (craters tm') ≤ max_craters + pending 0 ops)%nat
    ∧ (∀ ops', ops = ops' ++ [MergeCraters] →
         (length (craters tm') ≤ max_craters)%nat).
Proof.
  intros Hwf Hlen.
  destruct (run_crater_count ops tm 0 Hwf) as (tm' & Hrun & _ & Hb); [lia |].
  exists tm'. split; [done |]. split; [done |].
  intros ops' ->. unfold pending in Hb. rewrite foldl_app in Hb.
  cbn [foldl] in Hb. lia.
Qed.

Lemma crater_list_bound_witness :
  ∃ tm', run flat12 [CreateCrater 5 7 2 1; CreateCrater 6 7 2 2; MergeCraters]
         = Some tm'
    ∧ (length (craters tm') ≤ max_craters
         + pending 0 [CreateCrater 5 7 2 1; CreateCrater 6 7 2 2; MergeCraters])%nat
    ∧ (∀ ops', [CreateCrater 5 7 2 1; CreateCrater 6 7 2 2; MergeCraters]
               = ops' ++ [MergeCraters] →
         (length (craters tm') ≤ max_craters)%nat).
Proof.
  apply (crater_list_bound flat12
           [CreateCrater 5 7 2 1; CreateCrater 6 7 2 2; MergeCraters]);
    [reflexivity | simpl; unfold max_craters; lia].
Defined.

(** C3 as stated fails: 51 calls of [create_crater] in a row leave 51
    records. *)
Lemma fifty_one_craters :
  ∃ tm', run flat12 (replicate 51 (CreateCrater 5 7 1 0)) = Some tm'
    ∧ length (craters tm') = 51%nat.
Proof. eexists. split; vm_compute; reflexivity. Qed.

(** ** The terrain generator: length and bounds *)

(** Truncation keeps an integer bound. *)
Lemma py_int_le (q : Q) (n : Z) : (q <= inject_Z n)%Q → py_int q ≤ n.
Proof.
  destruct q as [a b]. unfold Qle, py_int. simpl. intros H.
  rewrite Z.mul_1_r in H.
  destruct (Z_le_gt_dec 0 a).
  - rewrite Z.quot_div_nonneg by lia.
    apply Z.div_le_upper_bound; lia.
  - destruct (Z_le_gt_dec 0 n).
    + pose proof (Z.quot_opp_l a (Zpos b) ltac:(lia)) as Ho.
      assert (0 ≤ (- a) `quot` Zpos b) by (apply Z.quot_pos; lia). lia.
    + pose proof (Z.quot_opp_l a (Zpos b) ltac:(lia)) as Ho.
      rewrite Z.quot_div_nonneg in Ho by lia.
      assert (- n ≤ (- a) `div` Zpos b)
        by (apply Z.div_le_lower_bound; lia). lia.
Qed.

Lemma py_int_ge (q : Q) (n : Z) : (inject_Z n <= q)%Q → n ≤ py_int q.
Proof.
  destruct q as [a b]. unfold Qle, py_int. simpl. intros H.
  rewrite Z.mul_1_r in H.
  destruct (Z_le_gt_dec 0 a).
  - rewrite Z.quot_div_nonneg by lia.
    destruct (Z_le_gt_dec n 0).
    + assert (0 ≤ a `div` Zpos b) by (apply Z.div_pos; lia). lia.
    + apply Z.div_le_lower_bound; lia.
  - pose proof (Z.quot_opp_l a (Zpos b) ltac:(lia)) as Ho.
    rewrite Z.quot_div_nonneg in Ho by lia.
    assert ((- a) `div` Zpos b ≤ - n)
      by (apply Z.div_le_upper_bound; lia). lia.
Qed.

Lemma clamp_band (q : Q) :
  (inject_Z min_height
   <= py_max (inject_Z min_height) (py_min (inject_Z max_height) q)
   <= inject_Z max_height)%Q.
Proof.
  unfold py_max, py_min.
  assert (inject_Z min_height <= inject_Z max_height)%Q
    by (rewrite <- Zle_Qle; done).
  destruct (Qlt_le_dec q (inject_Z max_height));
    destruct (Qlt_le_dec (inject_Z min_height) _); split;
    try apply Qle_refl; try done; by apply Qlt_le_weak.
Qed.

Lemma column_height_band sin random complexity x :
  min_height ≤ column_height sin random complexity x ≤ max_height.
Proof.
  unfold column_height.
  match goal with
  | |- _ ≤ py_int (py_max _ (py_min _ ?t)) ≤ _ =>
      pose proof (clamp_band t) as [Hlo Hhi]
  end.
  split; [by apply py_int_ge | by apply py_int_le].
Qed.

Lemma generate_height_map_band sin random width complexity :
  length (generate_height_map sin random width complexity) = Z.to_nat width
  ∧ Forall (λ v, min_height ≤ v ≤ max_height)
      (generate_height_map sin random width complexity).
Proof.
  unfold generate_height_map, range. split.
  - rewrite length_fmap, length_seqZ. f_equal. lia.
  - apply Forall_fmap, Forall_forall. intros x _.
    apply column_height_band.
Qed.

Section DuneLemmas.
Variable pow : Q → Q → Q.
Variable complexity : Q.
Hypothesis complexity_nonneg : (0 <= complexity)%Q.

(** One column of one dune: the entry of column [x] is replaced by a
    value that is not larger; at the dune centre, when the power of a
    zero ratio is not positive, the whole dune height is taken off. *)
Lemma dune_column_step d (l : list Z) x :
  0 ≤ x < Z.of_nat (length l) → 0 ≤ dune_factor d →
  ∃ v v', l !! Z.to_nat x = Some v
    ∧ dune_column pow complexity d l x = Some (<[Z.to_nat x := v']> l)
    ∧ v' ≤ v
    ∧ (x = dune_center d → 0 < dune_width d →
       (∀ q e, (q == 0)%Q → (pow q e <= 0)%Q) →
       ∀ n, (inject_Z v - inject_Z (dune_factor d) * complexity
             <= inject_Z n)%Q → v' ≤ n).
Proof.
  intros Hx Hf.
  destruct (getitem_in_Some l x Hx) as (v & Hg & Hl).
  assert (Hdh : (0 <= inject_Z (dune_factor d) * complexity)%Q).
  { apply Qmult_le_0_compat; [|done].
    change 0%Q with (inject_Z 0). by rewrite <- Zle_Qle. }
  assert (Hkeep : Some l = Some (<[Z.to_nat x := v]> l))
    by (by rewrite list_insert_id).
  unfold dune_column.
  destruct (Z.ltb_spec (Z.abs (x - dune_center d)) (dune_width d)) as [Hd|Hd].
  2:{ exists v, v. split; [done |]. split; [done |]. split; [lia |]. lia. }
  set (ratio := (inject_Z (Z.abs (x - dune_center d))
                 / inject_Z (dune_width d))%Q).
  set (influence := if 0 <? (x - dune_center d) * steep_side d
                    then (1 - pow ratio 1.5)%Q else (1 - pow ratio 0.7)%Q).
  destruct (Qlt_le_dec 0 influence) as [Hi|Hi].
  - rewrite Hg, bind_Some, setitem_in by done.
    eexists v, _. split; [done |]. split; [done |].
    assert (Hadd : (0 <= influence * (inject_Z (dune_factor d) * complexity))%Q)
      by (apply Qmult_le_0_compat; [by apply Qlt_le_weak | done]).
    split.
    + apply py_int_le. lra.
    + intros -> Hw Hpow n Hn. apply py_int_le.
      assert (Hr : (ratio == 0)%Q).
      { unfold ratio. rewrite Z.sub_diag. simpl. unfold Qdiv.
        apply Qmult_0_l. }
      assert (Hinf : (1 <= influence)%Q).
      { unfold influence. rewrite Z.sub_diag. simpl.
        pose proof (Hpow ratio 0.7%Q Hr). lra. }
      assert ((inject_Z (dune_factor d) * complexity
               <= influence * (inject_Z (dune_factor d) * complexity))%Q).
      { generalize dependent (inject_Z (dune_factor d) * complexity)%Q.
        clearbody influence. intros dh Hdh0 _ _. nra. }
      lra.
  - exists v, v. split; [done |]. split; [done |]. split; [lia |].
    intros -> Hw Hpow n Hn. exfalso.
    assert (Hr : (ratio == 0)%Q).
    { unfold ratio. rewrite Z.sub_diag. simpl. unfold Qdiv.
      apply Qmult_0_l. }
    unfold influence in Hi. rewrite Z.sub_diag in Hi. simpl in Hi.
    pose proof (Hpow ratio 0.7%Q Hr). lra.
Qed.

(** One dune: the loop over the columns under it. *)
Lemma dune_pass d (l : list Z) :
  0 ≤ dune_factor d →
  ∃ l',
    for_in (range (Z.max 0 (dune_center d - dune_width d))
                  (Z.min (Z.of_nat (length l)) (dune_center d + dune_width d)))
      l (dune_column pow complexity d) = Some l'
    ∧ Forall2 Z.le l' l
    ∧ (0 ≤ dune_center d < Z.of_nat (length l) → 0 < dune_width d →
       (∀ q e, (q == 0)%Q → (pow q e <= 0)%Q) →
       ∀ v n, l !! Z.to_nat (dune_center d) = Some v →
         (inject_Z v - inject_Z (dune_factor d) * complexity
          <= inject_Z n)%Q →
         ∃ v', l' !! Z.to_nat (dune_center d) = Some v' ∧ v' ≤ n).
Proof.
  intros Hf.
  set (c := dune_center d). set (xs := range _ _).
  destruct (for_in_invariant
    (λ pre l1, Forall2 Z.le l1 l
       ∧ (c ∈ pre → 0 ≤ c → 0 < dune_width d →
          (∀ q e, (q == 0)%Q → (pow q e <= 0)%Q) →
          ∀ v n, l !! Z.to_nat c = Some v →
            (inject_Z v - inject_Z (dune_factor d) * complexity
             <= inject_Z n)%Q →
            ∃ v', l1 !! Z.to_nat c = Some v' ∧ v' ≤ n))
    (dune_column pow complexity d) xs l) as (l' & Hfor & Hle & Hc).
  - split; [apply Forall2_same_length_lookup_2; [done | intros; simplify_eq; lia] |].
    intros H. inversion H.
  - intros pre x l1 Hx%elem_of_range [Hle Hc].
    pose proof (Forall2_length _ _ _ Hle) as Hlen.
    destruct (dune_column_step d l1 x) as (v1 & v' & Hl1 & -> & Hv' & Hctr);
      [lia | done |].
    destruct (Forall2_lookup_l _ _ _ _ _ Hle Hl1) as (v0 & Hl0 & Hv10).
    eexists. split; [done |]. split.
    + rewrite <- (list_insert_id l (Z.to_nat x) v0) by done.
      apply Forall2_insert; [done | simpl in *; lia].
    + intros Hin Hc0 Hw Hpow v n Hv Hn.
      destruct (decide (x = c)) as [->|Hne].
      * exists v'. split; [apply list_lookup_insert_eq; lia |].
        apply Hctr; try done.
        assert (v0 = v) as -> by congruence.
        assert (inject_Z v1 <= inject_Z v)%Q
          by (rewrite <- Zle_Qle; simpl in *; lia).
        lra.
      * rewrite list_lookup_insert_ne by lia.
        assert (c ∈ pre) as Hpre.
        { apply elem_of_app in Hin as [Hin | Hin%list_elem_of_singleton];
            [done | congruence]. }
        apply (Hc Hpre Hc0 Hw Hpow v n Hv Hn).
  - exists l'. split; [done |]. split; [done |].
    intros Hin Hw. apply Hc; [| lia | done].
    apply elem_of_range. lia.
Qed.

(** All the dunes, when the map is wide enough for [randint]. *)
Lemma add_sand_dunes_spec draw (l : list Z) :
  200 ≤ Z.of_nat (length l) →
  (∀ i, 0 ≤ dune_factor (draw i)) →
  ∃ l', add_sand_dunes pow draw l complexity = Some l'
    ∧ Forall2 Z.le l' l
    ∧ ∀ c D v,
        (∀ i, dune_center (draw i) = c ∧ 0 < dune_width (draw i)
              ∧ (inject_Z D <= inject_Z (dune_factor (draw i)) * complexity)%Q) →
        (∀ q e, (q == 0)%Q → (pow q e <= 0)%Q) →
        0 ≤ c < Z.of_nat (length l) →
        l !! Z.to_nat c = Some v →
        ∃ v', l' !! Z.to_nat c = Some v'
          ∧ v' ≤ v - D * Z.max 0 (py_int (3 + complexity * 2)).
Proof.
  intros Hwide Hf. unfold add_sand_dunes.
  set (num := py_int (3 + complexity * 2)).
  destruct (for_in_invariant
    (λ pre l1, Forall2 Z.le l1 l
       ∧ ∀ c D v,
           (∀ i, dune_center (draw i) = c ∧ 0 < dune_width (draw i)
                 ∧ (inject_Z D
                    <= inject_Z (dune_factor (draw i)) * complexity)%Q) →
           (∀ q e, (q == 0)%Q → (pow q e <= 0)%Q) →
           0 ≤ c < Z.of_nat (length l) →
           l !! Z.to_nat c = Some v →
           ∃ v', l1 !! Z.to_nat c = Some v'
             ∧ v' ≤ v - D * Z.of_nat (length pre))
    (λ enhanced_map i,
       if Z.of_nat (length l) - 100 <? 100 then None
       else
         let d := draw i in
         for_in (range (Z.max 0 (dune_center d - dune_width d))
                       (Z.min (Z.of_nat (length l))
                              (dune_center d + dune_width d)))
           enhanced_map (dune_column pow complexity d))
    (range 0 num) l) as (l' & Hfor & Hle & Hc).
  - split; [apply Forall2_same_length_lookup_2; [done | intros; simplify_eq; lia] |].
    intros c D v _ _ _ Hv. exists v. split; [done |]. simpl. lia.
  - intros pre i l1 _ [Hle Hc].
    pose proof (Forall2_length _ _ _ Hle) as Hlen.
    destruct (Z.ltb_spec (Z.of_nat (length l) - 100) 100); [lia |].
    destruct (dune_pass (draw i) l1 (Hf i)) as (l2 & Hpass & Hle2 & Hctr).
    rewrite Hlen in Hpass. exists l2. split; [done |]. split.
    + eapply Forall2_trans; [| done | done]. simpl. intros; lia.
    + intros c D v Hd Hpow Hcr Hv.
      destruct (Hc c D v Hd Hpow Hcr Hv) as (v1 & Hv1 & Hb1).
      destruct (Hd i) as (Hci & Hwi & HD).
      destruct (Hctr ltac:(rewrite Hci; lia) Hwi Hpow v1 (v1 - D))
        as (v2 & Hv2 & Hb2).
      * by rewrite Hci.
      * unfold Z.sub. rewrite inject_Z_plus, inject_Z_opp. lra.
      * rewrite Hci in Hv2. exists v2. split; [done |].
        rewrite length_app. simpl. lia.
  - exists l'. split; [done |]. split; [done |].
    intros c D v Hd Hpow Hcr Hv.
    destruct (Hc c D v Hd Hpow Hcr Hv) as (v' & Hv' & Hb).
    exists v'. split; [done |].
    unfold range in Hb. rewrite length_seqZ in Hb.
    replace (Z.of_nat (Z.to_nat (num - 0))) with (Z.max 0 num) in Hb by lia.
    done.
Qed.

End DuneLemmas.

Lemma smoothed_value_le a b c (ma mb mc n : Z) :
  a ≤ ma → b ≤ mb → c ≤ mc → ma + 2 * mb + mc ≤ 4 * n →
  smoothed_value a b c ≤ n.
Proof.
  intros Ha Hb Hc Hn. apply py_int_le.
  assert (a + 2 * b + c ≤ 4 * n) as H by lia.
  rewrite Zle_Qle in H.
  rewrite !inject_Z_plus, !inject_Z_mult in H.
  change (inject_Z 2) with 2%Q in H. change (inject_Z 4) with 4%Q in H.
  lra.
Qed.

Lemma smooth_pass_spec (l : list Z) :
  ∃ l', smooth_pass l = Some l' ∧ length l' = length l
    ∧ ∀ k : nat,
        (1 ≤ Z.of_nat k < Z.of_nat (length l) - 1 →
         ∃ a b c, l !! (k - 1)%nat = Some a ∧ l !! k = Some b
           ∧ l !! (k + 1)%nat = Some c
           ∧ l' !! k = Some (smoothed_value a b c))
        ∧ (¬ (1 ≤ Z.of_nat k < Z.of_nat (length l) - 1) →
           l' !! k = l !! k).
Proof.
  unfold smooth_pass.
  destruct (for_in_invariant
    (λ pre l1, length l1 = length l
       ∧ ∀ k : nat,
           (Z.of_nat k ∈ pre →
            ∃ a b c, l !! (k - 1)%nat = Some a ∧ l !! k = Some b
              ∧ l !! (k + 1)%nat = Some c
              ∧ l1 !! k = Some (smoothed_value a b c))
           ∧ (Z.of_nat k ∉ pre → l1 !! k = l !! k))
    (λ new_smoothed i,
       a ← getitem l (i - 1);
       b ← getitem l i;
       c ← getitem l (i + 1);
       setitem new_smoothed i
         (py_int (inject_Z a * 0.25 + inject_Z b * 0.5 + inject_Z c * 0.25)))
    (range 1 (Z.of_nat (length l) - 1)) l) as (l' & Hfor & Hlen & Hval).
  - split; [done |]. intros k. split; [intros H; inversion H | done].
  - intros pre i l1 Hi%elem_of_range [Hlen Hval].
    destruct (getitem_in_Some l (i - 1)) as (a & -> & Ha); [lia |].
    destruct (getitem_in_Some l i) as (b & -> & Hb); [lia |].
    destruct (getitem_in_Some l (i + 1)) as (c & -> & Hc); [lia |].
    rewrite !bind_Some, setitem_in by lia.
    eexists. split; [done |]. rewrite length_insert. split; [done |].
    intros k. destruct (decide (Z.of_nat k = i)) as [<-|Hne].
    + split.
      2:{ intros Hn. exfalso. apply Hn, elem_of_app. right.
          by apply list_elem_of_singleton. }
      intros _. exists a, b, c.
      replace (k - 1)%nat with (Z.to_nat (Z.of_nat k - 1)) by lia.
      replace (k + 1)%nat with (Z.to_nat (Z.of_nat k + 1)) by lia.
      rewrite Nat2Z.id in Hb. split; [done |]. split; [done |].
      split; [done |]. rewrite Nat2Z.id.
      apply list_lookup_insert_eq. lia.
    + rewrite list_lookup_insert_ne by lia.
      destruct (Hval k) as [Hin Hout]. split.
      * intros [H| H%list_elem_of_singleton]%elem_of_app; [auto | done].
      * intros H. apply Hout. intros Hp. apply H, elem_of_app. by left.
  - exists l'. split; [done |]. split; [done |].
    intros k. destruct (Hval k) as [Hin Hout]. split.
    + intros Hk. apply Hin. by apply elem_of_range.
    + intros Hk. apply Hout. by rewrite elem_of_range.
Qed.

Lemma smooth_terrain_once (l : list Z) :
  smooth_terrain l 1 = smooth_pass l.
Proof.
  unfold smooth_terrain. change (range 0 1) with [0]. simpl.
  by destruct (smooth_pass l).
Qed.

Lemma smooth_pass_upper (l l' : list Z) M :
  smooth_pass l = Some l' → Forall (λ v, v ≤ M) l → Forall (λ v, v ≤ M) l'.
Proof.
  intros Hs Hl. destruct (smooth_pass_spec l) as (l1 & Hs1 & Hlen & Hval).
  rewrite Hs in Hs1. injection Hs1 as <-.
  rewrite Forall_lookup in Hl. apply Forall_lookup. intros k v Hk.
  destruct (Hval k) as [Hin Hout].
  destruct (decide (1 ≤ Z.of_nat k < Z.of_nat (length l) - 1)) as [Hr|Hr].
  - destruct (Hin Hr) as (a & b & c & Ha & Hb & Hc & Hv).
    rewrite Hv in Hk. injection Hk as <-.
    apply (smoothed_value_le a b c M M M); eauto; lia.
  - rewrite (Hout Hr) in Hk. eauto.
Qed.

(** C9, as the code has it.  The base generator returns [width] integers
    inside the clamped band.  The complete generator adds the dunes after
    the clamp: for a width of at least 200 it returns [width] integers
    that stay at or below the band's maximum; about the band's minimum it
    promises nothing. *)
Theorem generator_output sin random pow draw width complexity :
  0 < width → (0 < complexity)%Q → (∀ i, 0 ≤ dune_factor (draw i)) →
  length (generate_height_map sin random width complexity) = Z.to_nat width
  ∧ Forall (λ v, min_height ≤ v ≤ max_height)
      (generate_height_map sin random width complexity)
  ∧ (200 ≤ width →
     ∃ out,
       generate_varied_terrain sin random pow draw width complexity = Some out
       ∧ length out = Z.to_nat width
       ∧ Forall (λ v, v ≤ max_height) out).
Proof.
  intros Hw Hc Hf.
  destruct (generate_height_map_band sin random width complexity)
    as [Hlen Hband].
  split; [done |]. split; [done |]. intros Hwide.
  unfold generate_varied_terrain.
  destruct (add_sand_dunes_spec pow complexity (Qlt_le_weak _ _ Hc) draw
              (generate_height_map sin random width complexity))
    as (dunes & -> & Hle & _); [lia | done |].
  rewrite bind_Some, smooth_terrain_once.
  destruct (smooth_pass_spec dunes) as (out & Hs & Hlo & _).
  exists out. split; [done |]. split.
  - rewrite Hlo, (Forall2_length _ _ _ Hle). done.
  - apply (smooth_pass_upper dunes); [done |].
    eapply Forall2_Forall_l; [done |].
    eapply Forall_impl; [done |]. simpl. intros v Hv v' Hv'. lia.
Qed.

Lemma generator_output_witness :
  length (generate_height_map flat_sin mid_random 200 1) = Z.to_nat 200
  ∧ Forall (λ v, min_height ≤ v ≤ max_height)
      (generate_height_map flat_sin mid_random 200 1)
  ∧ (200 ≤ 200 →
     ∃ out,
       generate_varied_terrain flat_sin mid_random linear_pow
         (λ _, mkDuneDraw 100 80 30 1) 200 1 = Some out
       ∧ length out = Z.to_nat 200
       ∧ Forall (λ v, v ≤ max_height) out).
Proof.
  apply (generator_output flat_sin mid_random linear_pow
           (λ _, mkDuneDraw 100 80 30 1) 200 1);
    [lia | reflexivity | intros i; simpl; lia].
Defined.

(** Seven dunes of height 120 on one centre take the smoothed height at
    the centre below 260, whatever the sines and the jitter are, for any
    power function that is not positive at a zero ratio. *)
Lemma varied_terrain_dips sin random pow :
  (∀ q e, (q == 0)%Q → (pow q e <= 0)%Q) →
  ∃ out v,
    generate_varied_terrain sin random pow same_dune SCREEN_WIDTH 2 = Some out
    ∧ out !! 640%nat = Some v ∧ v ≤ 260.
Proof.
  intros Hpow. unfold generate_varied_terrain.
  destruct (generate_height_map_band sin random SCREEN_WIDTH 2)
    as [Hlen Hband].
  set (base := generate_height_map sin random SCREEN_WIDTH 2) in *.
  assert (Hl : Z.of_nat (length base) = 1280) by (rewrite Hlen; done).
  destruct (add_sand_dunes_spec pow 2 ltac:(done) same_dune base)
    as (dunes & -> & Hle & Hctr); [lia | intros; simpl; lia |].
  rewrite bind_Some, smooth_terrain_once.
  destruct (smooth_pass_spec dunes) as (out & Hs & Hlo & Hval).
  pose proof (Forall2_length _ _ _ Hle) as Hld.
  destruct (Hval 640%nat) as [Hin _].
  destruct Hin as (a & b & c & Ha & Hb & Hc & Hv); [lia |].
  exists out, (smoothed_value a b c). split; [done |]. split; [done |].
  assert (Hup : ∀ k v, dunes !! k = Some v → v ≤ max_height).
  { intros k v Hk.
    destruct (Forall2_lookup_l _ _ _ _ _ Hle Hk) as (v0 & Hv0 & Hvv0).
    rewrite Forall_lookup in Hband. specialize (Hband k v0 Hv0).
    simpl in *. lia. }
  destruct (lookup_lt_is_Some_2 base 640) as [v0 Hv0]; [lia |].
  assert (Hsame : ∀ i, dune_center (same_dune i) = 640
            ∧ 0 < dune_width (same_dune i)
            ∧ (inject_Z 120 <= inject_Z (dune_factor (same_dune i)) * 2)%Q).
  { intros i. simpl. split; [done |]. split; [lia | done]. }
  destruct (Hctr 640 120 v0 Hsame Hpow ltac:(lia) Hv0) as (b' & Hb' & Hbb).
  change (Z.to_nat 640) with 640%nat in Hb'.
  assert (b' = b) as -> by congruence.
  assert (v0 ≤ max_height)
    by (rewrite Forall_lookup in Hband; apply (Hband 640%nat v0 Hv0)).
  change (py_int (3 + 2 * 2)) with 7 in Hbb.
  apply (smoothed_value_le a b c max_height (max_height - 840) max_height);
    eauto; unfold max_height, SCREEN_HEIGHT in *; lia.
Qed.

(** C9 as stated fails for the complete generator: with width 1280 and
    complexity 2.0 the value at column 640 leaves the band. *)
Lemma varied_terrain_below_band :
  ∃ out v,
    generate_varied_terrain flat_sin mid_random linear_pow same_dune
      SCREEN_WIDTH 2 = Some out
    ∧ out !! 640%nat = Some v ∧ v < min_height.
Proof.
  destruct (varied_terrain_dips flat_sin mid_random linear_pow)
    as (out & v & Hout & Hv & Hle).
  - intros q e Hq. unfold linear_pow. rewrite Hq. apply Qle_refl.
  - exists out, v. split; [done |]. split; [done |].
    unfold min_height, SCREEN_HEIGHT. lia.
Qed.

(** A narrow map makes [random.randint(100, width - 100)] raise. *)
Example varied_terrain_narrow :
  generate_varied_terrain flat_sin mid_random linear_pow same_dune 150 1
  = None.
Proof. vm_compute. reflexivity. Qed.

(** ** Construction establishes the invariants *)

Lemma px_blank w h x y :
  px (replicate (Z.to_nat w) (replicate (Z.to_nat h) false)) x y = false.
Proof.
  unfold px. destruct (replicate (Z.to_nat w) _ !! Z.to_nat x) as [col|] eqn:E;
    [|done].
  apply lookup_replicate in E as [-> _].
  destruct (replicate (Z.to_nat h) false !! Z.to_nat y) as [b|] eqn:E2;
    [|done].
  by apply lookup_replicate in E2 as [-> _].
Qed.

Lemma grid_dims_blank w h :
  0 ≤ w → 0 ≤ h →
  grid_dims (replicate (Z.to_nat w) (replicate (Z.to_nat h) false)) w h = true.
Proof.
  intros Hw Hh. apply grid_dims_spec. rewrite length_replicate.
  split; [lia |]. intros k col [-> _]%lookup_replicate.
  rewrite length_replicate. lia.
Qed.

Lemma fill_column_spec g w h x gh :
  grid_dims g w h = true → 0 ≤ x < w → 0 ≤ gh →
  ∃ g', for_in (range gh h) g (λ g y, set_pixel g x y true) = Some g'
    ∧ grid_dims g' w h = true
    ∧ ∀ x' y', 0 ≤ x' → 0 ≤ y' →
        px g' x' y' = px g x' y' || ((x' =? x) && in_range gh h y').
Proof.
  intros Hd Hx Hgh.
  destruct (for_in_invariant
    (λ pre g', grid_dims g' w h = true ∧
       ∀ x' y', 0 ≤ x' → 0 ≤ y' →
         px g' x' y' = px g x' y' || ((x' =? x) && bool_decide (y' ∈ pre)))
    (λ g y, set_pixel g x y true) (range gh h) g) as (g' & Hg' & Hd' & Hpx).
  - split; [done |]. intros x' y' _ _.
    rewrite bool_decide_eq_false_2 by (intros H; inversion H).
    by rewrite andb_false_r, orb_false_r.
  - intros pre y g1 Hy%elem_of_range [Hd1 Hpx1].
    destruct (set_pixel_in g1 w h x y true Hd1 Hx) as (g2 & Hs & Hd2 & Hpx2);
      [lia |].
    exists g2. split; [done |]. split; [done |].
    intros x' y' Hx' Hy'. rewrite Hpx2, Hpx1 by done.
    assert (Hmem : bool_decide (y' ∈ pre ++ [y])
                   = bool_decide (y' ∈ pre) || (y' =? y)).
    { apply eq_true_iff_eq.
      rewrite orb_true_iff, !bool_decide_eq_true, Z.eqb_eq.
      rewrite elem_of_app, list_elem_of_singleton. done. }
    rewrite Hmem.
    destruct (px g x' y'), (x' =? x), (y' =? y), (bool_decide (y' ∈ pre));
      done.
  - exists g'. split; [done |]. split; [done |].
    intros x' y' Hx' Hy'. rewrite Hpx by done. by rewrite in_range_decide.
Qed.

(** The constructor on a level or on a full profile inside the grid. *)
Lemma new_TerrainMap_correct w h arg :
  0 ≤ w → 0 ≤ h →
  match arg with Profile l => l ≠ [] | Level _ => True end →
  Z.of_nat (length (profile_of w arg)) = w →
  Forall (λ v, 0 ≤ v ≤ h) (profile_of w arg) →
  ∃ tm, new_TerrainMap w h arg = Some tm
    ∧ wf tm = true ∧ consistent tm = true
    ∧ width tm = w ∧ height tm = h
    ∧ height_map tm = profile_of w arg ∧ craters tm = []
    ∧ ∀ x y v, profile_of w arg !! Z.to_nat x = Some v →
        0 ≤ x → 0 ≤ y < h →
        is_solid_at tm x y = Some (v <=? y).
Proof.
  intros Hw Hh Hne Hlen Hband. unfold new_TerrainMap.
  set (hm := profile_of w arg) in *.
  set (gl := match arg with
             | Level g => g
             | Profile l => sumZ l `div` Z.of_nat (length l)
             end).
  assert (Harg : match arg with
                 | Profile l =>
                     if decide (l = []) then None
                     else Some (l, sumZ l `div` Z.of_nat (length l))
                 | Level g => Some (replicate (Z.to_nat w) g, g)
                 end = Some (hm, gl)).
  { unfold hm, gl. destruct arg as [g|l]; simpl; [done |].
    by destruct (decide (l = [])). }
  rewrite Harg, bind_Some. simpl.
  set (blank := replicate (Z.to_nat w) (replicate (Z.to_nat h) false)).
  destruct (for_in_invariant
    (λ pre g', grid_dims g' w h = true ∧
       ∀ x y, 0 ≤ x → 0 ≤ y →
         px g' x y
         = bool_decide (x ∈ pre)
           && match hm !! Z.to_nat x with
              | Some v => in_range v h y
              | None => false
              end)
    (λ g x,
       gh ← (if x <? Z.of_nat (length hm) then getitem hm x else Some gl);
       for_in (range gh h) g (λ g y, set_pixel g x y true))
    (range 0 w) blank) as (g & Hg & Hd & Hpx).
  - split; [by apply grid_dims_blank |]. intros x y _ _.
    unfold blank. rewrite px_blank.
    by rewrite bool_decide_eq_false_2 by (intros H; inversion H).
  - intros pre x g1 Hx%elem_of_range [Hd1 Hpx1].
    destruct (Z.ltb_spec x (Z.of_nat (length hm))); [|lia].
    destruct (getitem_in_Some hm x) as (v & -> & Hv); [lia |].
    rewrite bind_Some.
    assert (0 ≤ v ≤ h) as Hvb
      by (rewrite Forall_lookup in Hband; eapply Hband; done).
    destruct (fill_column_spec g1 w h x v Hd1) as (g2 & -> & Hd2 & Hpx2);
      [lia | lia |].
    exists g2. split; [done |]. split; [done |].
    intros x' y' Hx' Hy'. rewrite Hpx2, Hpx1 by done.
    assert (Hmem : bool_decide (x' ∈ pre ++ [x])
                   = bool_decide (x' ∈ pre) || (x' =? x)).
    { apply eq_true_iff_eq.
      rewrite orb_true_iff, !bool_decide_eq_true, Z.eqb_eq.
      rewrite elem_of_app, list_elem_of_singleton. done. }
    rewrite Hmem. destruct (Z.eqb_spec x' x) as [->|Hne'].
    + rewrite Hv. destruct (bool_decide (x ∈ pre)), (in_range v h y'); done.
    + simpl. by rewrite !orb_false_r.
  - rewrite Hg, bind_Some.
    assert (Hcell : ∀ x y v, hm !! Z.to_nat x = Some v → 0 ≤ x → 0 ≤ y →
              px g x y = in_range v h y).
    { intros x y v Hv Hx Hy. rewrite Hpx by done. rewrite Hv.
      rewrite bool_decide_eq_true_2; [done |].
      apply elem_of_range. apply lookup_lt_Some in Hv. lia. }
    eexists. split; [done |]. simpl.
    split; [apply wf_spec; simpl; done |]. split.
    { apply consistent_spec. simpl. intros x Hx.
      destruct (lookup_lt_is_Some_2 hm (Z.to_nat x)) as [v Hv]; [lia |].
      rewrite Hv. f_equal.
      assert (0 ≤ v ≤ h) as Hvb
        by (rewrite Forall_lookup in Hband; eapply Hband; done).
      destruct (top_row_spec g x h) as [[Ht Hn] | (Ht & Hp & Hn)].
      - destruct (decide (v = h)) as [|Hvh]; [congruence |].
        specialize (Hn v ltac:(lia)).
        rewrite (Hcell x v v Hv) in Hn by lia.
        apply not_true_iff_false in Hn. exfalso. apply Hn, in_range_spec. lia.
      - rewrite (Hcell x _ v Hv) in Hp by lia.
        apply in_range_spec in Hp.
        destruct (decide (v = top_row g x h)) as [|Hvt]; [done |].
        specialize (Hn v ltac:(lia)).
        rewrite (Hcell x v v Hv) in Hn by lia.
        apply not_true_iff_false in Hn. exfalso. apply Hn, in_range_spec. lia. }
    do 4 (split; [done |]).
    intros x y v Hv Hx Hy.
    rewrite is_solid_at_wf by (apply wf_spec; simpl; done).
    f_equal. unfold solid. simpl.
    pose proof (lookup_lt_Some _ _ _ Hv) as Hlt.
    destruct (in_range_spec 0 w x) as [_ ->]; [|lia].
    destruct (in_range_spec 0 h y) as [_ ->]; [|lia]. simpl.
    rewrite (Hcell x y v Hv) by lia.
    unfold in_range. destruct (Z.ltb_spec y h); [|lia]. by rewrite andb_true_r.
Qed.

(** The constructor, for a level or a full profile inside the grid, yields
    a well-formed map whose height profile agrees with the grid, with the
    rows at or below each column's height solid. *)
Theorem new_TerrainMap_spec w h arg :
  0 ≤ w → 0 ≤ h →
  match arg with Profile l => l ≠ [] | Level _ => True end →
  Z.of_nat (length (profile_of w arg)) = w →
  Forall (λ v, 0 ≤ v ≤ h) (profile_of w arg) →
  ∃ tm, new_TerrainMap w h arg = Some tm
    ∧ wf tm = true ∧ consistent tm = true
    ∧ width tm = w ∧ height tm = h
    ∧ height_map tm = profile_of w arg ∧ craters tm = []
    ∧ ∀ x y v, profile_of w arg !! Z.to_nat x = Some v →
        0 ≤ x → 0 ≤ y < h →
        is_solid_at tm x y = Some (v <=? y).
Proof. apply new_TerrainMap_correct. Qed.

Lemma new_TerrainMap_spec_witness :
  ∃ tm, new_TerrainMap 12 12 (Level 6) = Some tm
    ∧ wf tm = true ∧ consistent tm = true
    ∧ width tm = 12 ∧ height tm = 12
    ∧ height_map tm = profile_of 12 (Level 6) ∧ craters tm = []
    ∧ ∀ x y v, profile_of 12 (Level 6) !! Z.to_nat x = Some v →
        0 ≤ x → 0 ≤ y < 12 →
        is_solid_at tm x y = Some (v <=? y).
Proof.
  apply (new_TerrainMap_spec 12 12 (Level 6));
    [lia | lia | done | reflexivity | by repeat constructor].
Defined.

(** ** The merge arithmetic in binary64: agreement on the evaluated inputs *)

(** On the craters evaluated in this file the doubles give what the
    reading over the reals gives. *)
Example binary64_chain :
  let a := mkCrater 10 20 10 1 in
  let b := mkCrater 40 23 10 2 in
  let c := mkCrater 24 21 10 3 in
  let ac := mkCrater 17 20 24 3 in
  Binary64.overlaps b a = overlaps b a
  ∧ Binary64.overlaps c a = overlaps c a
  ∧ Binary64.merge_records c a = Some (merge_records c a)
  ∧ Binary64.overlaps ac b = overlaps ac b
  ∧ Binary64.merge_records ac b = Some (merge_records ac b).
Proof. repeat split; vm_compute; reflexivity. Qed.

Example binary64_scenario :
  let a := mkCrater 400 510 50 1 in
  let b := mkCrater 430 515 40 2 in
  Binary64.overlaps b a = overlaps b a
  ∧ Binary64.merge_records b a = Some (merge_records b a).
Proof. repeat split; vm_compute; reflexivity. Qed.

(** * Part IV. Further properties of the code *)

(** ** The queries of [TerrainMap] *)

(** [is_solid_at] answers false outside the grid, whatever the state is,
    and never raises on a well-formed map. *)
Theorem is_solid_at_bounds tm x y :
  wf tm = true →
  is_Some (is_solid_at tm x y)
  ∧ (x < 0 ∨ width tm ≤ x ∨ y < 0 ∨ height tm ≤ y →
     is_solid_at tm x y = Some false).
Proof.
  intros Hwf. split.
  - rewrite is_solid_at_wf by done. by eexists.
  - intros Hout. rewrite is_solid_at_wf by done. f_equal.
    unfold solid, in_range.
    destruct (Z.leb_spec 0 x), (Z.ltb_spec x (width tm)),
      (Z.leb_spec 0 y), (Z.ltb_spec y (height tm)); simpl; try done; lia.
Qed.

Lemma is_solid_at_bounds_witness :
  is_Some (is_solid_at flat12 (-1) 7)
  ∧ (-1 < 0 ∨ width flat12 ≤ -1 ∨ 7 < 0 ∨ height flat12 ≤ 7 →
     is_solid_at flat12 (-1) 7 = Some false).
Proof. apply (is_solid_at_bounds flat12 (-1) 7). reflexivity. Defined.

Lemma window_fold_le tm xi dxs m :
  foldl (window_step tm xi) m dxs ≤ m.
Proof.
  revert m. induction dxs as [|dx dxs IH]; intros m; [simpl; lia |].
  simpl. etrans; [apply IH |]. unfold window_step.
  destruct ((0 <=? xi + dx) && (xi + dx <? width tm)); [|lia].
  destruct (first_solid _ _ _); lia.
Qed.

Lemma window_fold_mono tm xi dxs m m' :
  m ≤ m' → foldl (window_step tm xi) m dxs ≤ foldl (window_step tm xi) m' dxs.
Proof.
  revert m m'. induction dxs as [|dx dxs IH]; intros m m' Hm; [done |].
  simpl. apply IH. unfold window_step.
  destruct ((0 <=? xi + dx) && (xi + dx <? width tm)); [|lia].
  destruct (first_solid _ _ _); lia.
Qed.

(** The fold is below the top of every non-empty column it visits. *)
Lemma window_fold_below tm xi dxs m dx y :
  dx ∈ dxs → 0 ≤ xi + dx < width tm →
  first_solid (terrain_pixels tm) (xi + dx) (range 0 (height tm)) = Some y →
  foldl (window_step tm xi) m dxs ≤ y.
Proof.
  revert m. induction dxs as [|d dxs IH]; intros m Hin Hc Hy;
    [inversion Hin |].
  simpl. apply elem_of_cons in Hin as [<-|Hin]; [|by apply IH].
  etrans; [apply window_fold_le |]. unfold window_step. rewrite Hy.
  destruct (Z.leb_spec 0 (xi + dx)), (Z.ltb_spec (xi + dx) (width tm));
    simpl; lia.
Qed.

(** The fold is its start value or the top of a column it visits. *)
Lemma window_fold_attained tm xi dxs m :
  foldl (window_step tm xi) m dxs = m
  ∨ ∃ dx, dx ∈ dxs ∧ 0 ≤ xi + dx < width tm
      ∧ first_solid (terrain_pixels tm) (xi + dx) (range 0 (height tm))
        = Some (foldl (window_step tm xi) m dxs).
Proof.
  revert m. induction dxs as [|d dxs IH]; intros m; [by left |].
  simpl. destruct (IH (window_step tm xi m d)) as [Heq | (dx & Hin & Hc & Hf)].
  - rewrite Heq. unfold window_step.
    destruct (Z.leb_spec 0 (xi + d)), (Z.ltb_spec (xi + d) (width tm));
      simpl; try by left.
    destruct (first_solid _ (xi + d) _) as [y|] eqn:E; [|by left].
    destruct (Z.min_spec m y) as [[_ ->] | [_ ->]]; [by left |].
    right. exists d. split; [left |]. done.
  - right. exists dx. split; [by right |]. done.
Qed.

Lemma top_row_Some g c h y :
  first_solid g c (range 0 h) = Some y → top_row g c h = y.
Proof. unfold top_row. by intros ->. Qed.

Lemma top_row_None g c h :
  first_solid g c (range 0 h) = None → top_row g c h = h.
Proof. unfold top_row. by intros ->. Qed.

(** On a map whose height profile agrees with the grid,
    [get_ground_height(x)] is the minimum of the profile over the columns
    of the grid within 3 of the clamped column. *)
Theorem get_ground_height_window_min tm x :
  wf tm = true → consistent tm = true → 0 < width tm →
  ∃ g, get_ground_height tm x = Some g
    ∧ (∀ c, clamp_column tm x - search_radius ≤ c
            ≤ clamp_column tm x + search_radius →
          0 ≤ c < width tm →
          ∃ v, getitem (height_map tm) c = Some v ∧ g ≤ v)
    ∧ (∃ c, clamp_column tm x - search_radius ≤ c
            ≤ clamp_column tm x + search_radius
          ∧ 0 ≤ c < width tm
          ∧ getitem (height_map tm) c = Some g).
Proof.
  intros Hwf Hcons Hpos.
  destruct (get_ground_height_wf tm x Hwf Hpos) as (m0 & Hm0 & ->).
  pose proof Hwf as [Hd Hlen]%wf_spec.
  pose proof (clamp_column_range tm x Hpos) as Hxi.
  pose proof (wf_height_nonneg tm Hwf Hpos) as Hh.
  rewrite consistent_spec in Hcons.
  set (xi := clamp_column tm x) in *.
  set (dxs := range (- search_radius) (search_radius + 1)).
  assert (Hm0' : m0 = top_row (terrain_pixels tm) xi (height tm))
    by (rewrite Hcons in Hm0 by done; congruence).
  eexists. split; [done |]. split.
  - intros c Hc Hcr. exists (top_row (terrain_pixels tm) c (height tm)).
    rewrite getitem_in by lia. split; [by apply Hcons |].
    destruct (first_solid (terrain_pixels tm) c (range 0 (height tm)))
      as [y|] eqn:E.
    + rewrite (top_row_Some _ _ _ _ E).
      replace c with (xi + (c - xi)) in E, Hcr by lia.
      eapply window_fold_below; [| done | done].
      apply elem_of_range. unfold search_radius in *. lia.
    + rewrite (top_row_None _ _ _ E).
      etrans; [apply window_fold_le |]. rewrite Hm0'.
      by apply top_row_le_height.
  - destruct (window_fold_attained tm xi dxs m0) as [-> | (dx & Hin & Hc & Hf)].
    + exists xi. split; [unfold search_radius; lia |]. split; [done |].
      by rewrite getitem_in by lia.
    + exists (xi + dx). apply elem_of_range in Hin.
      split; [unfold search_radius in *; lia |]. split; [done |].
      rewrite getitem_in by lia. rewrite Hcons by done.
      by rewrite (top_row_Some _ _ _ _ Hf).
Qed.

Lemma get_ground_height_window_min_witness :
  ∃ g, get_ground_height spike10 4 = Some g
    ∧ (∀ c, clamp_column spike10 4 - search_radius ≤ c
            ≤ clamp_column spike10 4 + search_radius →
          0 ≤ c < width spike10 →
          ∃ v, getitem (height_map spike10) c = Some v ∧ g ≤ v)
    ∧ (∃ c, clamp_column spike10 4 - search_radius ≤ c
            ≤ clamp_column spike10 4 + search_radius
          ∧ 0 ≤ c < width spike10
          ∧ getitem (height_map spike10) c = Some g).
Proof.
  apply (get_ground_height_window_min spike10 4);
    [reflexivity | reflexivity | simpl; lia].
Defined.

Lemma is_solid_at_px tm x y :
  wf tm = true → 0 ≤ x < width tm → 0 ≤ y < height tm →
  is_solid_at tm x y = Some (px (terrain_pixels tm) x y).
Proof.
  intros Hwf Hx Hy. rewrite is_solid_at_wf by done. unfold solid.
  destruct (in_range_spec 0 (width tm) x) as [_ ->]; [|done].
  destruct (in_range_spec 0 (height tm) y) as [_ ->]; done.
Qed.

(** From a start row inside or below the grid,
    [get_accurate_ground_height] returns the first solid row of the
    clamped column at or below the start row, or the grid height when
    there is none. *)
Theorem get_accurate_ground_height_first_solid tm x y_start :
  wf tm = true → 0 < width tm → 0 ≤ y_start →
  ∃ r, get_accurate_ground_height tm x (Some y_start) = Some r
    ∧ ((r = height tm
        ∧ ∀ y, y_start ≤ y < height tm →
            is_solid_at tm (clamp_column tm x) y = Some false)
       ∨ (y_start ≤ r < height tm
          ∧ is_solid_at tm (clamp_column tm x) r = Some true
          ∧ ∀ y, y_start ≤ y < r →
              is_solid_at tm (clamp_column tm x) y = Some false)).
Proof.
  intros Hwf Hpos Hys. pose proof Hwf as [Hd _]%wf_spec.
  pose proof (clamp_column_range tm x Hpos) as Hxi.
  unfold get_accurate_ground_height. cbv zeta.
  change (default 0 (Some y_start)) with y_start.
  rewrite (scan_solid_in _ (width tm) (height tm))
    by (try done; intros y Hy%elem_of_range; lia).
  rewrite bind_Some.
  destruct (first_solid (terrain_pixels tm) (clamp_column tm x)
              (range y_start (height tm))) as [r|] eqn:E.
  - exists r. split; [done |]. right.
    apply first_solid_range_Some in E as (Hr & Hp & Hn).
    split; [done |]. split.
    + rewrite is_solid_at_px by (try done; lia). by f_equal.
    + intros y Hy. rewrite is_solid_at_px by (try done; lia).
      f_equal. by apply Hn.
  - exists (height tm). split; [done |]. left. split; [done |].
    rewrite first_solid_range_None in E.
    intros y Hy. rewrite is_solid_at_px by (try done; lia).
    f_equal. by apply E.
Qed.

Lemma get_accurate_ground_height_first_solid_witness :
  ∃ r, get_accurate_ground_height spike10 2 (Some 1) = Some r
    ∧ ((r = height spike10
        ∧ ∀ y, 1 ≤ y < height spike10 →
            is_solid_at spike10 (clamp_column spike10 2) y = Some false)
       ∨ (1 ≤ r < height spike10
          ∧ is_solid_at spike10 (clamp_column spike10 2) r = Some true
          ∧ ∀ y, 1 ≤ y < r →
              is_solid_at spike10 (clamp_column spike10 2) y = Some false)).
Proof.
  apply (get_accurate_ground_height_first_solid spike10 2 1);
    [reflexivity | simpl; lia | lia].
Defined.

(** On a map whose height profile agrees with the grid, the precise query
    with the default start row returns the profile entry of the clamped
    column, and the windowed query is never deeper than it. *)
Theorem ground_height_le_accurate tm x :
  wf tm = true → consistent tm = true → 0 < width tm →
  ∃ g a, get_ground_height tm x = Some g
    ∧ get_accurate_ground_height tm x None = Some a
    ∧ getitem (height_map tm) (clamp_column tm x) = Some a
    ∧ g ≤ a.
Proof.
  intros Hwf Hcons Hpos.
  destruct (get_ground_height_wf tm x Hwf Hpos) as (m0 & Hm0 & ->).
  pose proof Hwf as [Hd Hlen]%wf_spec.
  pose proof (clamp_column_range tm x Hpos) as Hxi.
  rewrite consistent_spec in Hcons.
  exists (foldl (window_step tm (clamp_column tm x)) m0
            (range (- search_radius) (search_radius + 1))), m0.
  split; [done |]. split; [|split].
  - unfold get_accurate_ground_height. cbv zeta.
    change (default 0 None) with 0.
    rewrite (scan_solid_in _ (width tm) (height tm))
      by (try done; intros y Hy%elem_of_range; lia).
    rewrite bind_Some. f_equal.
    rewrite Hcons in Hm0 by done. injection Hm0 as <-. done.
  - by rewrite getitem_in by lia.
  - apply window_fold_le.
Qed.

Lemma ground_height_le_accurate_witness :
  ∃ g a, get_ground_height spike10 4 = Some g
    ∧ get_accurate_ground_height spike10 4 None = Some a
    ∧ getitem (height_map spike10) (clamp_column spike10 4) = Some a
    ∧ g ≤ a.
Proof.
  apply (ground_height_le_accurate spike10 4);
    [reflexivity | reflexivity | simpl; lia].
Defined.

(** ** [create_crater]: what repeated and reordered calls do *)

Lemma grid_ext (g g' : Grid) w h :
  grid_dims g w h = true → grid_dims g' w h = true →
  (∀ x y, 0 ≤ x < w → 0 ≤ y < h → px g x y = px g' x y) →
  g = g'.
Proof.
  intros [Hw Hc]%grid_dims_spec [Hw' Hc']%grid_dims_spec Hpx.
  apply list_eq. intros i.
  destruct (decide (i < length g)%nat) as [Hi|Hi].
  2:{ rewrite !lookup_ge_None_2 by lia. done. }
  destruct (lookup_lt_is_Some_2 g i Hi) as [col Hcol].
  destruct (lookup_lt_is_Some_2 g' i ltac:(lia)) as [col' Hcol'].
  rewrite Hcol, Hcol'. f_equal.
  pose proof (Hc _ _ Hcol) as Hl. pose proof (Hc' _ _ Hcol') as Hl'.
  apply list_eq. intros j.
  destruct (decide (j < length col)%nat) as [Hj|Hj].
  2:{ rewrite !lookup_ge_None_2 by lia. done. }
  destruct (lookup_lt_is_Some_2 col j Hj) as [b Hb].
  destruct (lookup_lt_is_Some_2 col' j ltac:(lia)) as [b' Hb'].
  rewrite Hb, Hb'. f_equal.
  specialize (Hpx (Z.of_nat i) (Z.of_nat j) ltac:(lia) ltac:(lia)).
  unfold px in Hpx. rewrite !Nat2Z.id in Hpx.
  by rewrite Hcol, Hcol', Hb, Hb' in Hpx.
Qed.

Lemma consistent_unique tm tm' :
  wf tm = true → consistent tm = true →
  wf tm' = true → consistent tm' = true →
  width tm' = width tm → height tm' = height tm →
  terrain_pixels tm' = terrain_pixels tm →
  height_map tm' = height_map tm.
Proof.
  intros Hwf Hc Hwf' Hc' Hw Hh Hg.
  apply height_map_eq; try done.
  - apply wf_spec in Hwf' as [_ Hl]. by rewrite Hl.
  - intros x Hx. rewrite consistent_spec in Hc'.
    rewrite Hc' by lia. by rewrite Hg, Hh.
Qed.

Lemma solid_true_iff tm x y :
  wf tm = true → is_solid_at tm x y = Some true ↔ solid tm x y = true.
Proof. intros Hwf. rewrite is_solid_at_wf by done. split; congruence. Qed.

(** A crater only clears cells: no cell is solid after the call that was
    not solid before it. *)
Theorem create_crater_never_solidifies tm cx cy r now :
  wf tm = true →
  ∃ tm', create_crater tm cx cy r now = Some tm'
    ∧ ∀ x y, is_solid_at tm' x y = Some true →
             is_solid_at tm x y = Some true.
Proof.
  intros Hwf.
  destruct (create_crater_spec tm cx cy r now Hwf)
    as (tm' & Hc & Hwf' & _ & Hw & Hh & _ & Hpx).
  exists tm'. split; [done |]. intros x y.
  rewrite !solid_true_iff by done.
  rewrite (solid_after_crater tm tm' cx cy r x y Hw Hh Hpx).
  by intros [? _]%andb_true_iff.
Qed.

Lemma create_crater_never_solidifies_witness :
  ∃ tm', create_crater flat12 5 7 2 100 = Some tm'
    ∧ ∀ x y, is_solid_at tm' x y = Some true →
             is_solid_at flat12 x y = Some true.
Proof. apply (create_crater_never_solidifies flat12 5 7 2 100). reflexivity. Defined.

(** The same crater a second time changes neither the grid nor the height
    profile, and still appends its record. *)
Theorem create_crater_twice tm cx cy r now now' :
  wf tm = true →
  ∃ tm1 tm2, create_crater tm cx cy r now = Some tm1
    ∧ create_crater tm1 cx cy r now' = Some tm2
    ∧ terrain_pixels tm2 = terrain_pixels tm1
    ∧ height_map tm2 = height_map tm1
    ∧ craters tm2
      = craters tm ++ [mkCrater cx cy r now; mkCrater cx cy r now'].
Proof.
  intros Hwf.
  destruct (create_crater_spec tm cx cy r now Hwf)
    as (tm1 & Hc1 & Hwf1 & Hcons1 & Hw1 & Hh1 & Hcr1 & Hpx1).
  destruct (create_crater_spec tm1 cx cy r now' Hwf1)
    as (tm2 & Hc2 & Hwf2 & Hcons2 & Hw2 & Hh2 & Hcr2 & Hpx2).
  exists tm1, tm2. split; [done |]. split; [done |].
  assert (Hg : terrain_pixels tm2 = terrain_pixels tm1).
  { pose proof Hwf1 as [Hd1 _]%wf_spec. pose proof Hwf2 as [Hd2 _]%wf_spec.
    rewrite Hw2, Hh2 in Hd2.
    apply (grid_ext _ _ _ _ Hd2 Hd1). intros x y Hx Hy.
    rewrite Hpx2, Hpx1 by lia. rewrite Hw1, Hh1.
    destruct (px (terrain_pixels tm) x y), (cleared _ _ _ _ _ x y); done. }
  split; [done |]. split; [by apply consistent_unique |].
  rewrite Hcr2, Hcr1, <- app_assoc. done.
Qed.

Lemma create_crater_twice_witness :
  ∃ tm1 tm2, create_crater flat12 5 7 2 100 = Some tm1
    ∧ create_crater tm1 5 7 2 101 = Some tm2
    ∧ terrain_pixels tm2 = terrain_pixels tm1
    ∧ height_map tm2 = height_map tm1
    ∧ craters tm2
      = craters flat12 ++ [mkCrater 5 7 2 100; mkCrater 5 7 2 101].
Proof. apply (create_crater_twice flat12 5 7 2 100 101). reflexivity. Defined.

(** Two craters give the same grid and the same height profile in either
    order. *)
Theorem create_crater_commutes tm ax ay ar bx by_ br now now' :
  wf tm = true →
  ∃ ta tab tb tba,
    create_crater tm ax ay ar now = Some ta
    ∧ create_crater ta bx by_ br now' = Some tab
    ∧ create_crater tm bx by_ br now = Some tb
    ∧ create_crater tb ax ay ar now' = Some tba
    ∧ terrain_pixels tab = terrain_pixels tba
    ∧ height_map tab = height_map tba.
Proof.
  intros Hwf.
  destruct (create_crater_spec tm ax ay ar now Hwf)
    as (ta & Hca & Hwfa & _ & Hwa & Hha & _ & Hpxa).
  destruct (create_crater_spec ta bx by_ br now' Hwfa)
    as (tab & Hcab & Hwfab & Hconsab & Hwab & Hhab & _ & Hpxab).
  destruct (create_crater_spec tm bx by_ br now Hwf)
    as (tb & Hcb & Hwfb & _ & Hwb & Hhb & _ & Hpxb).
  destruct (create_crater_spec tb ax ay ar now' Hwfb)
    as (tba & Hcba & Hwfba & Hconsba & Hwba & Hhba & _ & Hpxba).
  exists ta, tab, tb, tba. do 4 (split; [done |]).
  assert (Hg : terrain_pixels tab = terrain_pixels tba).
  { pose proof Hwfab as [Hd1 _]%wf_spec. pose proof Hwfba as [Hd2 _]%wf_spec.
    rewrite Hwab, Hhab, Hwa, Hha in Hd1. rewrite Hwba, Hhba, Hwb, Hhb in Hd2.
    apply (grid_ext _ _ _ _ Hd1 Hd2). intros x y Hx Hy.
    rewrite Hpxab, Hpxa, Hpxba, Hpxb by lia. rewrite Hwa, Hha, Hwb, Hhb.
    destruct (px (terrain_pixels tm) x y), (cleared ax _ _ _ _ x y),
      (cleared bx _ _ _ _ x y); done. }
  split; [done |]. apply consistent_unique; try done; congruence.
Qed.

Lemma create_crater_commutes_witness :
  ∃ ta tab tb tba,
    create_crater flat12 5 7 2 100 = Some ta
    ∧ create_crater ta 7 8 3 101 = Some tab
    ∧ create_crater flat12 7 8 3 100 = Some tb
    ∧ create_crater tb 5 7 2 101 = Some tba
    ∧ terrain_pixels tab = terrain_pixels tba
    ∧ height_map tab = height_map tba.
Proof.
  apply (create_crater_commutes flat12 5 7 2 7 8 3 100 101). reflexivity.
Defined.

(** A crater only deepens the height profile: no entry gets smaller, and
    every entry stays at or above the bottom of the grid. *)
Theorem create_crater_profile_deepens tm cx cy r now :
  wf tm = true → consistent tm = true →
  ∃ tm', create_crater tm cx cy r now = Some tm'
    ∧ ∀ x, 0 ≤ x < width tm →
        ∃ v v', getitem (height_map tm) x = Some v
          ∧ getitem (height_map tm') x = Some v'
          ∧ v ≤ v' ≤ height tm.
Proof.
  intros Hwf Hcons.
  destruct (create_crater_spec tm cx cy r now Hwf)
    as (tm' & Hc & Hwf' & Hcons' & Hw & Hh & _ & Hpx).
  exists tm'. split; [done |]. intros x Hx.
  pose proof Hwf as [_ Hlen]%wf_spec. pose proof Hwf' as [_ Hlen']%wf_spec.
  rewrite consistent_spec in Hcons, Hcons'.
  rewrite !getitem_in by lia.
  rewrite Hcons by done. rewrite Hcons' by lia.
  do 2 eexists. split; [done |]. split; [done |]. rewrite Hh.
  pose proof (wf_height_nonneg tm Hwf ltac:(lia)) as Hnn.
  split; [|by apply top_row_le_height].
  apply top_row_shrink; [done |]. intros y Hy. rewrite Hpx by lia.
  by intros [? _]%andb_true_iff.
Qed.

Lemma create_crater_profile_deepens_witness :
  ∃ tm', create_crater flat12 5 7 2 100 = Some tm'
    ∧ ∀ x, 0 ≤ x < width flat12 →
        ∃ v v', getitem (height_map flat12) x = Some v
          ∧ getitem (height_map tm') x = Some v'
          ∧ v ≤ v' ≤ height flat12.
Proof.
  apply (create_crater_profile_deepens flat12 5 7 2 100); reflexivity.
Defined.

(** Every sequence of [create_crater] and [merge_overlapping_craters]
    calls on a well-formed map runs through without raising; the map stays
    well formed with the same size, its height profile keeps agreeing with
    the grid, and no cell ever becomes solid again. *)
Theorem run_invariants ops : ∀ tm,
  wf tm = true →
  ∃ tm', run tm ops = Some tm' ∧ wf tm' = true
    ∧ width tm' = width tm ∧ height tm' = height tm
    ∧ (consistent tm = true → consistent tm' = true)
    ∧ ∀ x y, is_solid_at tm' x y = Some true →
             is_solid_at tm x y = Some true.
Proof.
  unfold run. induction ops as [|op ops IH]; intros tm Hwf.
  - exists tm. done.
  - destruct op as [cx cy r now|]; simpl.
    + destruct (create_crater_spec tm cx cy r now Hwf)
        as (tm1 & Hc & Hwf1 & Hcons1 & Hw & Hh & _ & Hpx).
      rewrite Hc, bind_Some.
      destruct (IH tm1 Hwf1) as (tm' & Hr & Hwf' & Hw' & Hh' & Hcons' & Hs').
      exists tm'. split; [done |]. split; [done |].
      split; [congruence |]. split; [congruence |]. split; [auto |].
      intros x y Hxy. apply Hs' in Hxy. revert Hxy.
      rewrite !solid_true_iff by done.
      rewrite (solid_after_crater tm tm1 cx cy r x y Hw Hh Hpx).
      by intros [? _]%andb_true_iff.
    + destruct (IH (merge_overlapping_craters tm)) as
        (tm' & Hr & Hwf' & Hw' & Hh' & Hcons' & Hs'); [done |].
      exists tm'. done.
Qed.

Lemma run_invariants_witness :
  ∃ tm', run field64 chain_calls = Some tm' ∧ wf tm' = true
    ∧ width tm' = width field64 ∧ height tm' = height field64
    ∧ (consistent field64 = true → consistent tm' = true)
    ∧ ∀ x y, is_solid_at tm' x y = Some true →
             is_solid_at field64 x y = Some true.
Proof. apply (run_invariants chain_calls field64). reflexivity. Defined.

(** ** A height profile shorter than the map *)

Lemma for_in_app {S A} (body : S → A → option S) (l1 l2 : list A) :
  ∀ s, for_in (l1 ++ l2) s body = for_in l1 s body ≫= λ s', for_in l2 s' body.
Proof.
  induction l1 as [|a l1 IH]; intros s; [done |].
  simpl. destruct (body s a) as [s1|]; [apply IH | done].
Qed.

Lemma range_split a m b : a ≤ m ≤ b → range a b = range a m ++ range m b.
Proof.
  intros H. unfold range.
  replace (b - a) with ((m - a) + (b - m)) by lia.
  rewrite seqZ_app by lia. do 2 f_equal. lia.
Qed.

Lemma range_cons a b : a < b → range a b = a :: range (a + 1) b.
Proof.
  intros H. unfold range.
  replace (b - a) with (Z.succ (b - (a + 1))) by lia.
  rewrite seqZ_cons by lia. f_equal. f_equal; lia.
Qed.

Lemma setitem_past {A} (l : list A) i v :
  Z.of_nat (length l) ≤ i → setitem l i v = None.
Proof.
  intros Hi. unfold setitem, norm_index.
  destruct (Z.leb_spec 0 i), (Z.ltb_spec i (Z.of_nat (length l))),
    (Z.leb_spec (- Z.of_nat (length l)) i), (Z.ltb_spec i 0);
    simpl; try lia; reflexivity.
Qed.

(** On a map whose height profile has fewer entries than the map has
    columns, as the constructor builds from a short list, every
    [create_crater] raises: [_update_height_map] writes the profile entry
    of every column, and the first column past the profile is out of
    range. *)
Theorem create_crater_short_profile tm cx cy r now :
  grid_dims (terrain_pixels tm) (width tm) (height tm) = true →
  Z.of_nat (length (height_map tm)) < width tm →
  create_crater tm cx cy r now = None.
Proof.
  intros Hd Hshort. unfold create_crater. cbv zeta.
  destruct (carve_spec cx cy r _ _ _ Hd) as (g' & -> & Hd' & _).
  rewrite bind_Some.
  set (n := Z.of_nat (length (height_map tm))) in *.
  assert (Hup : _update_height_map (width tm) (height tm) g' (height_map tm)
                = None).
  { unfold _update_height_map.
    rewrite (range_split 0 n (width tm)) by lia.
    rewrite for_in_app.
    destruct (for_in_invariant
      (λ (_ : list Z) hm', Z.of_nat (length hm') = n)
      (λ hm x, top ← scan_solid g' x (range 0 (height tm));
               setitem hm x (default (height tm) top))
      (range 0 n) (height_map tm)) as (hm1 & -> & Hlen1); [done | |].
    - intros pre x hm1 Hx%elem_of_range Hl1.
      rewrite (scan_solid_in g' (width tm) (height tm))
        by (try done; try lia; intros y; apply elem_of_range).
      rewrite bind_Some, setitem_in by lia.
      eexists. split; [done |]. by rewrite length_insert.
    - rewrite bind_Some, (range_cons n) by lia. cbn [for_in].
      rewrite (scan_solid_in g' (width tm) (height tm))
        by (try done; try lia; intros y; apply elem_of_range).
      rewrite bind_Some, setitem_past by lia. done. }
  by rewrite Hup.
Qed.

Lemma create_crater_short_profile_witness :
  create_crater short_profile6 2 3 1 7 = None.
Proof.
  apply (create_crater_short_profile short_profile6 2 3 1 7); reflexivity.
Defined.

(** ** [merge_overlapping_craters]: sizes, records and lists without overlap *)

Lemma insert_by_time_length c l :
  length (insert_by_time c l) = S (length l).
Proof.
  induction l as [|d l IH]; [done |]. simpl.
  destruct (creation_time c <=? creation_time d); simpl; [done | by rewrite IH].
Qed.

Lemma sort_by_time_length l : length (sort_by_time l) = length l.
Proof.
  induction l as [|c l IH]; [done |]. simpl.
  by rewrite insert_by_time_length, IH.
Qed.

Lemma merge_step_length merged current :
  length (merge_step merged current) = length merged
  ∨ length (merge_step merged current) = S (length merged).
Proof.
  unfold merge_step.
  destruct (merge_with_first current merged) as [l|] eqn:E.
  - left. by eapply merge_with_first_length.
  - right. rewrite length_app. simpl. lia.
Qed.

Lemma merge_pass_length l : ∀ acc,
  (length acc ≤ length (foldl merge_step acc l) ≤ length acc + length l)%nat.
Proof.
  induction l as [|c l IH]; intros acc; simpl; [lia |].
  specialize (IH (merge_step acc c)).
  destruct (merge_step_length acc c) as [H|H]; rewrite H in IH; lia.
Qed.

Lemma merge_pass_nonempty c l acc : foldl merge_step acc (c :: l) ≠ [].
Proof.
  simpl. intros H.
  pose proof (merge_pass_length l (merge_step acc c)) as [Hl _].
  rewrite H in Hl. simpl in Hl.
  destruct (merge_step_length acc c) as [E|E].
  - unfold merge_step in *.
    destruct (merge_with_first c acc) as [l'|] eqn:Em.
    + destruct acc as [|a acc]; [done |]. simpl in E. lia.
    + rewrite length_app in Hl. simpl in Hl. lia.
  - lia.
Qed.

(** The merge never lengthens the crater list, never empties a non-empty
    one, and leaves a list of fewer than two records as it is. *)
Theorem merge_crater_list_shrinks cs :
  (length (merge_crater_list cs) ≤ length cs)%nat
  ∧ (cs ≠ [] → merge_crater_list cs ≠ [])
  ∧ ((length cs < 2)%nat → merge_crater_list cs = cs).
Proof.
  unfold merge_crater_list.
  destruct (Nat.ltb_spec (length cs) 2) as [Hlt|Hge].
  { split; [lia |]. done. }
  set (merged := foldl merge_step [] (sort_by_time cs)).
  pose proof (merge_pass_length (sort_by_time cs) []) as [_ Hle].
  rewrite sort_by_time_length in Hle. simpl in Hle. fold merged in Hle.
  split; [|split; [|lia]].
  - destruct (Nat.ltb_spec max_craters (length merged));
      [rewrite length_drop |]; lia.
  - intros _.
    destruct (Nat.ltb_spec max_craters (length merged)) as [Hbig|Hsmall].
    + intros H. apply (f_equal length) in H. rewrite length_drop in H.
      unfold max_craters in *. simpl in H. lia.
    + unfold merged.
      destruct (sort_by_time cs) as [|c l] eqn:E.
      * apply (f_equal length) in E. rewrite sort_by_time_length in E.
        simpl in E. lia.
      * apply merge_pass_nonempty.
Qed.



Lemma forallb_insert_by_time (P : Crater → bool) c l :
  forallb P (insert_by_time c l) = P c && forallb P l.
Proof.
  induction l as [|d l IH]; simpl; [done |].
  destruct (creation_time c <=? creation_time d); simpl; [done |].
  rewrite IH. destruct (P c), (P d); done.
Qed.

Lemma forallb_sort_by_time (P : Crater → bool) l :
  forallb P (sort_by_time l) = forallb P l.
Proof.
  induction l as [|c l IH]; simpl; [done |].
  by rewrite forallb_insert_by_time, IH.
Qed.

Lemma pairwise_apart_insert c l :
  pairwise_apart (c :: l) = true → pairwise_apart (insert_by_time c l) = true.
Proof.
  induction l as [|d l IH]; [done |].
  intros H. simpl. destruct (creation_time c <=? creation_time d); [done |].
  simpl in H. apply andb_true_iff in H as [Hc Hdl].
  apply andb_true_iff in Hc as [Hcd Hcl].
  apply andb_true_iff in Hdl as [Hd Hl].
  simpl. rewrite forallb_insert_by_time, Hd, andb_true_r.
  rewrite overlaps_sym, Hcd. simpl. apply IH. simpl. by rewrite Hcl, Hl.
Qed.

Lemma pairwise_apart_sort l :
  pairwise_apart l = true → pairwise_apart (sort_by_time l) = true.
Proof.
  induction l as [|c l IH]; [done |].
  simpl. intros [Hc Hl]%andb_true_iff.
  apply pairwise_apart_insert. simpl.
  by rewrite forallb_sort_by_time, Hc, IH.
Qed.

Lemma pairwise_apart_app l1 l2 :
  pairwise_apart (l1 ++ l2) = true ↔
  pairwise_apart l1 = true ∧ pairwise_apart l2 = true
  ∧ ∀ a b, a ∈ l1 → b ∈ l2 → overlaps a b = false.
Proof.
  induction l1 as [|c l1 IH]; simpl.
  - split; [intros H; split; [done |]; split; [done |] | tauto].
    intros a b Ha. inversion Ha.
  - rewrite !andb_true_iff, forallb_app, andb_true_iff, IH, !forallb_forall.
    split.
    + intros [[H1 H2] (H3 & H4 & H5)]. split; [done |]. split; [done |].
      intros a b [->|Ha]%elem_of_cons Hb; [|by apply H5].
      apply negb_true_iff, H2. by apply list_elem_of_In.
    + intros ([H1 H3] & H4 & H5). split; [split; [done |] |].
      * intros d Hd%list_elem_of_In. apply negb_true_iff, H5; [left | done].
      * split; [done |]. split; [done |].
        intros a b Ha Hb. apply H5; [by right | done].
Qed.

Lemma merge_with_first_None current merged :
  (∀ d, d ∈ merged → overlaps current d = false) →
  merge_with_first current merged = None.
Proof.
  induction merged as [|m rest IH]; intros H; [done |].
  simpl. rewrite H by left. rewrite IH; [done |].
  intros d Hd. apply H. by right.
Qed.

Lemma merge_pass_apart l : ∀ acc,
  pairwise_apart (acc ++ l) = true → foldl merge_step acc l = acc ++ l.
Proof.
  induction l as [|c l IH]; intros acc H; [by rewrite app_nil_r |].
  simpl. unfold merge_step at 2. rewrite merge_with_first_None.
  - rewrite IH; rewrite <- app_assoc; done.
  - apply pairwise_apart_app in H as (_ & _ & H).
    intros d Hd. rewrite overlaps_sym. apply H; [done | left].
Qed.

Lemma time_sorted_insert c l :
  time_sorted l = true → time_sorted (insert_by_time c l) = true.
Proof.
  induction l as [|d l IH]; [done |]. intros H. simpl.
  destruct (Z.leb_spec (creation_time c) (creation_time d)) as [Hle|Hgt].
  - simpl. destruct (Z.leb_spec (creation_time c) (creation_time d)); [|lia].
    done.
  - destruct l as [|e l].
    + simpl. destruct (Z.leb_spec (creation_time d) (creation_time c)); [done | lia].
    + simpl in H. apply andb_true_iff in H as [Hde Hs].
      specialize (IH Hs). simpl in IH. simpl.
      destruct (creation_time c <=? creation_time e).
      * destruct (Z.leb_spec (creation_time d) (creation_time c)); [|lia].
        done.
      * rewrite Hde. done.
Qed.

Lemma time_sorted_sort l : time_sorted (sort_by_time l) = true.
Proof.
  induction l as [|c l IH]; [done |]. simpl. by apply time_sorted_insert.
Qed.

Lemma time_sorted_tail c l : time_sorted (c :: l) = true → time_sorted l = true.
Proof.
  destruct l as [|d l]; [done |]. simpl. by intros [_ ?]%andb_true_iff.
Qed.

Lemma sort_by_time_sorted l : time_sorted l = true → sort_by_time l = l.
Proof.
  induction l as [|c l IH]; [done |]. intros H. simpl.
  rewrite IH by (by eapply time_sorted_tail).
  destruct l as [|d l]; [done |]. simpl in *.
  apply andb_true_iff in H as [-> _]. done.
Qed.

Lemma time_sorted_drop n l : time_sorted l = true → time_sorted (drop n l) = true.
Proof.
  revert l. induction n as [|n IH]; intros l H; [by rewrite drop_0 |].
  destruct l as [|c l]; [done |]. simpl. apply IH. by eapply time_sorted_tail.
Qed.

Lemma pairwise_apart_drop n l :
  pairwise_apart l = true → pairwise_apart (drop n l) = true.
Proof.
  intros H. rewrite <- (take_drop n l) in H.
  by apply pairwise_apart_app in H as (_ & ? & _).
Qed.

Lemma insert_by_time_perm c l : insert_by_time c l ≡ₚ c :: l.
Proof.
  induction l as [|d l IH]; [done |]. simpl.
  destruct (creation_time c <=? creation_time d); [done |].
  rewrite IH. apply Permutation_swap.
Qed.

Lemma sort_by_time_perm l : sort_by_time l ≡ₚ l.
Proof.
  induction l as [|c l IH]; [done |]. simpl.
  by rewrite insert_by_time_perm, IH.
Qed.

Lemma last_craters_length cs : (length (last_craters cs) ≤ max_craters)%nat.
Proof.
  unfold last_craters. destruct (Nat.ltb_spec max_craters (length cs));
    [rewrite length_drop |]; lia.
Qed.

(** On a list in which no two records overlap, the merge only sorts the
    records by creation time and keeps the 50 latest; the result is a
    rearrangement of a list of at most 50 records, and a second
    consecutive merge leaves it as it is. *)
Theorem merge_crater_list_apart cs :
  pairwise_apart cs = true → (2 ≤ length cs)%nat →
  merge_crater_list cs = last_craters (sort_by_time cs)
  ∧ ((length cs ≤ max_craters)%nat → merge_crater_list cs ≡ₚ cs)
  ∧ merge_crater_list (merge_crater_list cs) = merge_crater_list cs.
Proof.
  intros Hap Hlen.
  assert (Hm : merge_crater_list cs = last_craters (sort_by_time cs)).
  { unfold merge_crater_list, last_craters.
    destruct (Nat.ltb_spec (length cs) 2); [lia |].
    rewrite (merge_pass_apart (sort_by_time cs) []); [done |].
    simpl. by apply pairwise_apart_sort. }
  split; [done |]. split.
  - intros Hsmall. rewrite Hm. unfold last_craters.
    rewrite sort_by_time_length.
    destruct (Nat.ltb_spec max_craters (length cs)); [lia |].
    apply sort_by_time_perm.
  - rewrite Hm. set (m := last_craters (sort_by_time cs)).
    assert (Hs : time_sorted m = true).
    { unfold m, last_craters.
      destruct (_ <? _)%nat; [apply time_sorted_drop |];
        apply time_sorted_sort. }
    assert (Ha : pairwise_apart m = true).
    { unfold m, last_craters.
      destruct (_ <? _)%nat; [apply pairwise_apart_drop |];
        by apply pairwise_apart_sort. }
    pose proof (last_craters_length (sort_by_time cs)) as Hl. fold m in Hl.
    unfold merge_crater_list.
    destruct (Nat.ltb_spec (length m) 2); [done |].
    rewrite (sort_by_time_sorted m Hs).
    rewrite (merge_pass_apart m []) by done. simpl.
    destruct (Nat.ltb_spec max_craters (length m)); [lia | done].
Qed.

Lemma merge_crater_list_apart_witness :
  merge_crater_list (craters far_craters)
  = last_craters (sort_by_time (craters far_craters))
  ∧ ((length (craters far_craters) ≤ max_craters)%nat →
     merge_crater_list (craters far_craters) ≡ₚ craters far_craters)
  ∧ merge_crater_list (merge_crater_list (craters far_craters))
    = merge_crater_list (craters far_craters).
Proof.
  apply (merge_crater_list_apart (craters far_craters));
    [reflexivity | simpl; lia].
Defined.

(** ** The terrain generator: smoothing, dunes and tree placement *)

Lemma smoothed_value_ge a b c (ma mb mc n : Z) :
  ma ≤ a → mb ≤ b → mc ≤ c → 4 * n ≤ ma + 2 * mb + mc →
  n ≤ smoothed_value a b c.
Proof.
  intros Ha Hb Hc Hn. apply py_int_ge.
  assert (4 * n ≤ a + 2 * b + c) as H by lia.
  rewrite Zle_Qle in H.
  rewrite !inject_Z_plus, !inject_Z_mult in H.
  change (inject_Z 2) with 2%Q in H. change (inject_Z 4) with 4%Q in H.
  lra.
Qed.

Lemma smooth_pass_bounds (l l' : list Z) lo hi :
  smooth_pass l = Some l' →
  Forall (λ v, lo ≤ v ≤ hi) l → Forall (λ v, lo ≤ v ≤ hi) l'.
Proof.
  intros Hs Hl. destruct (smooth_pass_spec l) as (l1 & Hs1 & Hlen & Hval).
  rewrite Hs in Hs1. injection Hs1 as <-.
  rewrite Forall_lookup in Hl. apply Forall_lookup. intros k v Hk.
  destruct (Hval k) as [Hin Hout].
  destruct (decide (1 ≤ Z.of_nat k < Z.of_nat (length l) - 1)) as [Hr|Hr].
  - destruct (Hin Hr) as (a & b & c & Ha & Hb & Hc & Hv).
    rewrite Hv in Hk. injection Hk as <-.
    pose proof (Hl _ _ Ha). pose proof (Hl _ _ Hb). pose proof (Hl _ _ Hc).
    split.
    + apply (smoothed_value_ge a b c lo lo lo); lia.
    + apply (smoothed_value_le a b c hi hi hi); lia.
  - rewrite (Hout Hr) in Hk. eauto.
Qed.

Lemma smooth_pass_ends (l l' : list Z) :
  smooth_pass l = Some l' →
  length l' = length l
  ∧ l' !! 0%nat = l !! 0%nat
  ∧ l' !! (length l - 1)%nat = l !! (length l - 1)%nat.
Proof.
  intros Hs. destruct (smooth_pass_spec l) as (l1 & Hs1 & Hlen & Hval).
  rewrite Hs in Hs1. injection Hs1 as <-.
  split; [done |]. split.
  - apply (Hval 0%nat). lia.
  - apply (Hval (length l - 1)%nat). lia.
Qed.

(** [smooth_terrain] never raises, whatever the number of iterations is;
    it keeps the length, the first and the last entry, and every bound
    that holds of all the entries. *)
Theorem smooth_terrain_spec (l : list Z) iterations lo hi :
  Forall (λ v, lo ≤ v ≤ hi) l →
  ∃ l', smooth_terrain l iterations = Some l'
    ∧ length l' = length l
    ∧ l' !! 0%nat = l !! 0%nat
    ∧ l' !! (length l - 1)%nat = l !! (length l - 1)%nat
    ∧ Forall (λ v, lo ≤ v ≤ hi) l'.
Proof.
  intros Hb. unfold smooth_terrain.
  destruct (for_in_invariant
    (λ (_ : list Z) l1, length l1 = length l
       ∧ l1 !! 0%nat = l !! 0%nat
       ∧ l1 !! (length l - 1)%nat = l !! (length l - 1)%nat
       ∧ Forall (λ v, lo ≤ v ≤ hi) l1)
    (λ smoothed (_ : Z), smooth_pass smoothed) (range 0 iterations) l)
    as (l' & Hf & H).
  - done.
  - intros pre i l1 _ (Hlen & H0 & Hlast & Hb1).
    destruct (smooth_pass_spec l1) as (l2 & Hs & _).
    destruct (smooth_pass_ends l1 l2 Hs) as (Hlen2 & H02 & Hlast2).
    exists l2. split; [done |]. split; [congruence |].
    split; [congruence |]. split.
    + rewrite Hlen in Hlast2. congruence.
    + by apply (smooth_pass_bounds l1).
  - exists l'. done.
Qed.

Lemma smooth_terrain_spec_witness :
  ∃ l', smooth_terrain [5; 9; 2; 7] 3 = Some l'
    ∧ length l' = length [5; 9; 2; 7]
    ∧ l' !! 0%nat = [5; 9; 2; 7] !! 0%nat
    ∧ l' !! (length [5; 9; 2; 7] - 1)%nat
      = [5; 9; 2; 7] !! (length [5; 9; 2; 7] - 1)%nat
    ∧ Forall (λ v, 2 ≤ v ≤ 9) l'.
Proof.
  apply (smooth_terrain_spec [5; 9; 2; 7] 3 2 9).
  repeat constructor; lia.
Defined.

Lemma is_ramp_lookup l : ∀ k a b c,
  is_ramp l = true →
  l !! k = Some a → l !! S k = Some b → l !! S (S k) = Some c →
  a + c = 2 * b.
Proof.
  induction l as [|x l IH]; intros k a b c Hr Ha Hb Hc; [done |].
  destruct l as [|y [|z l]]; [done | done |].
  simpl in Hr. apply andb_true_iff in Hr as [Hxyz Hr].
  destruct k as [|k].
  - simpl in Ha, Hb, Hc. simplify_eq. by apply Z.eqb_eq.
  - simpl in Ha, Hb, Hc. by apply (IH k a b c).
Qed.

(** A profile of constant slope is a fixed point of the smoothing: the
    weighted average of three entries in arithmetic progression is the
    middle one. *)
Theorem smooth_terrain_ramp (l : list Z) iterations :
  is_ramp l = true → smooth_terrain l iterations = Some l.
Proof.
  intros Hr.
  assert (Hpass : smooth_pass l = Some l).
  { destruct (smooth_pass_spec l) as (l' & Hs & Hlen & Hval).
    rewrite Hs. f_equal. apply list_eq. intros k.
    destruct (Hval k) as [Hin Hout].
    destruct (decide (1 ≤ Z.of_nat k < Z.of_nat (length l) - 1)) as [Hk|Hk];
      [|by apply Hout].
    destruct (Hin Hk) as (a & b & c & Ha & Hb & Hc & ->).
    rewrite Hb. f_equal.
    assert (a + c = 2 * b).
    { apply (is_ramp_lookup l (k - 1) a b c Hr); [done | |].
      - by replace (S (k - 1)) with k by lia.
      - by replace (S (S (k - 1))) with (k + 1)%nat by lia. }
    apply Z.le_antisymm.
    - apply (smoothed_value_le a b c a b c); lia.
    - apply (smoothed_value_ge a b c a b c); lia. }
  unfold smooth_terrain.
  destruct (for_in_invariant (λ (_ : list Z) l1, l1 = l)
              (λ smoothed (_ : Z), smooth_pass smoothed)
              (range 0 iterations) l) as (l' & -> & ->); [done | | done].
  intros pre i l1 _ ->. by exists l.
Qed.

Lemma smooth_terrain_ramp_witness :
  smooth_terrain [500; 503; 506; 509; 512] 3 = Some [500; 503; 506; 509; 512].
Proof. apply (smooth_terrain_ramp [500; 503; 506; 509; 512] 3). reflexivity. Defined.

Lemma dune_column_touches pow complexity d (l : list Z) x :
  0 ≤ x < Z.of_nat (length l) →
  ∃ v', dune_column pow complexity d l x = Some (<[Z.to_nat x := v']> l).
Proof.
  intros Hx. destruct (getitem_in_Some l x Hx) as (v & Hg & Hl).
  unfold dune_column.
  destruct (Z.abs (x - dune_center d) <? dune_width d);
    [| exists v; by rewrite list_insert_id].
  match goal with |- context [Qlt_le_dec 0 ?q] => destruct (Qlt_le_dec 0 q) end;
    [| exists v; by rewrite list_insert_id].
  rewrite Hg, bind_Some, setitem_in by done. by eexists.
Qed.

(** One dune writes only columns of its span
    [dune_center - dune_width, dune_center + dune_width). *)
Lemma dune_pass_frame pow complexity d (l : list Z) :
  ∃ l',
    for_in (range (Z.max 0 (dune_center d - dune_width d))
                  (Z.min (Z.of_nat (length l)) (dune_center d + dune_width d)))
      l (dune_column pow complexity d) = Some l'
    ∧ length l' = length l
    ∧ ∀ k : nat, outside_dune d (Z.of_nat k) → l' !! k = l !! k.
Proof.
  destruct (for_in_invariant
    (λ (_ : list Z) l1, length l1 = length l
       ∧ ∀ k : nat, outside_dune d (Z.of_nat k) → l1 !! k = l !! k)
    (dune_column pow complexity d)
    (range (Z.max 0 (dune_center d - dune_width d))
           (Z.min (Z.of_nat (length l)) (dune_center d + dune_width d))) l)
    as (l' & Hfor & H); [done | | by exists l'].
  intros pre x l1 Hx%elem_of_range [Hlen Hfr].
  destruct (dune_column_touches pow complexity d l1 x) as (v' & ->); [lia |].
  eexists. split; [done |]. split; [by rewrite length_insert |].
  intros k Hk. rewrite list_lookup_insert_ne; [by apply Hfr |].
  unfold outside_dune in Hk. lia.
Qed.

(** All the dunes: the length and the columns no dune spans. *)
Lemma add_sand_dunes_untouched pow draw (l : list Z) complexity :
  200 ≤ Z.of_nat (length l) →
  ∃ l', add_sand_dunes pow draw l complexity = Some l'
    ∧ length l' = length l
    ∧ ∀ k : nat,
        (∀ i, 0 ≤ i < py_int (3 + complexity * 2) →
              outside_dune (draw i) (Z.of_nat k)) →
        l' !! k = l !! k.
Proof.
  intros Hwide. unfold add_sand_dunes.
  set (num := py_int (3 + complexity * 2)).
  destruct (for_in_invariant
    (λ pre l1, length l1 = length l
       ∧ ∀ k : nat, (∀ i, i ∈ pre → outside_dune (draw i) (Z.of_nat k)) →
                    l1 !! k = l !! k)
    (λ enhanced_map i,
       if Z.of_nat (length l) - 100 <? 100 then None
       else
         let d := draw i in
         for_in (range (Z.max 0 (dune_center d - dune_width d))
                       (Z.min (Z.of_nat (length l))
                              (dune_center d + dune_width d)))
           enhanced_map (dune_column pow complexity d))
    (range 0 num) l) as (l' & Hfor & Hlen & Hfr).
  - done.
  - intros pre i l1 _ [Hlen Hfr].
    destruct (Z.ltb_spec (Z.of_nat (length l) - 100) 100); [lia |].
    destruct (dune_pass_frame pow complexity (draw i) l1)
      as (l2 & Hpass & Hlen2 & Hfr2).
    rewrite Hlen in Hpass. exists l2. split; [done |].
    split; [congruence |].
    intros k Hk. rewrite Hfr2.
    + apply Hfr. intros j Hj. apply Hk, elem_of_app. by left.
    + apply Hk, elem_of_app. right. by apply list_elem_of_singleton.
  - exists l'. split; [done |]. split; [done |].
    intros k Hk. apply Hfr. intros i Hi%elem_of_range. by apply Hk.
Qed.

(** On a map of at least 200 columns [add_sand_dunes] returns a map of the
    same length, whatever the draws are, and a column that lies outside
    the span of every dune drawn keeps its height. *)
Theorem add_sand_dunes_frame pow draw (l : list Z) complexity :
  200 ≤ Z.of_nat (length l) →
  ∃ l', add_sand_dunes pow draw l complexity = Some l'
    ∧ length l' = length l
    ∧ ∀ k : nat,
        (∀ i, 0 ≤ i < py_int (3 + complexity * 2) →
              outside_dune (draw i) (Z.of_nat k)) →
        l' !! k = l !! k.
Proof. apply add_sand_dunes_untouched. Qed.

Lemma add_sand_dunes_frame_witness :
  ∃ l', add_sand_dunes linear_pow (λ _, mkDuneDraw 100 80 30 1) (replicate 200 500) 1 = Some l'
    ∧ length l' = length (replicate 200 500)
    ∧ ∀ k : nat,
        (∀ i, 0 ≤ i < py_int (3 + 1 * 2) →
              outside_dune (mkDuneDraw 100 80 30 1) (Z.of_nat k)) →
        l' !! k = replicate 200 500 !! k.
Proof.
  apply (add_sand_dunes_frame linear_pow (λ _, mkDuneDraw 100 80 30 1) (replicate 200 500) 1).
  rewrite length_replicate. lia.
Defined.

Lemma for_in_first_raises {S A} (body : S → A → option S) (l : list A) s :
  l ≠ [] → (∀ s a, body s a = None) → for_in l s body = None.
Proof.
  intros Hl Hb. destruct l as [|a l]; [done |]. simpl. by rewrite Hb.
Qed.

Lemma num_dunes_positive complexity :
  (0 <= complexity)%Q → 3 ≤ py_int (3 + complexity * 2).
Proof.
  intros Hc. apply py_int_ge. change (inject_Z 3) with 3%Q. lra.
Qed.

(** On a map narrower than 200 columns the draw of the first dune centre
    raises: [add_sand_dunes] returns nothing, and so does
    [generate_varied_terrain] for every width below 200. *)
Theorem add_sand_dunes_narrow sin random pow draw (l : list Z) width complexity :
  (0 <= complexity)%Q →
  (Z.of_nat (length l) < 200 → add_sand_dunes pow draw l complexity = None)
  ∧ (width < 200 →
     generate_varied_terrain sin random pow draw width complexity = None).
Proof.
  intros Hc. pose proof (num_dunes_positive complexity Hc) as Hn.
  assert (Hnarrow : ∀ l0 : list Z, Z.of_nat (length l0) < 200 →
            add_sand_dunes pow draw l0 complexity = None).
  { intros l0 Hl0. unfold add_sand_dunes. apply for_in_first_raises.
    - intros Hnil. apply (f_equal length) in Hnil.
      unfold range in Hnil. rewrite length_seqZ in Hnil. simpl in Hnil. lia.
    - intros s a. destruct (Z.ltb_spec (Z.of_nat (length l0) - 100) 100);
        [done | lia]. }
  split; [apply Hnarrow |].
  intros Hw. unfold generate_varied_terrain.
  rewrite Hnarrow; [done |].
  unfold generate_height_map, range. rewrite length_fmap, length_seqZ. lia.
Qed.

Lemma add_sand_dunes_narrow_witness :
  (Z.of_nat (length (replicate 199 500)) < 200 →
   add_sand_dunes linear_pow same_dune (replicate 199 500) 1 = None)
  ∧ (199 < 200 →
     generate_varied_terrain flat_sin mid_random linear_pow same_dune 199 1
     = None).
Proof.
  apply (add_sand_dunes_narrow flat_sin mid_random linear_pow same_dune
           (replicate 199 500) 199 1).
  done.
Defined.

(** ** [place_features] *)

Lemma py_int_floor_gap (q : Q) :
  (0 <= q)%Q → (q < inject_Z (py_int q + 1))%Q.
Proof.
  destruct q as [a b]. unfold Qle, Qlt, py_int. simpl. intros H.
  rewrite Z.mul_1_r in *.
  rewrite Z.quot_div_nonneg by lia.
  pose proof (Z.mul_succ_div_gt a (Zpos b) ltac:(lia)). lia.
Qed.

Lemma height_modifier_band (slope : Z) :
  0 ≤ slope →
  (0.8 <= py_max 0.8 (1.0 - inject_Z slope * 0.002) <= 1)%Q.
Proof.
  intros Hs. rewrite Zle_Qle in Hs. change (inject_Z 0) with 0%Q in Hs.
  unfold py_max. destruct (Qlt_le_dec _ _); lra.
Qed.

Lemma adjusted_height_band (h : Z) (m : Q) :
  0 ≤ h → (0.8 <= m <= 1)%Q →
  py_int (inject_Z h * m) ≤ h ∧ 4 * h - 4 ≤ 5 * py_int (inject_Z h * m).
Proof.
  intros Hh Hm. rewrite Zle_Qle in Hh. change (inject_Z 0) with 0%Q in Hh.
  split.
  - apply py_int_le. nra.
  - assert (H0 : (0 <= inject_Z h * m)%Q) by nra.
    pose proof (py_int_floor_gap _ H0) as Hgap.
    set (k := py_int (inject_Z h * m)) in *.
    assert (Hlt : (inject_Z (4 * h) < inject_Z (5 * (k + 1)))%Q).
    { rewrite !inject_Z_mult. change (inject_Z 4) with 4%Q.
      change (inject_Z 5) with 5%Q. nra. }
    rewrite <- Zlt_Qlt in Hlt. lia.
Qed.

Lemma adjusted_height_level (h : Z) :
  py_int (inject_Z h * py_max 0.8 (1.0 - inject_Z 0 * 0.002)) = h.
Proof.
  assert (Hm : (py_max 0.8 (1.0 - inject_Z 0 * 0.002) == 1)%Q).
  { unfold py_max. destruct (Qlt_le_dec _ _) as [H|H]; [| exfalso; revert H];
      change (inject_Z 0) with 0%Q; [lra | lra]. }
  apply Z.le_antisymm.
  - apply py_int_le. rewrite Hm. lra.
  - apply py_int_ge. rewrite Hm. lra.
Qed.

Lemma place_tree_spec (height_map : list Z) (tree : Tree) :
  if on_profile height_map tree
  then ∃ tree', place_tree height_map tree = Some (Some tree')
                ∧ placed height_map tree tree'
  else place_tree height_map tree = Some None.
Proof.
  unfold on_profile, place_tree. cbv zeta.
  destruct ((0 <=? tree_x tree)
            && (tree_x tree <? Z.of_nat (length height_map))) eqn:Hon;
    [| done].
  apply andb_true_iff in Hon as [H0%Z.leb_le Hlt%Z.ltb_lt].
  destruct (getitem_in_Some height_map (tree_x tree)) as (v & -> & Hv); [lia |].
  rewrite bind_Some.
  destruct ((0 <? tree_x tree)
            && (tree_x tree <? Z.of_nat (length height_map) - 1)) eqn:Hin.
  - apply andb_true_iff in Hin as [H1%Z.ltb_lt H2%Z.ltb_lt].
    destruct (getitem_in_Some height_map (tree_x tree + 1))
      as (right & -> & Hr); [lia |].
    destruct (getitem_in_Some height_map (tree_x tree - 1))
      as (left & -> & Hl); [lia |].
    rewrite !bind_Some. eexists. split; [done |].
    unfold placed. cbn [tree_x tree_height tree_destroyed tree_ground_y].
    split; [done |]. split; [done |]. split; [done |]. split.
    + intros Hh. apply adjusted_height_band; [done |].
      apply height_modifier_band. lia.
    + intros [Hlv | [Hlv | Hlv]]; [lia | lia |].
      rewrite Hr, Hl in Hlv. injection Hlv as ->.
      rewrite Z.sub_diag. apply adjusted_height_level.
  - rewrite bind_Some. eexists. split; [done |].
    unfold placed. cbn [tree_x tree_height tree_destroyed tree_ground_y].
    split; [done |]. split; [done |]. split; [done |]. split.
    + intros Hh. apply adjusted_height_band; [done |].
      apply height_modifier_band. lia.
    + intros _. apply adjusted_height_level.
Qed.

(** The loop of [place_features]. *)
Lemma place_features_correct (height_map : list Z) (palm_trees : list Tree) :
  ∃ updated_trees,
    place_features height_map palm_trees = Some updated_trees
    ∧ Forall2 (placed height_map)
        (filter (λ tree, on_profile height_map tree = true) palm_trees)
        updated_trees.
Proof.
  unfold place_features.
  destruct (for_in_invariant
    (λ pre updated_trees,
       Forall2 (placed height_map)
         (filter (λ tree, on_profile height_map tree = true) pre)
         updated_trees)
    (λ updated_trees tree,
       placed ← place_tree height_map tree;
       Some (match placed with
             | Some updated_tree => updated_trees ++ [updated_tree]
             | None => updated_trees
             end))
    palm_trees []) as (out & Hfor & Hout); [constructor | | by exists out].
  intros pre tree acc _ Hacc.
  pose proof (place_tree_spec height_map tree) as Hp.
  rewrite filter_app.
  destruct (on_profile height_map tree) eqn:Hon.
  - destruct Hp as (tree' & -> & Hpl). rewrite bind_Some.
    eexists. split; [done |].
    rewrite filter_cons_True, filter_nil by done.
    apply Forall2_app; [done |]. by constructor.
  - rewrite Hp, bind_Some. eexists. split; [done |].
    rewrite filter_cons_False, filter_nil by (by rewrite Hon).
    by rewrite app_nil_r.
Qed.

(** [place_features] never raises.  It drops the trees whose column is
    off the profile and keeps the others in their order; a tree kept keeps
    its column and its [destroyed] flag, stands on the profile's height at
    its column, and is between four fifths of its height (rounded down)
    and its full height tall, the full height where the profile around
    it is level. *)
Theorem place_features_spec (height_map : list Z) (palm_trees : list Tree) :
  ∃ updated_trees,
    place_features height_map palm_trees = Some updated_trees
    ∧ Forall2 (placed height_map)
        (filter (λ tree, on_profile height_map tree = true) palm_trees)
        updated_trees.
Proof. apply place_features_correct. Qed.

(** ** Palm trees and explosions *)

Lemma same_trees_refl trees : same_trees trees trees.
Proof. apply Forall_Forall2_diag, Forall_forall. done. Qed.

Lemma same_trees_trans t1 t2 t3 :
  same_trees t1 t2 → same_trees t2 t3 → same_trees t1 t3.
Proof.
  unfold same_trees. intros H12 H23.
  eapply Forall2_trans; [| exact H12 | exact H23].
  intros a b c (? & ? & ? & ?) (? & ? & ? & ?).
  repeat split; try congruence. auto.
Qed.

Lemma destroyed_trees_cons tree trees :
  destroyed_trees (tree :: trees)
  = ((if tree_destroyed tree then 1 else 0) + destroyed_trees trees)%nat.
Proof.
  unfold destroyed_trees. destruct (tree_destroyed tree) eqn:E.
  - by rewrite filter_cons_True.
  - rewrite filter_cons_False; [done |]. by rewrite E.
Qed.

Lemma destroy_first_spec ground_level trees x y radius :
  let res := Terrain.destroy_first ground_level trees x y radius in
  same_trees trees res.1
  ∧ destroyed_trees res.1
    = (destroyed_trees trees + (if res.2 then 1 else 0))%nat
  ∧ (res.2 = true ↔
     Exists (λ tree, tree_destroyed tree = false
                     ∧ Terrain.tree_in_reach ground_level tree x y radius = true)
            trees)
  ∧ (res.2 = false → res.1 = trees).
Proof.
  induction trees as [|tree rest IH]; cbn [Terrain.destroy_first].
  - cbv zeta. cbn [fst snd]. split; [constructor |]. split; [done |].
    split; [| done]. split; [done |]. by intros H%Exists_nil.
  - cbv zeta in IH.
    destruct (Terrain.destroy_first ground_level rest x y radius)
      as [rest' found]. cbn [fst snd] in IH.
    destruct IH as (Hsame & Hcount & Hfound & Hkeep).
    assert (Hskip :
      (tree_destroyed tree = true
       ∨ Terrain.tree_in_reach ground_level tree x y radius = false) →
      same_trees (tree :: rest) (tree :: rest')
      ∧ destroyed_trees (tree :: rest')
        = (destroyed_trees (tree :: rest) + (if found then 1 else 0))%nat
      ∧ (found = true ↔
         Exists (λ tree, tree_destroyed tree = false
                         ∧ Terrain.tree_in_reach ground_level tree x y radius
                           = true)
                (tree :: rest))
      ∧ (found = false → tree :: rest' = tree :: rest)).
    { intros Hwhy. split; [by constructor |]. split.
      - rewrite !destroyed_trees_cons, Hcount. lia.
      - split.
        + rewrite Hfound, Exists_cons. split; [auto |].
          intros [[Hd Hr] | H]; [| done]. destruct Hwhy; congruence.
        + intros Hf. by rewrite Hkeep. }
    cbv zeta. destruct (tree_destroyed tree) eqn:Hd.
    { cbn [fst snd]. apply Hskip. by left. }
    destruct (Terrain.tree_in_reach ground_level tree x y radius) eqn:Hr.
    2:{ cbn [fst snd]. apply Hskip. by right. }
    cbn [fst snd]. split.
    + constructor; [| apply same_trees_refl].
      cbn [tree_x tree_height tree_destroyed tree_ground_y]. done.
    + split.
      * rewrite !destroyed_trees_cons, Hd.
        cbn [tree_destroyed]. lia.
      * split; [| done]. split; [| done]. intros _. apply Exists_cons. by left.
Qed.


(** A negative radius, or an explosion farther than the radius from the
    middle of every trunk, fells nothing. *)
Lemma tree_in_reach_bound ground_level tree x y radius :
  Terrain.tree_in_reach ground_level tree x y radius = true →
  0 ≤ radius
  ∧ (inject_Z (tree_x tree) - inject_Z radius <= x
     <= inject_Z (tree_x tree) + inject_Z radius)%Q.
Proof.
  unfold Terrain.tree_in_reach. cbv zeta.
  intros [Hr%Z.leb_le Hd%Qle_bool_iff]%andb_true_iff.
  split; [done |].
  rewrite Zle_Qle in Hr. change (inject_Z 0) with 0%Q in Hr.
  set (r := inject_Z radius) in *. set (tx := inject_Z (tree_x tree)) in *.
  set (dy := (inject_Z ground_level - inject_Z (tree_height tree) / 2 - y)%Q)
    in *.
  clearbody r tx dy.
  assert (0 <= dy * dy)%Q by nra.
  split; nra.
Qed.

(** One explosion on a well-formed terrain map. *)
Lemma explode_spec (p : Projectile.Projectile) (t : Terrain.Terrain) now :
  wf (Terrain.terrain_map t) = true →
  ∃ p' t', Projectile.explode p t now = Some (p', t')
    ∧ Projectile.active p' = false
    ∧ wf (Terrain.terrain_map t') = true
    ∧ consistent (Terrain.terrain_map t') = true
    ∧ width (Terrain.terrain_map t') = width (Terrain.terrain_map t)
    ∧ height (Terrain.terrain_map t') = height (Terrain.terrain_map t)
    ∧ (length (craters (Terrain.terrain_map t')) ≤ max_craters)%nat
    ∧ Terrain.height_map t' = Terrain.height_map t
    ∧ Terrain.ground_level t' = Terrain.ground_level t
    ∧ same_trees (Terrain.palm_trees t) (Terrain.palm_trees t')
    ∧ (destroyed_trees (Terrain.palm_trees t')
       ≤ destroyed_trees (Terrain.palm_trees t) + 1)%nat
    ∧ ∀ x y, is_solid_at (Terrain.terrain_map t') x y = Some true →
             is_solid_at (Terrain.terrain_map t) x y = Some true.
Proof.
  intros Hwf. unfold Projectile.explode.
  destruct (create_crater_spec (Terrain.terrain_map t)
              (py_int (Projectile.x p)) (py_int (Projectile.y p))
              (Projectile.explosion_radius p) now Hwf)
    as (tm1 & -> & Hwf1 & Hcons1 & Hw & Hh & _ & Hpx).
  rewrite bind_Some. cbv zeta.
  set (t1 := Terrain.mkTerrain _ _ _ _ _ (merge_overlapping_craters tm1)).
  pose proof (destroy_first_spec (Terrain.ground_level t1)
                (Terrain.palm_trees t1) (Projectile.x p) (Projectile.y p)
                (Projectile.explosion_radius p)) as Hd.
  cbv zeta in Hd. unfold Terrain.destroy_tree_at.
  destruct (Terrain.destroy_first _ _ _ _ _) as [trees found].
  cbn [fst snd] in Hd. destruct Hd as (Hsame & Hcount & _ & _).
  eexists _, _. split; [done |].
  cbn [Projectile.active Terrain.terrain_map Terrain.palm_trees
       Terrain.height_map Terrain.ground_level t1].
  split; [done |]. split; [done |]. split; [done |].
  split; [done |]. split; [done |].
  split; [apply merge_crater_list_length |].
  split; [done |]. split; [done |]. split; [done |].
  split; [change (Terrain.palm_trees t1) with (Terrain.palm_trees t) in Hcount;
          destruct found; lia |].
  intros x y.
  change (is_solid_at (merge_overlapping_craters tm1) x y)
    with (is_solid_at tm1 x y).
  rewrite !solid_true_iff by done.
  rewrite (solid_after_crater _ tm1 _ _ _ x y Hw Hh Hpx).
  by intros [? _]%andb_true_iff.
Qed.

(** A volley of explosions on a terrain whose map is well formed runs
    through without raising.  The map stays well formed with the same
    size, holds at most 50 crater records after every explosion, and no
    cell becomes solid again; the trees keep their places and heights, no
    felled tree stands up again, and every explosion fells one tree at
    most.  The terrain's own profile and ground level are not updated. *)
Theorem volley_invariants (shots : list (Projectile.Projectile * Z))
    (t : Terrain.Terrain) :
  wf (Terrain.terrain_map t) = true →
  ∃ t', Projectile.volley t shots = Some t'
    ∧ wf (Terrain.terrain_map t') = true
    ∧ width (Terrain.terrain_map t') = width (Terrain.terrain_map t)
    ∧ height (Terrain.terrain_map t') = height (Terrain.terrain_map t)
    ∧ (shots ≠ [] →
       consistent (Terrain.terrain_map t') = true
       ∧ (length (craters (Terrain.terrain_map t')) ≤ max_craters)%nat)
    ∧ Terrain.height_map t' = Terrain.height_map t
    ∧ Terrain.ground_level t' = Terrain.ground_level t
    ∧ same_trees (Terrain.palm_trees t) (Terrain.palm_trees t')
    ∧ (destroyed_trees (Terrain.palm_trees t')
       ≤ destroyed_trees (Terrain.palm_trees t) + length shots)%nat
    ∧ ∀ x y, is_solid_at (Terrain.terrain_map t') x y = Some true →
             is_solid_at (Terrain.terrain_map t) x y = Some true.
Proof.
  intros Hwf. unfold Projectile.volley.
  destruct (for_in_invariant
    (λ pre t',
       wf (Terrain.terrain_map t') = true
       ∧ width (Terrain.terrain_map t') = width (Terrain.terrain_map t)
       ∧ height (Terrain.terrain_map t') = height (Terrain.terrain_map t)
       ∧ (pre ≠ [] →
          consistent (Terrain.terrain_map t') = true
          ∧ (length (craters (Terrain.terrain_map t')) ≤ max_craters)%nat)
       ∧ Terrain.height_map t' = Terrain.height_map t
       ∧ Terrain.ground_level t' = Terrain.ground_level t
       ∧ same_trees (Terrain.palm_trees t) (Terrain.palm_trees t')
       ∧ (destroyed_trees (Terrain.palm_trees t')
          ≤ destroyed_trees (Terrain.palm_trees t) + length pre)%nat
       ∧ ∀ x y, is_solid_at (Terrain.terrain_map t') x y = Some true →
                is_solid_at (Terrain.terrain_map t) x y = Some true)
    (λ terrain (shot : Projectile.Projectile * Z),
       '(_, terrain) ← Projectile.explode shot.1 terrain shot.2; Some terrain)
    shots t) as (t' & Hfor & H); [| | by exists t'].
  - split; [done |]. split; [done |]. split; [done |]. split; [done |].
    split; [done |]. split; [done |]. split; [apply same_trees_refl |].
    split; [simpl; lia | done].
  - intros pre shot t1 _ (Hwf1 & Hw1 & Hh1 & _ & Hhm1 & Hgl1 & Hs1 & Hd1 & Hsol1).
    destruct (explode_spec shot.1 t1 shot.2 Hwf1)
      as (p' & t2 & -> & _ & Hwf2 & Hc2 & Hw2 & Hh2 & Hn2 & Hhm2 & Hgl2
          & Hs2 & Hd2 & Hsol2).
    rewrite bind_Some. exists t2. split; [done |].
    split; [done |]. split; [congruence |]. split; [congruence |].
    split; [done |]. split; [congruence |]. split; [congruence |].
    split; [by apply (same_trees_trans _ (Terrain.palm_trees t1)) |].
    split; [rewrite length_app; simpl; lia |].
    intros x y Hxy. by apply Hsol1, Hsol2.
Qed.

Lemma volley_invariants_witness :
  ∃ t', Projectile.volley grove64 two_shots = Some t'
    ∧ wf (Terrain.terrain_map t') = true
    ∧ width (Terrain.terrain_map t') = width (Terrain.terrain_map grove64)
    ∧ height (Terrain.terrain_map t') = height (Terrain.terrain_map grove64)
    ∧ (two_shots ≠ [] →
       consistent (Terrain.terrain_map t') = true
       ∧ (length (craters (Terrain.terrain_map t')) ≤ max_craters)%nat)
    ∧ Terrain.height_map t' = Terrain.height_map grove64
    ∧ Terrain.ground_level t' = Terrain.ground_level grove64
    ∧ same_trees (Terrain.palm_trees grove64) (Terrain.palm_trees t')
    ∧ (destroyed_trees (Terrain.palm_trees t')
       ≤ destroyed_trees (Terrain.palm_trees grove64) + length two_shots)%nat
    ∧ ∀ x y, is_solid_at (Terrain.terrain_map t') x y = Some true →
             is_solid_at (Terrain.terrain_map grove64) x y = Some true.
Proof. apply (volley_invariants two_shots grove64). reflexivity. Defined.

(** ** [Terrain.__init__] *)

Lemma varied_terrain_length sin random pow draw width complexity out :
  200 ≤ width →
  generate_varied_terrain sin random pow draw width complexity = Some out →
  length out = Z.to_nat width.
Proof.
  intros Hw. unfold generate_varied_terrain.
  destruct (generate_height_map_band sin random width complexity) as [Hlen _].
  destruct (add_sand_dunes_untouched pow draw
              (generate_height_map sin random width complexity) complexity)
    as (dunes & -> & Hld & _); [lia |].
  rewrite bind_Some, smooth_terrain_once. intros Hs.
  destruct (smooth_pass_ends dunes out Hs) as [Hlo _]. congruence.
Qed.

Lemma filter_initial_trees (hm : list Z) :
  length hm = Z.to_nat SCREEN_WIDTH →
  filter (λ tree, on_profile hm tree = true) Terrain.initial_trees
  = Terrain.initial_trees.
Proof.
  intros Hlen. unfold Terrain.initial_trees.
  rewrite !filter_cons_True, ?filter_nil; try done;
    unfold on_profile; rewrite Hlen; reflexivity.
Qed.

(** [Terrain()] on a profile inside the screen, the flat one or a
    generated one: the terrain is built, its terrain map is well formed
    and solid from the profile downwards, it has no crater, and the four
    palm trees stand at their columns on the profile. *)
Theorem new_Terrain_spec sin random pow draw (use_varied_terrain : bool)
    complexity (hm : list Z) :
  (if use_varied_terrain
   then generate_varied_terrain sin random pow draw SCREEN_WIDTH complexity
        = Some hm
        ∧ Forall (λ v, 0 ≤ v ≤ SCREEN_HEIGHT) hm
   else hm = replicate (Z.to_nat SCREEN_WIDTH) (SCREEN_HEIGHT - 100)) →
  ∃ t, Terrain.new_Terrain sin random pow draw use_varied_terrain complexity
       = Some t
    ∧ Terrain.height_map t = hm
    ∧ Terrain.ground_level t
      = (if use_varied_terrain then sumZ hm `div` SCREEN_WIDTH
         else SCREEN_HEIGHT - 100)
    ∧ Forall2 (placed hm) Terrain.initial_trees (Terrain.palm_trees t)
    ∧ wf (Terrain.terrain_map t) = true
    ∧ consistent (Terrain.terrain_map t) = true
    ∧ height_map (Terrain.terrain_map t) = hm
    ∧ craters (Terrain.terrain_map t) = []
    ∧ ∀ x y v, hm !! Z.to_nat x = Some v → 0 ≤ x → 0 ≤ y < SCREEN_HEIGHT →
        is_solid_at (Terrain.terrain_map t) x y = Some (v <=? y).
Proof.
  intros Hhm.
  assert (Hlen : length hm = Z.to_nat SCREEN_WIDTH).
  { destruct use_varied_terrain.
    - destruct Hhm as [Hg _].
      eapply varied_terrain_length; [| exact Hg]. done.
    - subst hm. apply length_replicate. }
  assert (Hband : Forall (λ v, 0 ≤ v ≤ SCREEN_HEIGHT) hm).
  { destruct use_varied_terrain; [by destruct Hhm |].
    subst hm. apply Forall_replicate. done. }
  assert (Hne : hm ≠ []).
  { intros ->. done. }
  assert (Htail : ∀ gl, ∃ t,
    place_features hm Terrain.initial_trees
    ≫= (λ trees,
          new_TerrainMap SCREEN_WIDTH SCREEN_HEIGHT (Profile hm)
          ≫= λ tm,
               Some (Terrain.mkTerrain (SCREEN_HEIGHT - 100) complexity hm gl
                       trees tm)) = Some t
    ∧ Terrain.height_map t = hm
    ∧ Terrain.ground_level t = gl
    ∧ Forall2 (placed hm) Terrain.initial_trees (Terrain.palm_trees t)
    ∧ wf (Terrain.terrain_map t) = true
    ∧ consistent (Terrain.terrain_map t) = true
    ∧ height_map (Terrain.terrain_map t) = hm
    ∧ craters (Terrain.terrain_map t) = []
    ∧ ∀ x y v, hm !! Z.to_nat x = Some v → 0 ≤ x → 0 ≤ y < SCREEN_HEIGHT →
        is_solid_at (Terrain.terrain_map t) x y = Some (v <=? y)).
  { intros gl.
    destruct (place_features_correct hm Terrain.initial_trees)
      as (trees & -> & Htrees).
    rewrite filter_initial_trees in Htrees by done. rewrite bind_Some.
    destruct (new_TerrainMap_correct SCREEN_WIDTH SCREEN_HEIGHT (Profile hm))
      as (tm & -> & Hwf & Hcons & _ & _ & Hmap & Hcr & Hsolid);
      [done | done | done | by (unfold profile_of; rewrite Hlen) | done |].
    rewrite bind_Some. eexists. split; [done |].
    cbn [Terrain.height_map Terrain.ground_level Terrain.palm_trees
         Terrain.terrain_map].
    do 7 (split; [done |]). exact Hsolid. }
  unfold Terrain.new_Terrain. destruct use_varied_terrain.
  - destruct Hhm as [-> _]. rewrite bind_Some.
    destruct (decide (hm = [])); [done |]. rewrite bind_Some, Hlen.
    apply Htail.
  - subst hm. rewrite bind_Some. apply Htail.
Qed.

Lemma new_Terrain_spec_witness :
  ∃ t, Terrain.new_Terrain flat_sin mid_random linear_pow same_dune false 1
       = Some t
    ∧ Terrain.height_map t
      = replicate (Z.to_nat SCREEN_WIDTH) (SCREEN_HEIGHT - 100)
    ∧ Terrain.ground_level t = SCREEN_HEIGHT - 100
    ∧ Forall2 (placed (replicate (Z.to_nat SCREEN_WIDTH) (SCREEN_HEIGHT - 100)))
        Terrain.initial_trees (Terrain.palm_trees t)
    ∧ wf (Terrain.terrain_map t) = true
    ∧ consistent (Terrain.terrain_map t) = true
    ∧ height_map (Terrain.terrain_map t)
      = replicate (Z.to_nat SCREEN_WIDTH) (SCREEN_HEIGHT - 100)
    ∧ craters (Terrain.terrain_map t) = []
    ∧ ∀ x y v,
        replicate (Z.to_nat SCREEN_WIDTH) (SCREEN_HEIGHT - 100) !! Z.to_nat x
        = Some v →
        0 ≤ x → 0 ≤ y < SCREEN_HEIGHT →
        is_solid_at (Terrain.terrain_map t) x y = Some (v <=? y).
Proof.
  apply (new_Terrain_spec flat_sin mid_random linear_pow same_dune false 1
           (replicate (Z.to_nat SCREEN_WIDTH) (SCREEN_HEIGHT - 100))).
  reflexivity.
Defined.

(** ** [_blend_colors] *)




(** ** [next_turn] *)

Lemma skip_dead_spec (players : list GameManager.Player) :
  let n := Z.of_nat (length players) in
  ∀ attempts_left c, 0 ≤ c < n →
  ∃ k, 0 ≤ k ≤ Z.of_nat attempts_left
    ∧ GameManager.skip_dead players attempts_left c = Some ((c + k) `mod` n)
    ∧ (∀ j, 0 ≤ j < k →
         ∃ p, getitem players ((c + j) `mod` n) = Some p
              ∧ GameManager.health p ≤ 0)
    ∧ (k < Z.of_nat attempts_left →
         ∃ p, getitem players ((c + k) `mod` n) = Some p
              ∧ 0 < GameManager.health p).
Proof.
  intros n attempts_left.
  induction attempts_left as [|m IH]; intros c Hc;
    destruct (getitem_in_Some players c Hc) as (p & Hp & _);
    cbn [GameManager.skip_dead]; rewrite Hp, bind_Some;
    destruct (Z.leb_spec (GameManager.health p) 0) as [Hdead|Halive].
  - exists 0. rewrite Z.add_0_r, Z.mod_small by done.
    split; [lia |]. split; [done |]. split; intros; lia.
  - exists 0. rewrite Z.add_0_r, Z.mod_small by done.
    split; [lia |]. split; [done |]. split; intros; lia.
  - destruct (IH ((c + 1) `mod` n)) as (k & Hk & Hs & Hdeadk & Halivek).
    { apply Z.mod_pos_bound. lia. }
    assert (Hshift : ∀ j, ((c + 1) `mod` n + j) `mod` n = (c + (1 + j)) `mod` n).
    { intros j. rewrite Zplus_mod_idemp_l. f_equal. lia. }
    exists (1 + k). split; [lia |]. split.
    + fold n. rewrite Hs. f_equal. apply Hshift.
    + split.
      * intros j Hj. destruct (decide (j = 0)) as [->|Hj0].
        -- exists p. rewrite Z.add_0_r, Z.mod_small by done. done.
        -- destruct (Hdeadk (j - 1)) as (q & Hq & Hh); [lia |].
           exists q. rewrite Hshift in Hq.
           replace (1 + (j - 1)) with j in Hq by lia. done.
      * intros Hlt. destruct Halivek as (q & Hq & Hh); [lia |].
        exists q. by rewrite Hshift in Hq.
  - exists 0. rewrite Z.add_0_r, Z.mod_small by done.
    split; [lia |]. split; [done |]. split; [intros; lia |].
    intros _. by exists p.
Qed.

(** With at least one player, [next_turn] does not raise; it sets the
    state to [PLAYING] and the timer to 0, and moves the turn to the first
    living player after the current one in cyclic order: every player it
    passes over is dead.  When all the players are dead the turn goes to
    the player after the current one. *)
Theorem next_turn_spec (gm : GameManager.GameManager) :
  GameManager.players gm ≠ [] →
  let n := Z.of_nat (length (GameManager.players gm)) in
  ∃ gm' k, GameManager.next_turn gm = Some gm'
    ∧ GameManager.state gm' = GameManager.PLAYING
    ∧ GameManager.turn_timer gm' = 0
    ∧ GameManager.players gm' = GameManager.players gm
    ∧ 0 ≤ k ≤ n
    ∧ GameManager.current_player gm'
      = (GameManager.current_player gm + 1 + k) `mod` n
    ∧ (∀ j, 0 ≤ j < k →
         ∃ p, getitem (GameManager.players gm)
                ((GameManager.current_player gm + 1 + j) `mod` n) = Some p
              ∧ GameManager.health p ≤ 0)
    ∧ (k < n →
         ∃ p, getitem (GameManager.players gm)
                (GameManager.current_player gm') = Some p
              ∧ 0 < GameManager.health p).
Proof.
  intros Hne n.
  assert (Hn : 0 < n).
  { unfold n. destruct (GameManager.players gm); [done | simpl; lia]. }
  unfold GameManager.next_turn. cbv zeta. fold n.
  destruct (Z.eqb_spec n 0) as [H0|_]; [lia |].
  destruct (skip_dead_spec (GameManager.players gm)
              (length (GameManager.players gm))
              ((GameManager.current_player gm + 1) `mod` n))
    as (k & Hk & Hs & Hdead & Halive).
  { apply Z.mod_pos_bound. done. }
  fold n in Hs, Hdead, Halive, Hk.
  assert (Hshift : ∀ j, ((GameManager.current_player gm + 1) `mod` n + j) `mod` n
                        = (GameManager.current_player gm + 1 + j) `mod` n).
  { intros j. by rewrite Zplus_mod_idemp_l. }
  rewrite Hs, bind_Some. eexists _, k. split; [done |].
  cbn [GameManager.state GameManager.turn_timer GameManager.players
       GameManager.current_player].
  do 3 (split; [done |]). split; [done |]. split; [apply Hshift |]. split.
  - intros j Hj. destruct (Hdead j Hj) as (p & Hp & Hh).
    exists p. by rewrite <- Hshift.
  - intros Hlt. apply Halive. done.
Qed.

Lemma next_turn_spec_witness :
  ∃ gm' k, GameManager.next_turn three_players = Some gm'
    ∧ GameManager.state gm' = GameManager.PLAYING
    ∧ GameManager.turn_timer gm' = 0
    ∧ GameManager.players gm' = GameManager.players three_players
    ∧ 0 ≤ k ≤ 3
    ∧ GameManager.current_player gm'
      = (GameManager.current_player three_players + 1 + k) `mod` 3
    ∧ (∀ j, 0 ≤ j < k →
         ∃ p, getitem (GameManager.players three_players)
                ((GameManager.current_player three_players + 1 + j) `mod` 3)
              = Some p
              ∧ GameManager.health p ≤ 0)
    ∧ (k < 3 →
         ∃ p, getitem (GameManager.players three_players)
                (GameManager.current_player gm') = Some p
              ∧ 0 < GameManager.health p).
Proof. apply (next_turn_spec three_players). done. Defined.

(** ** Particle systems *)

Lemma omap_length_le {A B} (f : A → option B) (l : list A) :
  (length (omap f l) ≤ length l)%nat.
Proof.
  unfold omap. induction l as [|a l IH]; [done |]. simpl.
  destruct (f a); simpl; lia.
Qed.

(** A particle system never holds more particles than [max_particles],
    or than it held at the start if that was more: [add_particle] is the
    only call that adds one, and it adds nothing to a full system. *)
Theorem particle_system_bounded randint calls (ps : ParticleSystem.ParticleSystem) :
  let ps' := foldl (ParticleSystem.call randint) ps calls in
  ParticleSystem.max_particles ps' = ParticleSystem.max_particles ps
  ∧ Z.of_nat (length (ParticleSystem.particles ps'))
    ≤ Z.max (Z.of_nat (length (ParticleSystem.particles ps)))
            (ParticleSystem.max_particles ps).
Proof.
  cbv zeta. revert ps. induction calls as [|c calls IH]; intros ps.
  - simpl. lia.
  - cbn [foldl].
    destruct (IH (ParticleSystem.call randint ps c)) as [Hm Hl].
    assert (Hstep :
      ParticleSystem.max_particles (ParticleSystem.call randint ps c)
      = ParticleSystem.max_particles ps
      ∧ Z.of_nat (length (ParticleSystem.particles
                            (ParticleSystem.call randint ps c)))
        ≤ Z.max (Z.of_nat (length (ParticleSystem.particles ps)))
                (ParticleSystem.max_particles ps)).
    { destruct c as [x y vx vy ty col size lifetime | |];
        cbn [ParticleSystem.call].
      - unfold ParticleSystem.add_particle.
        destruct (Z.ltb_spec (Z.of_nat (length (ParticleSystem.particles ps)))
                    (ParticleSystem.max_particles ps)).
        + cbn [ParticleSystem.max_particles ParticleSystem.particles].
          rewrite length_app. simpl. lia.
        + lia.
      - cbn [ParticleSystem.update ParticleSystem.max_particles
             ParticleSystem.particles].
        pose proof (omap_length_le
          (λ p, let '(p, alive) := Particle.update p in
                if alive then Some p else None)
          (ParticleSystem.particles ps)). lia.
      - cbn [ParticleSystem.clear ParticleSystem.max_particles
             ParticleSystem.particles]. simpl. lia. }
    destruct Hstep as [Hm1 Hl1]. rewrite Hm1 in Hm, Hl. lia.
Qed.

Lemma update_alive (p : Particle.Particle) :
  match Particle.update p with
  | (p', true) =>
      Particle.active p = true ∧ 1 < Particle.lifetime p
      ∧ Particle.lifetime p' = Particle.lifetime p - 1
      ∧ Particle.active p' = true
  | (_, false) => Particle.active p = false ∨ Particle.lifetime p ≤ 1
  end.
Proof.
  unfold Particle.update. destruct (Particle.active p); cbn [negb]; [| by left].
  destruct (Particle.particle_type p);
    (destruct (Z.leb_spec (Particle.lifetime p - 1) 0);
     [right; lia | cbn [Particle.lifetime Particle.active]; repeat split; lia]).
Qed.

Lemma update_pass (l : list Particle.Particle) :
  let l' := omap (λ p, let '(p, alive) := Particle.update p in
                       if alive then Some p else None) l in
  lifetimes l'
  = (λ t, t - 1) <$> filter (λ t, 1 < t)
      (lifetimes (filter (λ p, Particle.active p = true) l))
  ∧ Forall (λ p, live p = true) l'.
Proof.
  cbv zeta.
  set (f := λ p : Particle.Particle,
              let '(p, alive) := Particle.update p in
              if alive then Some p else None).
  induction l as [|p l [IHl IHf]]; [by split |].
  change (omap f (p :: l))
    with (match f p with Some y => y :: omap f l | None => omap f l end).
  pose proof (update_alive p) as Hp.
  destruct (Particle.update p) as [p' [|]] eqn:Eu.
  - assert (f p = Some p') as -> by (unfold f; by rewrite Eu).
    destruct Hp as (Ha & Hl & Hl' & Ha').
    rewrite filter_cons_True by done.
    unfold lifetimes at 2. cbn [fmap list_fmap].
    rewrite filter_cons_True by done. split.
    + unfold lifetimes at 1. cbn [fmap list_fmap]. f_equal; [done | apply IHl].
    + constructor; [| done]. unfold live. rewrite Ha', Hl'.
      apply andb_true_iff. split; [done | apply Z.ltb_lt; lia].
  - assert (f p = None) as -> by (unfold f; by rewrite Eu).
    split; [| done]. rewrite IHl.
    destruct Hp as [Ha | Hl].
    + rewrite filter_cons_False by (by rewrite Ha). done.
    + destruct (Particle.active p) eqn:Ha.
      * rewrite filter_cons_True by done.
        unfold lifetimes at 2. cbn [fmap list_fmap].
        rewrite filter_cons_False by lia. done.
      * rewrite filter_cons_False by (by rewrite Ha). done.
Qed.

Lemma live_all_active (l : list Particle.Particle) :
  Forall (λ p, live p = true) l →
  filter (λ p, Particle.active p = true) l = l.
Proof.
  induction 1 as [|p l Hp _ IH]; [done |].
  apply andb_true_iff in Hp as [Ha _].
  by rewrite filter_cons_True, IH.
Qed.

Lemma aging_step (k : Z) (ts : list Z) :
  0 ≤ k →
  (λ t, t - 1) <$> filter (λ t, 1 < t)
    ((λ t, t - k) <$> filter (λ t, k < t) ts)
  = (λ t, t - (k + 1)) <$> filter (λ t, k + 1 < t) ts.
Proof.
  intros Hk. induction ts as [|t ts IH]; [done |].
  destruct (decide (k < t)) as [Hkt|Hkt].
  - rewrite (filter_cons_True (λ t, k < t)) by done. cbn [fmap list_fmap].
    destruct (decide (k + 1 < t)) as [Hk1|Hk1].
    + rewrite !filter_cons_True by lia. cbn [fmap list_fmap].
      f_equal; [lia | apply IH].
    + rewrite !filter_cons_False by lia. apply IH.
  - rewrite !filter_cons_False by lia. apply IH.
Qed.

(** After [k] updates in a row, [k] at least 1, a particle system holds
    the particles that were active with a lifetime of more than [k], in
    their order, each with [k] taken off its lifetime, and all of them
    are active; so it is empty once [k] reaches every lifetime. *)
Theorem particle_system_expiry (ps : ParticleSystem.ParticleSystem) (k : nat) :
  (1 ≤ k)%nat →
  let ps' := Nat.iter k ParticleSystem.update ps in
  lifetimes (ParticleSystem.particles ps')
  = (λ t, t - Z.of_nat k) <$> filter (λ t, Z.of_nat k < t)
      (lifetimes (filter (λ p, Particle.active p = true)
                    (ParticleSystem.particles ps)))
  ∧ Forall (λ p, live p = true) (ParticleSystem.particles ps')
  ∧ (Forall (λ p, Particle.lifetime p ≤ Z.of_nat k)
       (ParticleSystem.particles ps) →
     ParticleSystem.particles ps' = []).
Proof.
  intros Hk. cbv zeta.
  assert (Hmain :
    lifetimes (ParticleSystem.particles (Nat.iter k ParticleSystem.update ps))
    = (λ t, t - Z.of_nat k) <$> filter (λ t, Z.of_nat k < t)
        (lifetimes (filter (λ p, Particle.active p = true)
                      (ParticleSystem.particles ps)))
    ∧ Forall (λ p, live p = true)
        (ParticleSystem.particles (Nat.iter k ParticleSystem.update ps))).
  { induction k as [|k IH]; [lia |].
    destruct (decide (k = 0)%nat) as [->|Hk0].
    - cbn [Nat.iter nat_rect ParticleSystem.update ParticleSystem.particles].
      apply (update_pass (ParticleSystem.particles ps)).
    - destruct IH as [IHl IHf]; [lia |].
      change (Nat.iter (S k) ParticleSystem.update ps)
        with (ParticleSystem.update (Nat.iter k ParticleSystem.update ps)).
      set (psk := Nat.iter k ParticleSystem.update ps) in *.
      cbn [ParticleSystem.update ParticleSystem.particles].
      destruct (update_pass (ParticleSystem.particles psk)) as [Hl Hf].
      cbv zeta in Hl, Hf. split; [| done].
      rewrite Hl, (live_all_active _ IHf), IHl, aging_step by lia.
      replace (Z.of_nat (S k)) with (Z.of_nat k + 1) by lia. done. }
  destruct Hmain as [Hl Hf]. split; [done |]. split; [done |].
  intros Hall.
  assert (Hnone : filter (λ t, Z.of_nat k < t)
            (lifetimes (filter (λ p, Particle.active p = true)
                          (ParticleSystem.particles ps))) = []).
  { clear Hl Hf. induction Hall as [|p l Hp _ IH]; [done |].
    destruct (Particle.active p) eqn:Ha.
    - rewrite filter_cons_True by done. unfold lifetimes.
      cbn [fmap list_fmap]. rewrite filter_cons_False by lia. apply IH.
    - rewrite filter_cons_False by (by rewrite Ha). apply IH. }
  rewrite Hnone in Hl. unfold lifetimes in Hl.
  by apply fmap_nil_inv in Hl.
Qed.

Lemma particle_system_expiry_witness :
  lifetimes (ParticleSystem.particles (Nat.iter 2 ParticleSystem.update sparks))
  = (λ t, t - Z.of_nat 2) <$> filter (λ t, Z.of_nat 2 < t)
      (lifetimes (filter (λ p, Particle.active p = true)
                    (ParticleSystem.particles sparks)))
  ∧ Forall (λ p, live p = true)
      (ParticleSystem.particles (Nat.iter 2 ParticleSystem.update sparks))
  ∧ (Forall (λ p, Particle.lifetime p ≤ Z.of_nat 2)
       (ParticleSystem.particles sparks) →
     ParticleSystem.particles (Nat.iter 2 ParticleSystem.update sparks) = []).
Proof. apply (particle_system_expiry sparks 2). lia. Defined.

(** ** Game settings: the shared dict objects *)

Lemma omap_NoDup_apart {A B} (f : A → option B) (l : list A) :
  NoDup (omap f l) →
  ∀ a a' b b', a ∈ l → a' ∈ l → f a = Some b → f a' = Some b' → a ≠ a' →
    b ≠ b'.
Proof.
  induction l as [|x l IH]; intros Hnd a a' b b' Ha Ha' Hb Hb' Hne.
  { by apply elem_of_nil in Ha. }
  change (omap f (x :: l))
    with (match f x with Some y => y :: omap f l | None => omap f l end) in Hnd.
  apply elem_of_cons in Ha as [->|Ha]; apply elem_of_cons in Ha' as [->|Ha'].
  - done.
  - rewrite Hb in Hnd. apply NoDup_cons in Hnd as [Hnot _].
    intros ->. apply Hnot. apply list_elem_of_omap. by exists a'.
  - rewrite Hb' in Hnd. apply NoDup_cons in Hnd as [Hnot _].
    intros ->. apply Hnot. apply list_elem_of_omap. by exists a.
  - apply (IH ltac:(destruct (f x); [by apply NoDup_cons in Hnd as [_ ?] | done])
              a a'); done.
Qed.

Lemma ready_section gs section :
  ready gs = true → section ∈ section_names →
  ∃ l target,
    GameSettings.settings gs !! section = Some (GameSettings.Ref l)
    ∧ GameSettings.default_settings gs !! section = Some (GameSettings.Ref l)
    ∧ GameSettings.heap gs !! l = Some target.
Proof.
  unfold ready. intros [Hall _]%andb_true_iff Hin.
  rewrite forallb_forall in Hall.
  specialize (Hall section). rewrite <- list_elem_of_In in Hall.
  specialize (Hall Hin). unfold section_ref in Hall.
  destruct (GameSettings.settings gs !! section) as [[l|v]|]; try done.
  destruct (GameSettings.default_settings gs !! section) as [[l'|v']|];
    try done.
  apply andb_true_iff in Hall as [Hl%Nat.eqb_eq Hh]. subst l'.
  destruct (GameSettings.heap gs !! l) as [target|] eqn:E; [| done].
  by exists l, target.
Qed.

Lemma ready_distinct gs s s' l l' :
  ready gs = true → s ∈ section_names → s' ∈ section_names → s ≠ s' →
  GameSettings.settings gs !! s = Some (GameSettings.Ref l) →
  GameSettings.settings gs !! s' = Some (GameSettings.Ref l') →
  l ≠ l'.
Proof.
  unfold ready. intros [_ Hnd%bool_decide_eq_true]%andb_true_iff Hs Hs' Hne Hl Hl'.
  apply (omap_NoDup_apart (section_ref gs) section_names Hnd s s'); try done.
  - unfold section_ref. by rewrite Hl.
  - unfold section_ref. by rewrite Hl'.
Qed.

Lemma ready_heap gs gs' :
  GameSettings.settings gs' = GameSettings.settings gs →
  GameSettings.default_settings gs' = GameSettings.default_settings gs →
  (∀ l, is_Some (GameSettings.heap gs !! l) →
        is_Some (GameSettings.heap gs' !! l)) →
  ready gs = true → ready gs' = true.
Proof.
  intros Hs Hd Hh. unfold ready, section_ref. rewrite Hs, Hd.
  intros [Hall Hnd]%andb_true_iff. apply andb_true_iff. split; [| done].
  rewrite forallb_forall in Hall. apply forallb_forall. intros s Hin.
  specialize (Hall s Hin).
  destruct (GameSettings.settings gs !! s) as [[l|v]|]; try done.
  destruct (GameSettings.default_settings gs !! s) as [[l'|v']|]; try done.
  apply andb_true_iff in Hall as [Hl Hheap]. apply andb_true_iff.
  split; [done |].
  destruct (GameSettings.heap gs !! l) eqn:E; [| done].
  destruct (Hh l) as [d' ->]; [by rewrite E | done].
Qed.

Lemma get_reset gs section key :
  ready gs = true → section ∈ section_names →
  GameSettings.get (GameSettings.reset_to_defaults gs) section key
  = GameSettings.get gs section key.
Proof.
  intros Hr Hin.
  destruct (ready_section gs section Hr Hin) as (l & target & Hs & Hd & Hh).
  unfold GameSettings.get, GameSettings.reset_to_defaults.
  cbn [GameSettings.settings GameSettings.heap]. by rewrite Hs, Hd.
Qed.

Lemma set_spec gs section key value :
  ready gs = true → section ∈ section_names →
  ∃ gs', GameSettings.set gs section key value = Some gs'
    ∧ ready gs' = true
    ∧ GameSettings.default_settings gs' = GameSettings.default_settings gs
    ∧ GameSettings.settings gs' = GameSettings.settings gs
    ∧ GameSettings.get gs' section key = Some value
    ∧ ∀ s k, s ∈ section_names → (s, k) ≠ (section, key) →
        GameSettings.get gs' s k = GameSettings.get gs s k.
Proof.
  intros Hr Hin.
  destruct (ready_section gs section Hr Hin) as (l & target & Hs & Hd & Hh).
  unfold GameSettings.set. rewrite Hs, bind_Some, Hh, bind_Some.
  eexists. split; [done |].
  split.
  { apply (ready_heap gs); [done | done | | done].
    intros l0 Hl0. cbn [GameSettings.heap].
    destruct (decide (l0 = l)) as [->|Hne].
    - rewrite lookup_insert_eq. by eexists.
    - by rewrite lookup_insert_ne. }
  split; [done |]. split; [done |]. split.
  - unfold GameSettings.get. cbn [GameSettings.settings GameSettings.heap].
    rewrite Hs, bind_Some, lookup_insert_eq, bind_Some.
    apply lookup_insert_eq.
  - intros s k Hs_in Hne.
    destruct (ready_section gs s Hr Hs_in) as (l' & target' & Hs' & _ & Hh').
    unfold GameSettings.get. cbn [GameSettings.settings GameSettings.heap].
    rewrite Hs', !bind_Some.
    destruct (decide (s = section)) as [->|Hsec].
    + assert (l' = l) as -> by congruence.
      rewrite lookup_insert_eq, Hh, !bind_Some.
      apply lookup_insert_ne. congruence.
    + pose proof (ready_distinct gs s section l' l Hr Hs_in Hin Hsec Hs' Hs).
      by rewrite lookup_insert_ne.
Qed.

(** A setter writes into the dict object that [settings] shares with
    [default_settings]: the stored value is what the getter returns,
    also after [reset_to_defaults], and no other setting changes. *)
Theorem settings_set_get gs section key value :
  ready gs = true → section ∈ section_names →
  ∃ gs', GameSettings.set gs section key value = Some gs'
    ∧ ready gs' = true
    ∧ GameSettings.get gs' section key = Some value
    ∧ GameSettings.get (GameSettings.reset_to_defaults gs') section key
      = Some value
    ∧ ∀ s k, s ∈ section_names → (s, k) ≠ (section, key) →
        GameSettings.get gs' s k = GameSettings.get gs s k.
Proof.
  intros Hr Hin.
  destruct (set_spec gs section key value Hr Hin)
    as (gs' & Hset & Hr' & _ & _ & Hget & Hframe).
  exists gs'. split; [done |]. split; [done |]. split; [done |].
  split; [| done]. by rewrite get_reset.
Qed.

Lemma settings_set_get_witness :
  ∃ gs', GameSettings.set (GameSettings.new_GameSettings GameSettings.NoFile)
           "audio" "master_volume" (GameSettings.JNum 0.3) = Some gs'
    ∧ ready gs' = true
    ∧ GameSettings.get gs' "audio" "master_volume"
      = Some (GameSettings.JNum 0.3)
    ∧ GameSettings.get (GameSettings.reset_to_defaults gs')
        "audio" "master_volume" = Some (GameSettings.JNum 0.3)
    ∧ ∀ s k, s ∈ section_names → (s, k) ≠ ("audio", "master_volume") →
        GameSettings.get gs' s k
        = GameSettings.get (GameSettings.new_GameSettings GameSettings.NoFile)
            s k.
Proof.
  apply (settings_set_get (GameSettings.new_GameSettings GameSettings.NoFile)
           "audio" "master_volume" (GameSettings.JNum 0.3));
    [reflexivity | by left].
Defined.

(** ** Game settings: the ranges of the numeric settings *)

Lemma clamp_within (lo hi v : Q) :
  (lo <= hi)%Q →
  within lo (Some hi) (GameSettings.JNum (py_max lo (py_min hi v))) = true.
Proof.
  intros Hlh. unfold within, py_max, py_min.
  apply andb_true_iff.
  destruct (Qlt_le_dec v hi); (destruct (Qlt_le_dec lo _));
    split; apply Qle_bool_iff; lra.
Qed.

Lemma floor_within (v : Q) :
  within 0 None (GameSettings.JNum (py_max 0 v)) = true.
Proof.
  unfold within, py_max. rewrite andb_true_r. apply Qle_bool_iff.
  destruct (Qlt_le_dec 0 v); lra.
Qed.

Lemma bounds_sections :
  Forall (λ entry : string * string * Q * option Q,
            entry.1.1.1 ∈ section_names) bounds.
Proof. unfold bounds, section_names. repeat constructor. Qed.

Lemma in_bounds_set gs gs' section key value :
  in_bounds gs = true →
  GameSettings.get gs' section key = Some value →
  (∀ s k, s ∈ section_names → (s, k) ≠ (section, key) →
     GameSettings.get gs' s k = GameSettings.get gs s k) →
  forallb (λ '(s, k, lo, hi),
             if decide ((s, k) = (section, key)) then within lo hi value
             else true) bounds = true →
  in_bounds gs' = true.
Proof.
  unfold in_bounds. intros Hb Hget Hframe Hfits.
  rewrite forallb_forall in Hb, Hfits. apply forallb_forall.
  intros [[[s k] lo] hi] Hin.
  specialize (Hb _ Hin). specialize (Hfits _ Hin). cbv beta iota in *.
  pose proof bounds_sections as Hsec. rewrite Forall_forall in Hsec.
  rewrite <- list_elem_of_In in Hin. specialize (Hsec _ Hin). cbn in Hsec.
  destruct (decide ((s, k) = (section, key))) as [Heq|Hne].
  - injection Heq as -> ->. by rewrite Hget.
  - by rewrite Hframe.
Qed.

Ltac fits_bounds :=
  unfold bounds; cbn [forallb];
  repeat (apply andb_true_iff; split);
  try reflexivity;
  apply Qle_bool_iff; unfold py_max, py_min;
  repeat match goal with
         | |- context [Qlt_le_dec ?a ?b] => destruct (Qlt_le_dec a b)
         end;
  lra.

Lemma ready_reset gs :
  ready gs = true → ready (GameSettings.reset_to_defaults gs) = true.
Proof.
  intros Hr.
  assert (Hsame : ∀ s, s ∈ section_names →
            section_ref (GameSettings.reset_to_defaults gs) s
            = section_ref gs s).
  { intros s Hs.
    destruct (ready_section gs s Hr Hs) as (l & t & Hset & Hdef & _).
    unfold section_ref, GameSettings.reset_to_defaults.
    cbn [GameSettings.settings]. by rewrite Hset, Hdef. }
  pose proof Hr as Hr0. unfold ready in Hr |- *.
  apply andb_true_iff in Hr as [_ Hnd]. apply andb_true_iff. split.
  - apply forallb_forall. intros s Hs. rewrite <- list_elem_of_In in Hs.
    rewrite (Hsame s Hs).
    destruct (ready_section gs s Hr0 Hs) as (l & t & Hset & Hdef & Hheap).
    unfold section_ref. rewrite Hset.
    cbn [GameSettings.reset_to_defaults GameSettings.default_settings
         GameSettings.heap].
    by rewrite Hdef, Hheap, Nat.eqb_refl.
  - erewrite list_omap_ext; [exact Hnd |].
    apply Forall2_same_length_lookup_2; [done |].
    intros i s s' Hs Hs'. assert (s' = s) as -> by congruence.
    apply Hsame. by eapply list_elem_of_lookup_2.
Qed.

Lemma call_step gs c :
  ready gs = true → in_bounds gs = true →
  ∃ gs', GameSettings.call gs c = Some gs'
    ∧ ready gs' = true ∧ in_bounds gs' = true
    ∧ GameSettings.default_settings gs' = GameSettings.default_settings gs.
Proof.
  intros Hr Hb.
  assert (Hset : ∀ section key value,
    section ∈ section_names →
    forallb (λ '(s, k, lo, hi),
               if decide ((s, k) = (section, key)) then within lo hi value
               else true) bounds = true →
    ∃ gs', GameSettings.set gs section key value = Some gs'
      ∧ ready gs' = true ∧ in_bounds gs' = true
      ∧ GameSettings.default_settings gs' = GameSettings.default_settings gs).
  { intros section key value Hin Hfits.
    destruct (set_spec gs section key value Hr Hin)
      as (gs' & Hs & Hr' & Hd & _ & Hget & Hframe).
    exists gs'. split; [done |]. split; [done |]. split; [| done].
    by apply (in_bounds_set gs gs' section key value). }
  destruct c; cbn [GameSettings.call];
    unfold GameSettings.set_audio_volume, GameSettings.set_sfx_volume,
      GameSettings.set_audio_enabled, GameSettings.set_particle_intensity,
      GameSettings.set_explosion_intensity, GameSettings.set_trail_intensity,
      GameSettings.set_screen_shake_enabled,
      GameSettings.set_terrain_complexity,
      GameSettings.set_destructible_terrain_enabled,
      GameSettings.set_varied_terrain_enabled, GameSettings.set_turn_timer.
  - apply Hset; [unfold section_names; set_solver | fits_bounds].
  - apply Hset; [unfold section_names; set_solver | fits_bounds].
  - apply Hset; [unfold section_names; set_solver | fits_bounds].
  - apply Hset; [unfold section_names; set_solver | fits_bounds].
  - apply Hset; [unfold section_names; set_solver | fits_bounds].
  - apply Hset; [unfold section_names; set_solver | fits_bounds].
  - apply Hset; [unfold section_names; set_solver | fits_bounds].
  - apply Hset; [unfold section_names; set_solver | fits_bounds].
  - apply Hset; [unfold section_names; set_solver | fits_bounds].
  - apply Hset; [unfold section_names; set_solver | fits_bounds].
  - apply Hset; [unfold section_names; set_solver | fits_bounds].
  - eexists. split; [done |].
    assert (Hget : ∀ s k, s ∈ section_names →
              GameSettings.get (GameSettings.reset_to_defaults gs) s k
              = GameSettings.get gs s k)
      by (intros; by apply get_reset).
    split; [| split; [| done]].
    + by apply ready_reset.
    + unfold in_bounds in *. rewrite forallb_forall in Hb.
      apply forallb_forall. intros [[[s k] lo] hi] Hin.
      specialize (Hb _ Hin). cbv beta iota in *.
      pose proof bounds_sections as Hsec. rewrite Forall_forall in Hsec.
      rewrite <- list_elem_of_In in Hin. specialize (Hsec _ Hin).
      cbn in Hsec. by rewrite Hget.
Qed.

(** From a state in which [settings] shares its four dict objects with
    [default_settings] and the numeric settings are in their ranges,
    every sequence of setters and [reset_to_defaults] runs through
    without raising; the numeric settings stay in the ranges the setters
    clamp to, and [reset_to_defaults] changes no setting: every value
    reads the same before and after it. *)
Theorem settings_calls_invariant (calls : list GameSettings.Call)
    (gs : GameSettings.GameSettings) :
  ready gs = true → in_bounds gs = true →
  ∃ gs', for_in calls gs GameSettings.call = Some gs'
    ∧ ready gs' = true ∧ in_bounds gs' = true
    ∧ GameSettings.default_settings gs' = GameSettings.default_settings gs
    ∧ ∀ section key, section ∈ section_names →
        GameSettings.get (GameSettings.reset_to_defaults gs') section key
        = GameSettings.get gs' section key.
Proof.
  intros Hr Hb.
  destruct (for_in_invariant
    (λ (_ : list GameSettings.Call) gs',
       ready gs' = true ∧ in_bounds gs' = true
       ∧ GameSettings.default_settings gs' = GameSettings.default_settings gs)
    GameSettings.call calls gs) as (gs' & Hfor & Hr' & Hb' & Hd').
  - done.
  - intros pre c gs1 _ (Hr1 & Hb1 & Hd1).
    destruct (call_step gs1 c Hr1 Hb1) as (gs2 & Hc & Hr2 & Hb2 & Hd2).
    exists gs2. split; [done |]. split; [done |]. split; [done |]. congruence.
  - exists gs'. split; [done |]. split; [done |]. split; [done |].
    split; [done |]. intros section key Hin. by apply get_reset.
Qed.

Lemma settings_calls_invariant_witness :
  ∃ gs', for_in session (GameSettings.new_GameSettings GameSettings.NoFile)
           GameSettings.call = Some gs'
    ∧ ready gs' = true ∧ in_bounds gs' = true
    ∧ GameSettings.default_settings gs'
      = GameSettings.default_settings
          (GameSettings.new_GameSettings GameSettings.NoFile)
    ∧ ∀ section key, section ∈ section_names →
        GameSettings.get (GameSettings.reset_to_defaults gs') section key
        = GameSettings.get gs' section key.
Proof.
  apply (settings_calls_invariant session
           (GameSettings.new_GameSettings GameSettings.NoFile));
    reflexivity.
Defined.

(** ** Game settings: setters, getters and the reset *)

Ltac set_then_get Hr :=
  match goal with
  | |- GameSettings.set ?gs ?section ?key ?value ≫= _ = _ =>
      let gs' := fresh "gs'" in
      let Hr' := fresh "Hr'" in
      let Hget := fresh "Hget" in
      destruct (set_spec gs section key value Hr
                  ltac:(unfold section_names; set_solver))
        as (gs' & -> & Hr' & _ & _ & Hget & _);
      rewrite bind_Some;
      unfold GameSettings.get_audio_volume, GameSettings.get_sfx_volume,
        GameSettings.is_audio_enabled, GameSettings.get_particle_intensity,
        GameSettings.get_explosion_intensity,
        GameSettings.get_trail_intensity,
        GameSettings.is_screen_shake_enabled,
        GameSettings.get_terrain_complexity,
        GameSettings.is_destructible_terrain_enabled,
        GameSettings.is_varied_terrain_enabled, GameSettings.get_turn_timer;
      rewrite get_reset by (try done; unfold section_names; set_solver);
      exact Hget
  end.

(** A setter, then [reset_to_defaults], then the getter of the same
    setting: the getter returns the value the setter stored, a number
    clamped to the setting's range or the flag given, and not the
    default.  This holds in every state in which [settings] shares its
    sections with [default_settings], the state after [GameSettings()]
    without a settings file among them. *)
Theorem setters_survive_reset gs (v : Q) (b : bool) :
  ready gs = true →
  let reset := GameSettings.reset_to_defaults in
  (GameSettings.set_audio_volume gs v
   ≫= λ gs, GameSettings.get_audio_volume (reset gs)) = Some (GameSettings.JNum (py_max 0.0 (py_min 1.0 v)))
  ∧ (GameSettings.set_sfx_volume gs v
     ≫= λ gs, GameSettings.get_sfx_volume (reset gs)) = Some (GameSettings.JNum (py_max 0.0 (py_min 1.0 v)))
  ∧ (GameSettings.set_particle_intensity gs v
     ≫= λ gs, GameSettings.get_particle_intensity (reset gs))
    = Some (GameSettings.JNum (py_max 0.5 (py_min 2.0 v)))
  ∧ (GameSettings.set_explosion_intensity gs v
     ≫= λ gs, GameSettings.get_explosion_intensity (reset gs))
    = Some (GameSettings.JNum (py_max 0.5 (py_min 2.0 v)))
  ∧ (GameSettings.set_trail_intensity gs v
     ≫= λ gs, GameSettings.get_trail_intensity (reset gs)) = Some (GameSettings.JNum (py_max 0.5 (py_min 2.0 v)))
  ∧ (GameSettings.set_terrain_complexity gs v
     ≫= λ gs, GameSettings.get_terrain_complexity (reset gs))
    = Some (GameSettings.JNum (py_max 0.5 (py_min 2.0 v)))
  ∧ (GameSettings.set_turn_timer gs v
     ≫= λ gs, GameSettings.get_turn_timer (reset gs))
    = Some (GameSettings.JNum (py_max 0 v))
  ∧ (GameSettings.set_audio_enabled gs b
     ≫= λ gs, GameSettings.is_audio_enabled (reset gs))
    = Some (GameSettings.JBool b)
  ∧ (GameSettings.set_screen_shake_enabled gs b
     ≫= λ gs, GameSettings.is_screen_shake_enabled (reset gs))
    = Some (GameSettings.JBool b)
  ∧ (GameSettings.set_destructible_terrain_enabled gs b
     ≫= λ gs, GameSettings.is_destructible_terrain_enabled (reset gs))
    = Some (GameSettings.JBool b)
  ∧ (GameSettings.set_varied_terrain_enabled gs b
     ≫= λ gs, GameSettings.is_varied_terrain_enabled (reset gs))
    = Some (GameSettings.JBool b).
Proof.
  intros Hr. cbv zeta.
  unfold GameSettings.set_audio_volume, GameSettings.set_sfx_volume,
    GameSettings.set_audio_enabled, GameSettings.set_particle_intensity,
    GameSettings.set_explosion_intensity, GameSettings.set_trail_intensity,
    GameSettings.set_screen_shake_enabled,
    GameSettings.set_terrain_complexity,
    GameSettings.set_destructible_terrain_enabled,
    GameSettings.set_varied_terrain_enabled, GameSettings.set_turn_timer.
  repeat split; set_then_get Hr.
Qed.

Lemma setters_survive_reset_witness :
  let gs := GameSettings.new_GameSettings GameSettings.NoFile in
  let v := 0.2%Q in
  let b := false in
  let reset := GameSettings.reset_to_defaults in
  (GameSettings.set_audio_volume gs v
   ≫= λ gs, GameSettings.get_audio_volume (reset gs)) = Some (GameSettings.JNum (py_max 0.0 (py_min 1.0 v)))
  ∧ (GameSettings.set_sfx_volume gs v
     ≫= λ gs, GameSettings.get_sfx_volume (reset gs)) = Some (GameSettings.JNum (py_max 0.0 (py_min 1.0 v)))
  ∧ (GameSettings.set_particle_intensity gs v
     ≫= λ gs, GameSettings.get_particle_intensity (reset gs))
    = Some (GameSettings.JNum (py_max 0.5 (py_min 2.0 v)))
  ∧ (GameSettings.set_explosion_intensity gs v
     ≫= λ gs, GameSettings.get_explosion_intensity (reset gs))
    = Some (GameSettings.JNum (py_max 0.5 (py_min 2.0 v)))
  ∧ (GameSettings.set_trail_intensity gs v
     ≫= λ gs, GameSettings.get_trail_intensity (reset gs)) = Some (GameSettings.JNum (py_max 0.5 (py_min 2.0 v)))
  ∧ (GameSettings.set_terrain_complexity gs v
     ≫= λ gs, GameSettings.get_terrain_complexity (reset gs))
    = Some (GameSettings.JNum (py_max 0.5 (py_min 2.0 v)))
  ∧ (GameSettings.set_turn_timer gs v
     ≫= λ gs, GameSettings.get_turn_timer (reset gs))
    = Some (GameSettings.JNum (py_max 0 v))
  ∧ (GameSettings.set_audio_enabled gs b
     ≫= λ gs, GameSettings.is_audio_enabled (reset gs))
    = Some (GameSettings.JBool b)
  ∧ (GameSettings.set_screen_shake_enabled gs b
     ≫= λ gs, GameSettings.is_screen_shake_enabled (reset gs))
    = Some (GameSettings.JBool b)
  ∧ (GameSettings.set_destructible_terrain_enabled gs b
     ≫= λ gs, GameSettings.is_destructible_terrain_enabled (reset gs))
    = Some (GameSettings.JBool b)
  ∧ (GameSettings.set_varied_terrain_enabled gs b
     ≫= λ gs, GameSettings.is_varied_terrain_enabled (reset gs))
    = Some (GameSettings.JBool b).
Proof.
  apply (setters_survive_reset
           (GameSettings.new_GameSettings GameSettings.NoFile) 0.2 false).
  reflexivity.
Defined.

(** ** Game settings: loading *)

Lemma merge_dict_keys (source : list (string * GameSettings.Json)) :
  ∀ target, same_keys (GameSettings.merge_dict target source) target.
Proof.
  unfold GameSettings.merge_dict.
  induction source as [|[key value] source IH]; intros target; [done |].
  cbn [foldl]. intros k. rewrite (IH _ k).
  destruct (target !! key) as [old|] eqn:E; [| done].
  destruct (decide (k = key)) as [->|Hne].
  - rewrite lookup_insert_eq, E. split; by eexists.
  - by rewrite lookup_insert_ne.
Qed.

Lemma merge_settings_keys (source : list (string * GameSettings.Json)) :
  ∀ self,
    let self' := GameSettings._merge_settings self source in
    same_keys (GameSettings.settings self') (GameSettings.settings self)
    ∧ GameSettings.default_settings self'
      = GameSettings.default_settings self
    ∧ ∀ l target, GameSettings.heap self !! l = Some target →
        ∃ target', GameSettings.heap self' !! l = Some target'
                   ∧ same_keys target' target.
Proof.
  unfold GameSettings._merge_settings.
  induction source as [|[key value] source IH]; intros self.
  { cbv zeta. cbn [foldl]. split; [done |]. split; [done |].
    intros l target Hl. by exists target. }
  cbv zeta. cbn [foldl].
  set (step := match GameSettings.settings self !! key with
               | Some _ => _ | None => _ end).
  destruct (IH step) as (Hs & Hd & Hh). cbv zeta in Hs, Hd, Hh.
  assert (Hstep :
    same_keys (GameSettings.settings step) (GameSettings.settings self)
    ∧ GameSettings.default_settings step = GameSettings.default_settings self
    ∧ ∀ l target, GameSettings.heap self !! l = Some target →
        ∃ target', GameSettings.heap step !! l = Some target'
                   ∧ same_keys target' target).
  { assert (Hkeep : ∀ v : GameSettings.Entry,
              is_Some (GameSettings.settings self !! key) →
              same_keys (<[key := v]> (GameSettings.settings self))
                        (GameSettings.settings self)).
    { intros v Hk k. destruct (decide (k = key)) as [->|Hne].
      - rewrite lookup_insert_eq. split; [done | by eexists].
      - by rewrite lookup_insert_ne. }
    assert (Hsame : ∀ l target, GameSettings.heap self !! l = Some target →
              ∃ target', GameSettings.heap self !! l = Some target'
                         ∧ same_keys target' target)
      by (intros l target Hl; by exists target).
    unfold step.
    destruct (GameSettings.settings self !! key) as [[l|old]|] eqn:E.
    - destruct value;
        cbn [GameSettings.settings GameSettings.default_settings
             GameSettings.heap];
        try (split; [apply Hkeep; by eexists | split; [done | exact Hsame]]).
      split; [done |]. split; [done |].
      intros l0 target Hl0. destruct (decide (l0 = l)) as [->|Hne].
      + rewrite lookup_alter_eq, Hl0. eexists. split; [done |].
        apply merge_dict_keys.
      + rewrite lookup_alter_ne by done. by exists target.
    - cbn [GameSettings.settings GameSettings.default_settings
           GameSettings.heap].
      split; [apply Hkeep; by eexists | split; [done | exact Hsame]].
    - split; [done |]. split; [done | exact Hsame]. }
  destruct Hstep as (Hs1 & Hd1 & Hh1).
  split; [| split].
  - intros k. by rewrite (Hs k), (Hs1 k).
  - congruence.
  - intros l target Hl.
    destruct (Hh1 l target Hl) as (t1 & Hl1 & Hk1).
    destruct (Hh l t1 Hl1) as (t2 & Hl2 & Hk2).
    exists t2. split; [done |]. intros k. by rewrite (Hk2 k), (Hk1 k).
Qed.

Lemma merge_settings_ready (source : list (string * GameSettings.Json)) :
  object_sections source →
  ∀ self,
    ready self = true →
    (∀ key, is_Some (GameSettings.settings self !! key) →
            key ∈ section_names) →
    ready (GameSettings._merge_settings self source) = true.
Proof.
  unfold GameSettings._merge_settings, object_sections.
  induction 1 as [|[key value] source Hobj _ IH]; intros self Hr Hnames;
    [done |].
  cbn [foldl].
  destruct (GameSettings.settings self !! key) as [entry|] eqn:E;
    [| by apply IH].
  assert (Hin : key ∈ section_names) by (apply Hnames; by rewrite E).
  destruct (Hobj Hin) as [items ->].
  destruct (ready_section self key Hr Hin) as (l & target & Hs & _ & Hh).
  rewrite Hs in E. injection E as <-.
  apply IH; [| done].
  apply (ready_heap self); [done | done | | done].
  intros l0 [t0 Hl0]. cbn [GameSettings.heap].
  destruct (decide (l0 = l)) as [->|Hne].
  - rewrite lookup_alter_eq, Hl0. by eexists.
  - rewrite lookup_alter_ne by done. by eexists.
Qed.

Lemma initial_settings_keys key :
  is_Some (GameSettings.settings
             (GameSettings.new_GameSettings GameSettings.NoFile) !! key) →
  key ∈ section_names.
Proof.
  intros [entry Hkey].
  destruct (decide (key ∈ section_names)) as [|Hnot]; [done |]. exfalso.
  assert (key ≠ "audio" ∧ key ≠ "visual_effects" ∧ key ≠ "terrain"
          ∧ key ≠ "gameplay") as (H1 & H2 & H3 & H4)
    by (unfold section_names in Hnot; set_solver).
  unfold GameSettings.new_GameSettings, GameSettings.load_settings in Hkey.
  cbv zeta in Hkey. cbn [GameSettings.settings] in Hkey.
  rewrite !lookup_insert_ne, lookup_singleton_ne in Hkey by done. done.
Qed.

(** Whatever the settings file holds, [GameSettings()] keeps the keys of
    the defaults: loading adds no key and drops none, in the settings
    and in each section.  A file that is absent, unreadable or not an
    object leaves the defaults; a file whose known sections are objects
    leaves every section the dict object of the defaults. *)
Theorem new_GameSettings_keys (file : GameSettings.File) :
  let gs0 := GameSettings.new_GameSettings GameSettings.NoFile in
  let gs := GameSettings.new_GameSettings file in
  same_keys (GameSettings.settings gs) (GameSettings.settings gs0)
  ∧ GameSettings.default_settings gs = GameSettings.default_settings gs0
  ∧ (∀ l target0, GameSettings.heap gs0 !! l = Some target0 →
       ∃ target, GameSettings.heap gs !! l = Some target
                 ∧ same_keys target target0)
  ∧ match file with
    | GameSettings.Loaded (GameSettings.JDict source) =>
        object_sections source → ready gs = true
    | _ => gs = gs0
    end.
Proof.
  cbv zeta.
  set (gs0 := GameSettings.new_GameSettings GameSettings.NoFile).
  assert (Hother :
    same_keys (GameSettings.settings gs0) (GameSettings.settings gs0)
    ∧ GameSettings.default_settings gs0 = GameSettings.default_settings gs0
    ∧ (∀ l target0, GameSettings.heap gs0 !! l = Some target0 →
         ∃ target, GameSettings.heap gs0 !! l = Some target
                   ∧ same_keys target target0)
    ∧ gs0 = gs0).
  { split; [done |]. split; [done |]. split; [| done].
    intros l t Hl. by exists t. }
  destruct file as [| |[| | | | |source]]; try exact Hother.
  change (GameSettings.new_GameSettings
            (GameSettings.Loaded (GameSettings.JDict source)))
    with (GameSettings._merge_settings gs0 source).
  destruct (merge_settings_keys source gs0) as (Hs & Hd & Hh).
  split; [done |]. split; [done |]. split; [done |].
  intros Hobj. apply merge_settings_ready; [done | reflexivity |].
  apply initial_settings_keys.
Qed.
